(** * The 2D scan simulator of f1tenth_simulator (src/scan_simulator_2d.cpp)

    A shallow embedding of [ScanSimulator2D]: the angle cache built by the
    constructor, the world-to-grid coordinate transform, the distance-field
    query, the ray marcher with its back-off correction, the opponent
    collision test and the per-beam scan loop.

    Modelling choices.
    - [double] is the type [R] of real numbers: arithmetic is exact, there
      is no rounding, no infinity and no NaN.  [std::sin], [std::cos],
      [std::tan], [sqrt] and [M_PI] are [sin], [cos], [tan], [sqrt] and [PI].
      Division by zero follows [R] ([/ 0 = 0]).  Where rounding decides
      what the code does (the border test and the floor of the coordinate
      transform, the wrap of the start index) the same lines are embedded
      a second time over binary64, in the module [Double].
    - [int] and [size_t] values are integers in [Z]; where the source mixes
      them the wrap-around is written out ([to_int], [to_size_t]).
    - the two [while] loops of [trace_ray] and the wrapping loop of [scan]
      are not bounded in the source: they take a fuel argument and fail with
      [OutOfFuel] when it runs out.
    - indexing a [std::vector] out of range is undefined in the source: the
      model fails with [BadTableIndex] (angle cache) or [BadCellIndex]
      (distance field).
    - the noise generator is a sequence of samples with a read position. *)

From Stdlib Require Import Reals Lra Lia ZArith List Bool Psatz.
From Stdlib Require Floats.
Import ListNotations.
Open Scope R_scope.

(** ** Outcomes of partial computations *)

Inductive error : Type :=
| OutOfFuel
| BadTableIndex
| BadCellIndex.

Inductive outcome (A : Type) : Type :=
| Done (a : A)
| Fail (e : error).

Arguments Done {A} a.
Arguments Fail {A} e.

Definition bind {A B : Type} (m : outcome A) (k : A -> outcome B) : outcome B :=
  match m with
  | Done a => k a
  | Fail e => Fail e
  end.

Notation "x <- m ;; k" := (bind m (fun x => k))
  (at level 61, m at next level, right associativity).
Notation "' pat <- m ;; k" := (bind m (fun x => match x with pat => k end))
  (at level 61, pat pattern, m at next level, right associativity).

(** ** Machine integers and doubles *)

(** Conversion of an integer to [size_t] (64 bits, unsigned). *)
Definition to_size_t (z : Z) : Z := (z mod 2 ^ 64)%Z.

(** Conversion of an integer to [int] (32 bits, two's complement). *)
Definition to_int (z : Z) : Z := ((z + 2 ^ 31) mod 2 ^ 32 - 2 ^ 31)%Z.

(** Comparisons of doubles, as booleans. *)
Definition Rltb (a b : R) : bool := if Rlt_dec a b then true else false.
Definition Rleb (a b : R) : bool := if Rle_dec a b then true else false.
Definition Reqb (a b : R) : bool := if Req_dec_T a b then true else false.

(** Conversion of a double to [int]: truncation toward zero. *)
Definition Rtrunc (r : R) : Z := if Rle_dec 0 r then Zfloor r else Zceil r.

(** [std::fmod]: the remainder has the sign of the first argument. *)
Definition fmod (a b : R) : R := a - IZR (Rtrunc (a / b)) * b.

(** [std::min (a, b)] is [(b < a) ? b : a]. *)
Definition std_min (a b : R) : R := if Rltb b a then b else a.

(** [std::vector::operator[]] on a table of doubles. *)
Definition lookup (e : error) (l : list R) (i : Z) : outcome R :=
  if (i <? 0)%Z then Fail e
  else match nth_error l (Z.to_nat i) with
       | Some v => Done v
       | None => Fail e
       end.

(** ** Data *)

(** Modelled from the spec: [Pose2D], declared in pose_2d.hpp: a position
    and a heading in radians, with no normalisation of the heading. *)
Module Pose2D.
Record t : Type := mk { x : R; y : R; theta : R }.
End Pose2D.

(** [std::mt19937] with [std::normal_distribution]: the draws to come and
    how many were taken. *)
Record generator : Type := mkGen { samples : nat -> R; drawn : nat }.

Definition noise_dist (g : generator) : R * generator :=
  (samples g (drawn g), mkGen (samples g) (S (drawn g))).

(** Modelled from the spec: the data members of the class, declared in
    scan_simulator_2d.hpp, with the types their uses in
    scan_simulator_2d.cpp give them ([width] and [height] are the [size_t]
    arguments of [set_map]). *)
Record ScanSimulator2D : Type := mkSim {
  (* configuration *)
  num_beams : Z;
  field_of_view : R;
  scan_std_dev : R;
  scan_max_range : R;
  cube_width : R;
  ray_tracing_epsilon : R;
  theta_discretization : Z;
  angle_increment : R;
  theta_index_increment : R;
  threshold : R;
  (* angle cache *)
  sines : list R;
  cosines : list R;
  arctanes : list R;
  (* distance field *)
  height : Z;
  width : Z;
  resolution : R;
  origin : Pose2D.t;
  origin_c : R;
  origin_s : R;
  dt : list R;
  (* state of a scan *)
  flag_can_see_opponent : bool;
  can_see_opponent : bool;
  noise_generator : generator;
  scan_output : list R
}.

Definition set_flags (sim : ScanSimulator2D) (flag can_see : bool) : ScanSimulator2D :=
  mkSim (num_beams sim) (field_of_view sim) (scan_std_dev sim) (scan_max_range sim)
        (cube_width sim) (ray_tracing_epsilon sim) (theta_discretization sim)
        (angle_increment sim) (theta_index_increment sim) (threshold sim)
        (sines sim) (cosines sim) (arctanes sim)
        (height sim) (width sim) (resolution sim) (origin sim) (origin_c sim) (origin_s sim)
        (dt sim)
        flag can_see (noise_generator sim) (scan_output sim).

Definition set_noise_generator (sim : ScanSimulator2D) (g : generator) : ScanSimulator2D :=
  mkSim (num_beams sim) (field_of_view sim) (scan_std_dev sim) (scan_max_range sim)
        (cube_width sim) (ray_tracing_epsilon sim) (theta_discretization sim)
        (angle_increment sim) (theta_index_increment sim) (threshold sim)
        (sines sim) (cosines sim) (arctanes sim)
        (height sim) (width sim) (resolution sim) (origin sim) (origin_c sim) (origin_s sim)
        (dt sim)
        (flag_can_see_opponent sim) (can_see_opponent sim) g (scan_output sim).

Definition set_scan_output (sim : ScanSimulator2D) (out : list R) : ScanSimulator2D :=
  mkSim (num_beams sim) (field_of_view sim) (scan_std_dev sim) (scan_max_range sim)
        (cube_width sim) (ray_tracing_epsilon sim) (theta_discretization sim)
        (angle_increment sim) (theta_index_increment sim) (threshold sim)
        (sines sim) (cosines sim) (arctanes sim)
        (height sim) (width sim) (resolution sim) (origin sim) (origin_c sim) (origin_s sim)
        (dt sim)
        (flag_can_see_opponent sim) (can_see_opponent sim) (noise_generator sim) out.

(** ** The constructor: the angle cache (lines 11-77) *)

(** The guard of line 70. *)
Definition cotangent_guard (theta : R) : bool :=
  negb (Reqb theta 0) || negb (Reqb theta PI) || negb (Reqb theta (2 * PI)).

(** The angle of slot [i] (line 57). *)
Definition slot_theta (theta_discretization : Z) (i : Z) : R :=
  (2 * PI * IZR i) / IZR theta_discretization.

(** Slot [i] of [arctanes]; a slot the guard skips keeps the zero the
    vector was created with. *)
Definition arctan_slot (theta_discretization : Z) (i : Z) : R :=
  let theta := slot_theta theta_discretization i in
  if cotangent_guard theta then 1 / tan theta else 0.

(** The slots [0 .. theta_discretization] the loop of line 55 fills. *)
Definition slots (theta_discretization : Z) : list Z :=
  map Z.of_nat (seq 0 (Z.to_nat (theta_discretization + 1))).

(** The three tables hold the exact sine, cosine and cotangent of the exact
    angle: at the slots [theta_discretization / 2] and [theta_discretization]
    the sine is 0 here, where the code caches the sine of the doubles
    nearest to pi and to 2 pi (1.22e-16 and -2.45e-16). *)
Definition make_sines (theta_discretization : Z) : list R :=
  map (fun i => sin (slot_theta theta_discretization i)) (slots theta_discretization).

Definition make_cosines (theta_discretization : Z) : list R :=
  map (fun i => cos (slot_theta theta_discretization i)) (slots theta_discretization).

Definition make_arctanes (theta_discretization : Z) : list R :=
  map (arctan_slot theta_discretization) (slots theta_discretization).

(** The constructor.  The members it leaves uninitialised (the map and the
    two visibility flags) are taken from [uninit]; [seed] is the generator
    state obtained from [std::random_device]. *)
Definition ScanSimulator2D_new (uninit : ScanSimulator2D) (seed : generator)
    (num_beams_ : Z) (field_of_view_ scan_std_dev_ scan_max_range_ cube_width_
     ray_tracing_epsilon_ : R) (theta_discretization_ : Z) : ScanSimulator2D :=
  let angle_increment_ := field_of_view_ / IZR (num_beams_ - 1) in
  mkSim num_beams_ field_of_view_ scan_std_dev_ scan_max_range_ cube_width_
        ray_tracing_epsilon_ theta_discretization_
        angle_increment_
        (IZR theta_discretization_ * angle_increment_ / (2 * PI))
        5
        (make_sines theta_discretization_)
        (make_cosines theta_discretization_)
        (make_arctanes theta_discretization_)
        (height uninit) (width uninit) (resolution uninit) (origin uninit)
        (origin_c uninit) (origin_s uninit) (dt uninit)
        (flag_can_see_opponent uninit) (can_see_opponent uninit)
        seed
        (repeat 0 (Z.to_nat num_beams_)).

(** ** Map ingestion (lines 355-394) *)

(** Thresholding of one occupancy value (lines 385-389). *)
Definition threshold_cell (free_threshold : R) (v : R) : R :=
  if Rleb 0 v && Rleb v free_threshold then 99999 else 0.

(** Full replacement of the map.  [distance_2d] is
    [DistanceTransform::distance_2d], whose code is not in this file. *)
Definition set_map (distance_2d : list R -> Z -> Z -> R -> list R)
    (sim : ScanSimulator2D) (map_ : list R) (height_ width_ : Z)
    (resolution_ : R) (origin_ : Pose2D.t) (free_threshold : R) : ScanSimulator2D :=
  mkSim (num_beams sim) (field_of_view sim) (scan_std_dev sim) (scan_max_range sim)
        (cube_width sim) (ray_tracing_epsilon sim) (theta_discretization sim)
        (angle_increment sim) (theta_index_increment sim) (threshold sim)
        (sines sim) (cosines sim) (arctanes sim)
        height_ width_ resolution_ origin_
        (cos (Pose2D.theta origin_)) (sin (Pose2D.theta origin_))
        (distance_2d (map (threshold_cell free_threshold) map_) width_ height_ resolution_)
        (flag_can_see_opponent sim) (can_see_opponent sim) (noise_generator sim)
        (scan_output sim).

(** ** Coordinate transform and distance-field query (lines 305-349) *)

Definition x_rot (sim : ScanSimulator2D) (x y : R) : R :=
  let x_trans := x - Pose2D.x (origin sim) in
  let y_trans := y - Pose2D.y (origin sim) in
  x_trans * origin_c sim + y_trans * origin_s sim.

Definition y_rot (sim : ScanSimulator2D) (x y : R) : R :=
  let x_trans := x - Pose2D.x (origin sim) in
  let y_trans := y - Pose2D.y (origin sim) in
  - x_trans * origin_s sim + y_trans * origin_c sim.

(** The test of line 333. *)
Definition outside_map (sim : ScanSimulator2D) (x y : R) : bool :=
  Rltb (x_rot sim x y) 0 || Rleb (IZR (width sim) * resolution sim) (x_rot sim x y)
  || Rltb (y_rot sim x y) 0 || Rleb (IZR (height sim) * resolution sim) (y_rot sim x y).

(** Returns [(row, col)].  The products and quotients are exact here;
    [Double.xy_to_row_col] is the same code with the rounding of binary64. *)
Definition xy_to_row_col (sim : ScanSimulator2D) (x y : R) : Z * Z :=
  if outside_map sim x y then ((-1)%Z, (-1)%Z)
  else (Zfloor (y_rot sim x y / resolution sim), Zfloor (x_rot sim x y / resolution sim)).

(** [row * width + col] is computed in [size_t] and returned as an [int]. *)
Definition row_col_to_cell (sim : ScanSimulator2D) (row col : Z) : Z :=
  to_int (to_size_t (to_size_t (to_size_t row * width sim) + to_size_t col)).

Definition xy_to_cell (sim : ScanSimulator2D) (x y : R) : Z :=
  let '(row, col) := xy_to_row_col sim x y in
  row_col_to_cell sim row col.

Definition distance_transform (sim : ScanSimulator2D) (x y : R) : outcome R :=
  let cell := xy_to_cell sim x y in
  if (cell <? 0)%Z then Done 0 else lookup BadCellIndex (dt sim) cell.

(** ** The ray marcher (lines 142-183) *)

(** The correction loop of lines 171-178; it is entered with
    [distance_to_nearest == 0] and returns [(x, y, error)]. *)
Fixpoint back_off (fuel : nat) (sim : ScanSimulator2D) (c s x y error : R)
  : outcome (R * R * R) :=
  match fuel with
  | O => Fail OutOfFuel
  | S fuel' =>
      let error := error + 0.01 in
      let x := x - 0.01 * c in
      let y := y - 0.01 * s in
      d <- distance_transform sim x y ;;
      if Reqb d 0 then back_off fuel' sim c s x y error
      else Done (x, y, error)
  end.

(** The loop of lines 146-183; it returns [(x, y, total_distance)]. *)
Fixpoint march (fuel : nat) (sim : ScanSimulator2D)
    (c s x y distance_to_nearest total_distance : R) : outcome (R * R * R) :=
  if Reqb distance_to_nearest 0 then Done (x, y, total_distance)
  else
    match fuel with
    | O => Fail OutOfFuel
    | S fuel' =>
        let x := x + distance_to_nearest * c in
        let y := y + distance_to_nearest * s in
        d <- distance_transform sim x y ;;
        let total_distance := total_distance + d in
        if Reqb d 0 then
          '(x, y, error) <- back_off fuel' sim c s x y 0 ;;
          Done (x, y, total_distance - error)
        else march fuel' sim c s x y d total_distance
    end.

(** Lines 142-183 as a whole. *)
Definition ray_march (fuel : nat) (sim : ScanSimulator2D) (c s x y : R)
  : outcome (R * R * R) :=
  d <- distance_transform sim x y ;;
  march fuel sim c s x y d d.

(** ** The opponent car (lines 185-302) *)

Definition center_to_corner (sim : ScanSimulator2D) : R :=
  sqrt 2 * cube_width sim / 2.

(** The four corners, lines 195-205. *)
Definition x1 (sim : ScanSimulator2D) (oX otheta : R) : R :=
  center_to_corner sim * cos (PI / 4 + otheta) + oX.
Definition y1 (sim : ScanSimulator2D) (oY otheta : R) : R :=
  center_to_corner sim * sin (PI / 4 + otheta) + oY.
Definition x2 (sim : ScanSimulator2D) (oX otheta : R) : R :=
  center_to_corner sim * cos (3 * PI / 4 + otheta) + oX.
Definition y2 (sim : ScanSimulator2D) (oY otheta : R) : R :=
  center_to_corner sim * sin (3 * PI / 4 + otheta) + oY.
Definition x3 (sim : ScanSimulator2D) (oX otheta : R) : R :=
  center_to_corner sim * cos (5 * PI / 4 + otheta) + oX.
Definition y3 (sim : ScanSimulator2D) (oY otheta : R) : R :=
  center_to_corner sim * sin (5 * PI / 4 + otheta) + oY.
Definition x4 (sim : ScanSimulator2D) (oX otheta : R) : R :=
  center_to_corner sim * cos (7 * PI / 4 + otheta) + oX.
Definition y4 (sim : ScanSimulator2D) (oY otheta : R) : R :=
  center_to_corner sim * sin (7 * PI / 4 + otheta) + oY.

(** The rows [{ya, yb, xa, xb}] of [points], lines 207-210. *)
Definition points (sim : ScanSimulator2D) (oX oY otheta : R) : list (R * R * R * R) :=
  [ (y1 sim oY otheta, y2 sim oY otheta, x1 sim oX otheta, x2 sim oX otheta);
    (y2 sim oY otheta, y3 sim oY otheta, x2 sim oX otheta, x3 sim oX otheta);
    (y3 sim oY otheta, y4 sim oY otheta, x3 sim oX otheta, x4 sim oX otheta);
    (y4 sim oY otheta, y1 sim oY otheta, x4 sim oX otheta, x1 sim oX otheta) ].

(** The test of lines 216 and 256: the beam is along the x axis. *)
Definition axis_index (sim : ScanSimulator2D) (theta_index_ : Z) : bool :=
  (theta_index_ =? 0)%Z
  || (theta_index_ =? Z.quot (theta_discretization sim) 2)%Z
  || (theta_index_ =? theta_discretization sim)%Z.

(** The same-side test of lines 216-226: [true] when the beam is rejected. *)
Definition same_side (sim : ScanSimulator2D) (original_y : R) (theta_index_ : Z)
    (k b oX oY otheta : R) : bool :=
  let x1 := x1 sim oX otheta in let y1 := y1 sim oY otheta in
  let x2 := x2 sim oX otheta in let y2 := y2 sim oY otheta in
  let x3 := x3 sim oX otheta in let y3 := y3 sim oY otheta in
  let x4 := x4 sim oX otheta in let y4 := y4 sim oY otheta in
  if axis_index sim theta_index_ then
    (Rltb original_y y1 && Rltb original_y y2 && Rltb original_y y3 && Rltb original_y y4)
    || (Rltb y1 original_y && Rltb y2 original_y && Rltb y3 original_y && Rltb y4 original_y)
  else
    (Rltb x1 (k * y1 + b) && Rltb x2 (k * y2 + b) && Rltb x3 (k * y3 + b) && Rltb x4 (k * y4 + b))
    || (Rltb (k * y1 + b) x1 && Rltb (k * y2 + b) x2 && Rltb (k * y3 + b) x3 && Rltb (k * y4 + b) x4).

(** Line 238. *)
Definition this_to_opponent (original_x original_y oX oY : R) : R :=
  sqrt ((original_x - oX) ^ 2 + (original_y - oY) ^ 2).

(** Line 244. *)
Definition obstacle_to_opponent (x y oX oY : R) : R :=
  sqrt ((x - oX) ^ 2 + (y - oY) ^ 2).

(** The two ordering tests of lines 241 and 247. *)
Definition ordering (original_x original_y x y total_distance oX oY : R) : bool :=
  Rltb (this_to_opponent original_x original_y oX oY) total_distance
  && Rltb (obstacle_to_opponent x y oX oY) total_distance.

(** Lines 250-253. *)
Definition note_opponent (sim : ScanSimulator2D) (this_to_opponent : R) : ScanSimulator2D :=
  if flag_can_see_opponent sim && Rltb this_to_opponent (threshold sim)
  then set_flags sim false true
  else sim.

(** The intersection [(y, x)] of the beam [x = k y + b] with the line of an
    edge, lines 262-272. *)
Definition intersection_point (k b : R) (edge : R * R * R * R) : R * R :=
  let '(ya, yb, xa, xb) := edge in
  let iy := (yb * xa - yb * b + ya * b - ya * xb) / (k * yb - k * ya - xb + xa) in
  (iy, k * iy + b).

(** The filter of lines 284-292. *)
Definition within_edge (eps : R) (edge : R * R * R * R) (p : R * R) : bool :=
  let '(ya, yb, xa, xb) := edge in
  let '(iy, ix) := p in
  ((Rleb iy (ya + eps) && Rleb (yb - eps) iy) || (Rleb (ya - eps) iy && Rleb iy (yb + eps)))
  && ((Rleb ix (xa + eps) && Rleb (xb - eps) ix) || (Rleb (xa - eps) ix && Rleb ix (xb + eps))).

(** One turn of the loop of lines 279-298. *)
Definition closer_edge (sim : ScanSimulator2D) (original_x original_y k b : R)
    (scan_to_square : R) (edge : R * R * R * R) : R :=
  let p := intersection_point k b edge in
  if within_edge (ray_tracing_epsilon sim) edge p
  then std_min scan_to_square
               (sqrt ((original_x - snd p) ^ 2 + (original_y - fst p) ^ 2))
  else scan_to_square.

(** Lines 278-299. *)
Definition scan_to_square (sim : ScanSimulator2D) (original_x original_y k b oX oY otheta : R) : R :=
  fold_left (closer_edge sim original_x original_y k b)
            (points sim oX oY otheta) (scan_max_range sim).

(** Lines 185-302: the range of the beam and the simulator with its
    visibility flags updated, from the end point and the length of the
    march. *)
Definition opponent_collision (sim : ScanSimulator2D) (original_x original_y : R)
    (theta_index_ : Z) (k x y total_distance oX oY otheta : R) : R * ScanSimulator2D :=
  let b := x - k * y in
  if same_side sim original_y theta_index_ k b oX oY otheta then
    (std_min total_distance (scan_max_range sim), sim)
  else if Rltb (this_to_opponent original_x original_y oX oY) total_distance then
    if Rltb (obstacle_to_opponent x y oX oY) total_distance then
      let sim' := note_opponent sim (this_to_opponent original_x original_y oX oY) in
      if axis_index sim theta_index_ then
        (std_min (this_to_opponent original_x original_y oX oY - cube_width sim / 2)
                 (scan_max_range sim), sim')
      else
        (scan_to_square sim original_x original_y k b oX oY otheta, sim')
    else (std_min total_distance (scan_max_range sim), sim)
  else (std_min total_distance (scan_max_range sim), sim).

(** Line 130. *)
Definition round_index (theta_index : R) : Z := Rtrunc (theta_index + 0.5).

Definition trace_ray (fuel : nat) (sim : ScanSimulator2D)
    (x y theta_index oX oY otheta : R) : outcome (R * ScanSimulator2D) :=
  let theta_index_ := round_index theta_index in
  s <- lookup BadTableIndex (sines sim) theta_index_ ;;
  c <- lookup BadTableIndex (cosines sim) theta_index_ ;;
  k <- lookup BadTableIndex (arctanes sim) theta_index_ ;;
  '(xe, ye, total_distance) <- ray_march fuel sim c s x y ;;
  Done (opponent_collision sim x y theta_index_ k xe ye total_distance oX oY otheta).

(** ** The scan (lines 79-124) *)

(** Lines 98-104. *)
Definition start_index (sim : ScanSimulator2D) (pose : Pose2D.t) : R :=
  let theta_index :=
    IZR (theta_discretization sim) * (Pose2D.theta pose - field_of_view sim / 2) / (2 * PI) in
  let theta_index := fmod theta_index (IZR (theta_discretization sim)) in
  if Rltb theta_index 0 then theta_index + IZR (theta_discretization sim) else theta_index.

(** The loop of lines 121-122. *)
Fixpoint wrap_index (fuel : nat) (theta_discretization theta_index : R) : outcome R :=
  if Rleb theta_discretization theta_index then
    match fuel with
    | O => Fail OutOfFuel
    | S fuel' => wrap_index fuel' theta_discretization (theta_index - theta_discretization)
    end
  else Done theta_index.

(** Lines 117-122. *)
Definition next_index (fuel : nat) (sim : ScanSimulator2D) (theta_index : R) : outcome R :=
  wrap_index fuel (IZR (theta_discretization sim)) (theta_index + theta_index_increment sim).

(** Lines 113-114. *)
Definition add_noise (sim : ScanSimulator2D) (r : R) : R * ScanSimulator2D :=
  if Rltb 0 (scan_std_dev sim) then
    let '(v, g) := noise_dist (noise_generator sim) in
    (r + v, set_noise_generator sim g)
  else (r, sim).

(** [n] turns of the loop of lines 108-123: the values written to
    [scan_data] and the simulator afterwards. *)
Fixpoint scan_loop (fuel : nat) (n : nat) (sim : ScanSimulator2D)
    (pose opponent_pose : Pose2D.t) (theta_index : R)
  : outcome (list R * ScanSimulator2D) :=
  match n with
  | O => Done ([], sim)
  | S n' =>
      '(r, sim) <- trace_ray fuel sim (Pose2D.x pose) (Pose2D.y pose) theta_index
                     (Pose2D.x opponent_pose) (Pose2D.y opponent_pose)
                     (Pose2D.theta opponent_pose) ;;
      let '(r, sim) := add_noise sim r in
      theta_index <- next_index fuel sim theta_index ;;
      '(rest, sim) <- scan_loop fuel n' sim pose opponent_pose theta_index ;;
      Done (r :: rest, sim)
  end.

(** [scan (pose, opponent_pose, scan_data)], lines 91-124. *)
Definition scan_data (fuel : nat) (sim : ScanSimulator2D) (pose opponent_pose : Pose2D.t)
  : outcome (list R * ScanSimulator2D) :=
  scan_loop fuel (Z.to_nat (num_beams sim)) sim pose opponent_pose (start_index sim pose).

(** [scan (pose, opponent_pose, flag)], lines 79-89. *)
Definition scan (fuel : nat) (sim : ScanSimulator2D) (pose opponent_pose : Pose2D.t)
    (flag : bool) : outcome (list R * ScanSimulator2D) :=
  let sim := set_flags sim flag false in
  '(out, sim) <- scan_data fuel sim pose opponent_pose ;;
  Done (out, set_scan_output sim out).

(** Lines 351-353. *)
Definition see_opponent (sim : ScanSimulator2D) : bool := can_see_opponent sim.

(** ** Invariants of a simulator *)

(** The members the constructor computes, as it leaves them. *)
Definition constructed (sim : ScanSimulator2D) : Prop :=
  angle_increment sim = field_of_view sim / IZR (num_beams sim - 1)
  /\ theta_index_increment sim
     = IZR (theta_discretization sim) * angle_increment sim / (2 * PI)
  /\ threshold sim = 5
  /\ sines sim = make_sines (theta_discretization sim)
  /\ cosines sim = make_cosines (theta_discretization sim)
  /\ arctanes sim = make_arctanes (theta_discretization sim).

(** The configuration the constructor expects: at least two beams, a field
    of view that is not negative, at least two slots in a full turn. *)
Definition valid_configuration (sim : ScanSimulator2D) : Prop :=
  (2 <= num_beams sim)%Z /\ 0 <= field_of_view sim /\ (2 <= theta_discretization sim)%Z.

(** The number of cells and the sentinel [(-1) * width + (-1)] fit in an
    [int]. *)
Definition sizes_fit (sim : ScanSimulator2D) : Prop :=
  (0 <= width sim)%Z /\ (0 <= height sim)%Z
  /\ (width sim * height sim < 2 ^ 31)%Z
  /\ (width sim < 2 ^ 31)%Z.

(** Moreover the distance field has one entry per cell. *)
Definition map_fits (sim : ScanSimulator2D) : Prop :=
  sizes_fit sim /\ Z.of_nat (length (dt sim)) = (width sim * height sim)%Z.

(** [same_setup a b]: [b] is [a] up to the members a scan writes (the two
    visibility flags, the generator and the output buffer). *)
Definition same_setup (a b : ScanSimulator2D) : Prop :=
  exists flag can_see g out,
    b = mkSim (num_beams a) (field_of_view a) (scan_std_dev a) (scan_max_range a)
          (cube_width a) (ray_tracing_epsilon a) (theta_discretization a)
          (angle_increment a) (theta_index_increment a) (threshold a)
          (sines a) (cosines a) (arctanes a)
          (height a) (width a) (resolution a) (origin a) (origin_c a) (origin_s a)
          (dt a) flag can_see g out.

(** Two outcomes of a scan agree on what was measured. *)
Definition same_ranges {A : Type} (a : ScanSimulator2D)
    (o1 o2 : outcome (A * ScanSimulator2D)) : Prop :=
  match o1, o2 with
  | Done (r1, s1), Done (r2, s2) => r1 = r2 /\ same_setup a s1 /\ same_setup a s2
  | Fail e1, Fail e2 => e1 = e2
  | _, _ => False
  end.

(** The table index of beam [i] of a scan that starts at [theta_index]:
    [i] turns of lines 117-122. *)
Fixpoint beam_index (fuel : nat) (sim : ScanSimulator2D) (theta_index : R) (i : nat)
  : outcome R :=
  match i with
  | O => Done theta_index
  | S i' =>
      theta_index <- next_index fuel sim theta_index ;;
      beam_index fuel sim theta_index i'
  end.

(** The beam at [theta_index] passes the intersection test of lines
    216-226 and the ordering tests of lines 241 and 247. *)
Definition beam_sees (fuel : nat) (sim : ScanSimulator2D)
    (x y theta_index oX oY otheta : R) : bool :=
  match lookup BadTableIndex (sines sim) (round_index theta_index),
        lookup BadTableIndex (cosines sim) (round_index theta_index),
        lookup BadTableIndex (arctanes sim) (round_index theta_index) with
  | Done s, Done c, Done k =>
      match ray_march fuel sim c s x y with
      | Done (xe, ye, total_distance) =>
          negb (same_side sim y (round_index theta_index) k (xe - k * ye) oX oY otheta)
          && ordering x y xe ye total_distance oX oY
      | Fail _ => false
      end
  | _, _, _ => false
  end.

(** The point the marcher stands on after [n] forward steps from [(x, y)]
    and the distance queried there. *)
Fixpoint forward (n : nat) (sim : ScanSimulator2D) (c s x y : R) : outcome (R * R * R) :=
  d <- distance_transform sim x y ;;
  match n with
  | O => Done (x, y, d)
  | S n' => forward n' sim c s (x + d * c) (y + d * s)
  end.

(** Along the ray from [(x, y)] the distance-field query eventually
    returns 0. *)
Definition eventually_zero (sim : ScanSimulator2D) (c s x y : R) : Prop :=
  exists n xe ye, forward n sim c s x y = Done (xe, ye, 0).

(** The point [j] back-off steps behind [(x, y)]. *)
Definition behind (j : nat) (c s x y : R) : R * R :=
  (x - INR j * 0.01 * c, y - INR j * 0.01 * s).

(** Some back-off step behind [(x, y)] meets a distance that is not 0. *)
Definition back_off_meets (sim : ScanSimulator2D) (c s x y : R) : Prop :=
  exists k d,
    distance_transform sim (fst (behind (S k) c s x y)) (snd (behind (S k) c s x y)) = Done d
    /\ d <> 0.

(** ** The coordinate transform, in the words of the specification

    Translate by the grid origin's position, rotate by the negative of the
    origin's heading; outside [[0, width * resolution)] or
    [[0, height * resolution)] the point is invalid ([None]); otherwise the
    column is [floor (x_rot / resolution)], the row is
    [floor (y_rot / resolution)] and the cell is [row * width + col]. *)
Definition spec_transform (sim : ScanSimulator2D) (x y : R) : option (Z * Z * Z) :=
  let angle := - Pose2D.theta (origin sim) in
  let x_trans := x - Pose2D.x (origin sim) in
  let y_trans := y - Pose2D.y (origin sim) in
  let xr := x_trans * cos angle - y_trans * sin angle in
  let yr := x_trans * sin angle + y_trans * cos angle in
  if Rleb 0 xr && Rltb xr (IZR (width sim) * resolution sim)
     && Rleb 0 yr && Rltb yr (IZR (height sim) * resolution sim)
  then
    let col := Zfloor (xr / resolution sim) in
    let row := Zfloor (yr / resolution sim) in
    Some (row, col, (row * width sim + col)%Z)
  else None.

(** ** A corridor of three cells

    One row of three square cells of side [r]: a free cell between two
    occupied ones, two beams half a turn apart, four slots in a full turn. *)

(** The members of a simulator before its construction. *)
Definition blank : ScanSimulator2D :=
  mkSim 0 0 0 0 0 0 0 0 0 0 [] [] [] 0 0 0 (Pose2D.mk 0 0 0) 0 0 []
        false false (mkGen (fun _ => 0) 0) [].

(** Modelled from the spec: [DistanceTransform::distance_2d], which
    replaces every cell by the distance in world units to the nearest
    occupied cell, on a map whose free cells all touch an occupied cell: a
    free cell is one cell away from the nearest obstacle. *)
Definition adjacent_distance_2d (dt : list R) (w h : Z) (r : R) : list R :=
  map (fun v => if Reqb v 0 then 0 else r) dt.

(** The corridor: constructed with 2 beams, a field of view of [PI], no
    noise, a maximum range of 10, an opponent 2/5 wide, no tolerance and 4
    slots; its map set from the occupancies [1; 0; 1] with a free
    threshold of 1/2, one row, three columns, resolution [r] and the
    origin at [(0, 0)] with heading 0. *)
Definition corridor (r : R) : ScanSimulator2D :=
  set_map adjacent_distance_2d
          (ScanSimulator2D_new blank (mkGen (fun n => INR n) 0) 2 PI 0 10 (2 / 5) 0 4)
          [1; 0; 1] 1 3 r (Pose2D.mk 0 0 0) (1 / 2).

(** The sensor near the middle of the free cell of the corridor of unit
    cells, facing [+y], so that its two beams run along [+x] and [-x]; and
    an opponent at the sensor's height, heading along [+x]. *)
Definition sensor : Pose2D.t := Pose2D.mk (301 / 200) (1 / 2) (PI / 2).

Definition opponent_at (oX : R) : Pose2D.t := Pose2D.mk oX (1 / 2) 0.

(** The simulator after a scan of the corridor that asked for the visibility
    result and saw an opponent at [(9/5, 1/2)]. *)
Definition after_sighting : ScanSimulator2D :=
  set_scan_output (set_flags (corridor 1) false true) [9 / 5 - 341 / 200; 1 / 2].


(** * The coordinate transform and the start index in binary64

    The lines of the source whose outcome depends on rounding, over IEEE 754
    binary64 numbers: every operation is rounded to the nearest double, ties
    to even, one operation at a time (no fused multiply-add, no extended
    precision), as the code compiled for x86-64 computes.  Only the members
    these lines read are kept. *)
Module Double.
Import PrimFloat SpecFloat FloatOps.
#[local] Open Scope float_scope.

(** Conversion of an [int] or a [size_t] to [double]. *)
Definition of_Z (z : Z) : float := SF2Prim (binary_normalize prec emax z 0 false).

(** [std::floor] followed by the conversion to [int], on a finite double.
    The conversion of an infinity or a NaN is undefined in the source; the
    model gives 0. *)
Definition floor (f : float) : Z :=
  match Prim2SF f with
  | S754_finite false m e => Z.shiftl (Zpos m) e
  | S754_finite true m e =>
      let q := Z.shiftl (Zpos m) e in
      if (Z.shiftl q (- e) =? Zpos m)%Z then (- q)%Z else (- q - 1)%Z
  | _ => 0%Z
  end.

(** The floor of the exact quotient of two positive doubles: what
    [std::floor (a / b)] would be were the division not rounded. *)
Definition exact_floor_quotient (a b : float) : option Z :=
  match Prim2SF a, Prim2SF b with
  | S754_finite false ma ea, S754_finite false mb eb =>
      let e := Z.min ea eb in
      Some (Z.shiftl (Zpos ma) (ea - e) / Z.shiftl (Zpos mb) (eb - e))%Z
  | _, _ => None
  end.

(** [M_PI] of math.h: 3.141592653589793115997963... *)
Definition M_PI : float := 0x1.921fb54442d18p+1.

(** [std::fmod]: the remainder of the division truncated toward zero, with
    the sign of the first argument.  It is a double, so nothing is
    rounded. *)
Definition fmod (a b : float) : float :=
  match Prim2SF a, Prim2SF b with
  | S754_nan, _ | _, S754_nan | S754_infinity _, _ | _, S754_zero _ => nan
  | S754_zero _, _ | S754_finite _ _ _, S754_infinity _ => a
  | S754_finite sa ma ea, S754_finite _ mb eb =>
      let e := Z.min ea eb in
      let r := Z.rem (Z.shiftl (Zpos ma) (ea - e)) (Z.shiftl (Zpos mb) (eb - e)) in
      SF2Prim (binary_normalize prec emax (if sa then - r else r)%Z e sa)
  end.

Module Pose2D.
Record t : Type := mk { x : float; y : float; theta : float }.
End Pose2D.

(** The members that lines 98-104 and 305-349 read. *)
Record ScanSimulator2D : Type := mkSim {
  field_of_view : float;
  theta_discretization : Z;
  height : Z;
  width : Z;
  resolution : float;
  origin : Pose2D.t;
  origin_c : float;
  origin_s : float;
  dt : list float
}.

(** Lines 320-330. *)
Definition x_rot (sim : ScanSimulator2D) (x y : float) : float :=
  let x_trans := x - Pose2D.x (origin sim) in
  let y_trans := y - Pose2D.y (origin sim) in
  x_trans * origin_c sim + y_trans * origin_s sim.

Definition y_rot (sim : ScanSimulator2D) (x y : float) : float :=
  let x_trans := x - Pose2D.x (origin sim) in
  let y_trans := y - Pose2D.y (origin sim) in
  - x_trans * origin_s sim + y_trans * origin_c sim.

(** The test of line 333; [width] and [height] are converted to [double]
    before the product, which is rounded. *)
Definition outside_map (sim : ScanSimulator2D) (x y : float) : bool :=
  (x_rot sim x y <? 0) || (of_Z (width sim) * resolution sim <=? x_rot sim x y)
  || (y_rot sim x y <? 0) || (of_Z (height sim) * resolution sim <=? y_rot sim x y).

(** Returns [(row, col)]; the quotients of lines 341-342 are rounded before
    [std::floor] sees them. *)
Definition xy_to_row_col (sim : ScanSimulator2D) (x y : float) : Z * Z :=
  if outside_map sim x y then ((-1)%Z, (-1)%Z)
  else (floor (y_rot sim x y / resolution sim), floor (x_rot sim x y / resolution sim)).

Definition row_col_to_cell (sim : ScanSimulator2D) (row col : Z) : Z :=
  to_int (to_size_t (to_size_t (to_size_t row * width sim) + to_size_t col)).

Definition xy_to_cell (sim : ScanSimulator2D) (x y : float) : Z :=
  let '(row, col) := xy_to_row_col sim x y in
  row_col_to_cell sim row col.

(** [std::vector::operator[]] on the distance field. *)
Definition lookup (e : error) (l : list float) (i : Z) : outcome float :=
  if (i <? 0)%Z then Fail e
  else match nth_error l (Z.to_nat i) with
       | Some v => Done v
       | None => Fail e
       end.

(** Lines 305-310. *)
Definition distance_transform (sim : ScanSimulator2D) (x y : float) : outcome float :=
  let cell := xy_to_cell sim x y in
  if (cell <? 0)%Z then Done 0 else lookup BadCellIndex (dt sim) cell.

(** Lines 98-104. *)
Definition start_index (sim : ScanSimulator2D) (pose : Pose2D.t) : float :=
  let theta_index :=
    of_Z (theta_discretization sim) * (Pose2D.theta pose - field_of_view sim / 2)
    / (2 * M_PI) in
  let theta_index := fmod theta_index (of_Z (theta_discretization sim)) in
  if theta_index <? 0 then theta_index + of_Z (theta_discretization sim) else theta_index.

(** ** A strip of 17 cells *)

(** A map 17 cells wide of cells 0.05 wide (the double
    0.05000000000000000277...), [rows] high, with its origin at [(0, 0)]
    and heading 0, so that [origin_c] is 1 and [origin_s] is 0; a field of
    view of 1 radian and 2000 slots.  The distance field holds the number
    of the row, counted from 1, in every cell of the row. *)
Definition strip (rows : Z) : ScanSimulator2D :=
  mkSim 1 2000 rows 17 0x1.999999999999ap-5 (Pose2D.mk 0 0 0) 1 0
        (flat_map (fun r => repeat (of_Z (Z.of_nat r)) 17) (seq 1 (Z.to_nat rows))).

(** The doubles 0.85 (0.84999999999999997779...) and 0.025. *)
Definition border_x : float := 0x1.b333333333333p-1.
Definition border_y : float := 0x1.999999999999ap-6.

(** A heading one step of the last place below half the field of view:
    0.49999999999999994. *)
Definition below_half_view : Pose2D.t := Pose2D.mk border_x border_y 0x1.fffffffffffffp-2.

End Double.
(** ** Map ingestion over an established grid (lines 355-364) *)

Definition set_dt (sim : ScanSimulator2D) (dt_ : list R) : ScanSimulator2D :=
  mkSim (num_beams sim) (field_of_view sim) (scan_std_dev sim) (scan_max_range sim)
        (cube_width sim) (ray_tracing_epsilon sim) (theta_discretization sim)
        (angle_increment sim) (theta_index_increment sim) (threshold sim)
        (sines sim) (cosines sim) (arctanes sim)
        (height sim) (width sim) (resolution sim) (origin sim) (origin_c sim) (origin_s sim)
        dt_
        (flag_can_see_opponent sim) (can_see_opponent sim) (noise_generator sim)
        (scan_output sim).

(** The loop of lines 356-362: [dt[i]] is overwritten for every [i] below
    [map.size ()]; writing past the end of [dt] is out of range. *)
Fixpoint threshold_into (free_threshold : R) (map_ dt_ : list R) : outcome (list R) :=
  match map_, dt_ with
  | [], _ => Done dt_
  | v :: map', _ :: dt' =>
      rest <- threshold_into free_threshold map' dt' ;;
      Done (threshold_cell free_threshold v :: rest)
  | _ :: _, [] => Fail BadCellIndex
  end.

(** [set_map (map, free_threshold)]: the map is thresholded into the
    distance field in place and transformed, the geometry is kept. *)
Definition set_map_values (distance_2d : list R -> Z -> Z -> R -> list R)
    (sim : ScanSimulator2D) (map_ : list R) (free_threshold : R) : outcome ScanSimulator2D :=
  dt_ <- threshold_into free_threshold map_ (dt sim) ;;
  Done (set_dt sim (distance_2d dt_ (width sim) (height sim) (resolution sim))).


(** ** Noise (lines 21-24 and 111-112) *)

(** The simulator [sim], had it been constructed with [scan_std_dev_] for
    the standard deviation of the noise and were its generator in state
    [g]: the constructor uses the standard deviation for nothing but the
    member and the noise distribution. *)
Definition with_noise (sim : ScanSimulator2D) (scan_std_dev_ : R) (g : generator)
  : ScanSimulator2D :=
  mkSim (num_beams sim) (field_of_view sim) scan_std_dev_ (scan_max_range sim)
        (cube_width sim) (ray_tracing_epsilon sim) (theta_discretization sim)
        (angle_increment sim) (theta_index_increment sim) (threshold sim)
        (sines sim) (cosines sim) (arctanes sim)
        (height sim) (width sim) (resolution sim) (origin sim) (origin_c sim) (origin_s sim)
        (dt sim)
        (flag_can_see_opponent sim) (can_see_opponent sim) g (scan_output sim).

(** One draw of [noise_dist] added to each reading, in order. *)
Fixpoint add_samples (g : generator) (ranges : list R) : list R :=
  match ranges with
  | [] => []
  | r :: rest => let '(v, g') := noise_dist g in (r + v) :: add_samples g' rest
  end.

(** The generator after [n] draws. *)
Fixpoint draws (n : nat) (g : generator) : generator :=
  match n with
  | O => g
  | S n' => draws n' (snd (noise_dist g))
  end.

(** ** The visibility flags across calls *)

(** The simulator after the first [k] beams of the loop of lines 108-123. *)
Definition after_beams (fuel k : nat) (sim : ScanSimulator2D) (pose opponent_pose : Pose2D.t)
    (theta_index : R) : outcome ScanSimulator2D :=
  '(_, sim') <- scan_loop fuel k sim pose opponent_pose theta_index ;; Done sim'.

(** The simulators that calls leave: the request flag is written by the
    entry point that takes it and by no other code, and the constructor
    leaves both flags unset, so the first call of interest is one to that
    entry point; scans through either entry point and ingestions of a map
    may follow. *)
Inductive left_by_calls : ScanSimulator2D -> Prop :=
| left_by_scan (fuel : nat) (sim sim' : ScanSimulator2D) (pose opponent_pose : Pose2D.t)
    (flag : bool) (out : list R) :
    scan fuel sim pose opponent_pose flag = Done (out, sim') -> left_by_calls sim'
| left_by_scan_data (fuel : nat) (sim sim' : ScanSimulator2D) (pose opponent_pose : Pose2D.t)
    (out : list R) :
    left_by_calls sim ->
    scan_data fuel sim pose opponent_pose = Done (out, sim') -> left_by_calls sim'
| left_by_set_map (distance_2d : list R -> Z -> Z -> R -> list R) (sim : ScanSimulator2D)
    (map_ : list R) (height_ width_ : Z) (resolution_ : R) (origin_ : Pose2D.t)
    (free_threshold : R) :
    left_by_calls sim ->
    left_by_calls (set_map distance_2d sim map_ height_ width_ resolution_ origin_
                     free_threshold)
| left_by_set_map_values (distance_2d : list R -> Z -> Z -> R -> list R)
    (sim sim' : ScanSimulator2D) (map_ : list R) (free_threshold : R) :
    left_by_calls sim ->
    set_map_values distance_2d sim map_ free_threshold = Done sim' -> left_by_calls sim'.

(** The simulator after a scan of the corridor that asked for the visibility
    result and did not see the opponent, which was at [(3, 1/2)]. *)
Definition after_miss : ScanSimulator2D :=
  set_scan_output (set_flags (corridor 1) true false) [49 / 100; 1 / 2].

(** ** A field of view that is negative *)

(** The corridor of unit cells, constructed with a field of view of
    [- 2 PI]: 2 beams, no noise, 4 slots. *)
Definition backward_sweep : ScanSimulator2D :=
  set_map adjacent_distance_2d
          (ScanSimulator2D_new blank (mkGen (fun n => INR n) 0) 2 (- (2 * PI)) 0 10 (2 / 5) 0 4)
          [1; 0; 1] 1 3 1 (Pose2D.mk 0 0 0) (1 / 2).
(** * Properties *)

(** ** Comparisons, minimum, truncation *)

Lemma Rltb_true_iff (a b : R) : Rltb a b = true <-> a < b.
Proof. unfold Rltb; destruct (Rlt_dec a b); split; intros; try easy. Qed.

Lemma Rltb_false_iff (a b : R) : Rltb a b = false <-> b <= a.
Proof.
  unfold Rltb; destruct (Rlt_dec a b); split; intros; try easy; lra.
Qed.

Lemma Rleb_true_iff (a b : R) : Rleb a b = true <-> a <= b.
Proof. unfold Rleb; destruct (Rle_dec a b); split; intros; try easy. Qed.

Lemma Rleb_false_iff (a b : R) : Rleb a b = false <-> b < a.
Proof.
  unfold Rleb; destruct (Rle_dec a b); split; intros; try easy; lra.
Qed.

Lemma Reqb_true_iff (a b : R) : Reqb a b = true <-> a = b.
Proof. unfold Reqb; destruct (Req_dec_T a b); split; intros; try easy. Qed.

Lemma Reqb_false_iff (a b : R) : Reqb a b = false <-> a <> b.
Proof. unfold Reqb; destruct (Req_dec_T a b); split; intros; try easy. Qed.

Lemma Rltb_true (a b : R) : a < b -> Rltb a b = true.
Proof. apply Rltb_true_iff. Qed.

Lemma Rltb_false (a b : R) : b <= a -> Rltb a b = false.
Proof. apply Rltb_false_iff. Qed.

Lemma Rleb_true (a b : R) : a <= b -> Rleb a b = true.
Proof. apply Rleb_true_iff. Qed.

Lemma Rleb_false (a b : R) : b < a -> Rleb a b = false.
Proof. apply Rleb_false_iff. Qed.

Lemma Reqb_refl (a : R) : Reqb a a = true.
Proof. now apply Reqb_true_iff. Qed.

Lemma Reqb_false (a b : R) : a <> b -> Reqb a b = false.
Proof. apply Reqb_false_iff. Qed.

Lemma std_min_Rmin (a b : R) : std_min a b = Rmin a b.
Proof.
  unfold std_min, Rmin, Rltb.
  destruct (Rlt_dec b a), (Rle_dec a b); try reflexivity; lra.
Qed.

Lemma std_min_le_r (a b : R) : std_min a b <= b.
Proof. rewrite std_min_Rmin; apply Rmin_r. Qed.

Lemma std_min_le_l (a b : R) : std_min a b <= a.
Proof. rewrite std_min_Rmin; apply Rmin_l. Qed.

Lemma std_min_glb (a b c : R) : c <= a -> c <= b -> c <= std_min a b.
Proof. intros; rewrite std_min_Rmin; now apply Rmin_glb. Qed.

Lemma Rtrunc_nonneg (r : R) : 0 <= r -> Rtrunc r = Zfloor r.
Proof. intros H; unfold Rtrunc; destruct (Rle_dec 0 r); [reflexivity | contradiction]. Qed.

Lemma Rtrunc_eq (z : Z) (r : R) : 0 <= r -> IZR z <= r < IZR z + 1 -> Rtrunc r = z.
Proof. intros H0 H; rewrite Rtrunc_nonneg by assumption; now apply Zfloor_eq. Qed.

Lemma Rtrunc_neg (r : R) : r < 0 -> Rtrunc r = Zceil r.
Proof. intros H; unfold Rtrunc; destruct (Rle_dec 0 r); [lra | reflexivity]. Qed.

(** The quotient is truncated toward zero, so the remainder lies strictly
    between [- b] and [b]. *)
Lemma fmod_bounds (a b : R) : 0 < b -> - b < fmod a b < b.
Proof.
  intros Hb; unfold fmod.
  assert (Hq : a = a / b * b) by (field; lra).
  destruct (Rle_dec 0 (a / b)) as [Hs | Hs].
  - rewrite Rtrunc_nonneg by assumption.
    destruct (Zfloor_bound (a / b)) as [H1 H2].
    assert (0 <= (a / b - IZR (Zfloor (a / b))) * b) by (apply Rmult_le_pos; lra).
    assert ((a / b - IZR (Zfloor (a / b))) * b < 1 * b) by (apply Rmult_lt_compat_r; lra).
    lra.
  - rewrite Rtrunc_neg by lra.
    destruct (Zceil_bound (a / b)) as [H1 H2].
    assert (0 <= (IZR (Zceil (a / b)) - a / b) * b) by (apply Rmult_le_pos; lra).
    assert ((IZR (Zceil (a / b)) - a / b) * b < 1 * b) by (apply Rmult_lt_compat_r; lra).
    lra.
Qed.

(** ** Outcomes *)

Lemma bind_Done {A B : Type} (m : outcome A) (k : A -> outcome B) (b : B) :
  bind m k = Done b -> exists a, m = Done a /\ k a = Done b.
Proof. destruct m as [a | e]; simpl; [eauto | discriminate]. Qed.

Lemma bind_Fail {A B : Type} (m : outcome A) (k : A -> outcome B) (e : error) :
  bind m k = Fail e -> m = Fail e \/ exists a, m = Done a /\ k a = Fail e.
Proof. destruct m as [a | e']; simpl; [eauto | intros [= ->]; now left]. Qed.

Lemma lookup_Done (e : error) (l : list R) (i : Z) :
  (0 <= i < Z.of_nat (length l))%Z -> lookup e l i = Done (nth (Z.to_nat i) l 0).
Proof.
  intros [H0 H1]; unfold lookup.
  destruct (Z.ltb_spec i 0); [lia |].
  destruct (nth_error l (Z.to_nat i)) eqn:E.
  - f_equal. symmetry. now apply nth_error_nth.
  - apply nth_error_None in E. lia.
Qed.

Lemma lookup_Fail (e e' : error) (l : list R) (i : Z) :
  lookup e l i = Fail e' -> e' = e /\ ~ (0 <= i < Z.of_nat (length l))%Z.
Proof.
  unfold lookup. destruct (Z.ltb_spec i 0).
  - intros [= <-]; split; [reflexivity | lia].
  - destruct (nth_error l (Z.to_nat i)) eqn:E; [discriminate |].
    intros [= <-]; split; [reflexivity |].
    apply nth_error_None in E. lia.
Qed.

Ltac inv_bind H :=
  let a := fresh "a" in
  let Ha := fresh "Ha" in
  apply bind_Done in H; destruct H as (a & Ha & H).

(** ** The angle cache *)

Lemma cotangent_guard_true (theta : R) : cotangent_guard theta = true.
Proof.
  unfold cotangent_guard.
  destruct (Req_dec_T theta 0) as [-> | Hn].
  - rewrite (Reqb_false 0 PI); [now rewrite orb_true_r | ].
    pose proof PI_RGT_0; lra.
  - now rewrite (Reqb_false theta 0).
Qed.

Lemma slots_length (n : Z) : length (slots n) = Z.to_nat (n + 1).
Proof. unfold slots. now rewrite length_map, length_seq. Qed.

Lemma slots_nth (n i : Z) :
  (0 <= i <= n)%Z -> nth_error (slots n) (Z.to_nat i) = Some i.
Proof.
  intros H. unfold slots.
  rewrite nth_error_map, nth_error_seq.
  destruct (Nat.ltb_spec (Z.to_nat i) (Z.to_nat (n + 1))); [| lia].
  simpl. f_equal. lia.
Qed.

Lemma make_table_lookup (f : Z -> R) (n i : Z) (e : error) :
  (0 <= i <= n)%Z -> lookup e (map f (slots n)) i = Done (f i).
Proof.
  intros H. unfold lookup.
  destruct (Z.ltb_spec i 0); [lia |].
  now rewrite nth_error_map, slots_nth.
Qed.

Lemma one_over_tan (theta : R) : 1 / tan theta = cos theta / sin theta.
Proof.
  unfold tan, Rdiv. rewrite Rinv_mult, Rinv_inv. ring.
Qed.

(** ** Coordinate transform and distance-field query *)

Lemma to_size_t_idem_mul (a w : Z) : to_size_t (to_size_t a * w) = to_size_t (a * w).
Proof. unfold to_size_t. now rewrite Z.mul_mod_idemp_l by lia. Qed.

Lemma to_size_t_idem_add (a b : Z) : to_size_t (to_size_t a + to_size_t b) = to_size_t (a + b).
Proof. unfold to_size_t. now rewrite <- Z.add_mod by lia. Qed.

Lemma to_int_to_size_t (z : Z) : to_int (to_size_t z) = to_int z.
Proof.
  unfold to_int, to_size_t. f_equal.
  rewrite (Z.mod_eq z (2 ^ 64)) by lia.
  replace (z - 2 ^ 64 * (z / 2 ^ 64) + 2 ^ 31)%Z
    with (z + 2 ^ 31 + (- (z / 2 ^ 64) * 2 ^ 32) * 2 ^ 32)%Z by lia.
  apply Z_mod_plus_full.
Qed.

Lemma to_int_small (z : Z) : (- 2 ^ 31 <= z < 2 ^ 31)%Z -> to_int z = z.
Proof. intros H. unfold to_int. rewrite Z.mod_small; lia. Qed.

Lemma row_col_to_cell_exact (sim : ScanSimulator2D) (row col : Z) :
  (- 2 ^ 31 <= row * width sim + col < 2 ^ 31)%Z ->
  row_col_to_cell sim row col = (row * width sim + col)%Z.
Proof.
  intros H. unfold row_col_to_cell.
  rewrite to_size_t_idem_mul, to_size_t_idem_add.
  rewrite to_int_to_size_t. now apply to_int_small.
Qed.

Lemma xy_to_row_col_outside (sim : ScanSimulator2D) (x y : R) :
  outside_map sim x y = true -> xy_to_row_col sim x y = ((-1)%Z, (-1)%Z).
Proof. intros H. unfold xy_to_row_col. now rewrite H. Qed.

Lemma xy_to_cell_outside (sim : ScanSimulator2D) (x y : R) :
  sizes_fit sim -> outside_map sim x y = true ->
  xy_to_cell sim x y = (- width sim - 1)%Z.
Proof.
  intros (Hw & Hh & Hc & Hs) H. unfold xy_to_cell.
  rewrite xy_to_row_col_outside by assumption.
  rewrite row_col_to_cell_exact; lia.
Qed.

Lemma outside_map_false (sim : ScanSimulator2D) (x y : R) :
  outside_map sim x y = false ->
  0 <= x_rot sim x y < IZR (width sim) * resolution sim
  /\ 0 <= y_rot sim x y < IZR (height sim) * resolution sim.
Proof.
  unfold outside_map. intros H.
  repeat (apply orb_false_elim in H; destruct H as [H ?]).
  rewrite Rltb_false_iff in *. rewrite Rleb_false_iff in *. lra.
Qed.

Lemma outside_map_true (sim : ScanSimulator2D) (x y : R) :
  x_rot sim x y < 0 \/ IZR (width sim) * resolution sim <= x_rot sim x y
  \/ y_rot sim x y < 0 \/ IZR (height sim) * resolution sim <= y_rot sim x y ->
  outside_map sim x y = true.
Proof.
  unfold outside_map. intros [H | [H | [H | H]]].
  - now rewrite (Rltb_true _ _ H).
  - rewrite (Rleb_true _ _ H). now rewrite orb_true_r.
  - rewrite (Rltb_true _ _ H). now rewrite orb_true_r.
  - rewrite (Rleb_true _ _ H). now rewrite orb_true_r.
Qed.

(** A quotient in [[0, n)] has its floor in [[0, n)]. *)
Lemma Zfloor_cell (v r : R) (n : Z) :
  (0 <= n)%Z -> 0 <= v < IZR n * r ->
  0 < r /\ (0 <= Zfloor (v / r) < n)%Z.
Proof.
  intros Hn [H0 H1].
  assert (Hr : 0 < r).
  { apply IZR_le in Hn. destruct (Rlt_dec 0 r); [assumption | exfalso].
    assert (IZR n * r <= 0) by nra. lra. }
  split; [assumption |].
  assert (Hq0 : 0 <= v / r).
  { unfold Rdiv. apply Rmult_le_pos; [assumption |].
    left. now apply Rinv_0_lt_compat. }
  assert (Hq1 : v / r < IZR n).
  { apply Rmult_lt_reg_r with r; [assumption |].
    replace (v / r * r) with v by (field; lra). assumption. }
  split.
  - apply Zfloor_lub. assumption.
  - apply lt_IZR. destruct (Zfloor_bound (v / r)). lra.
Qed.

Lemma inside_cell_bounds (sim : ScanSimulator2D) (x y : R) :
  sizes_fit sim -> outside_map sim x y = false ->
  0 < resolution sim
  /\ (0 <= Zfloor (x_rot sim x y / resolution sim) < width sim)%Z
  /\ (0 <= Zfloor (y_rot sim x y / resolution sim) < height sim)%Z.
Proof.
  intros (Hw & Hh & Hc & Hs) H.
  destruct (outside_map_false _ _ _ H) as [Hx Hy].
  destruct (Zfloor_cell _ _ _ Hw Hx) as [Hr Hcx].
  destruct (Zfloor_cell _ _ _ Hh Hy) as [_ Hcy].
  auto.
Qed.

Lemma xy_to_cell_inside (sim : ScanSimulator2D) (x y : R) :
  sizes_fit sim -> outside_map sim x y = false ->
  xy_to_cell sim x y
  = (Zfloor (y_rot sim x y / resolution sim) * width sim
     + Zfloor (x_rot sim x y / resolution sim))%Z
  /\ (0 <= xy_to_cell sim x y < width sim * height sim)%Z.
Proof.
  intros Hfit H.
  destruct (inside_cell_bounds _ _ _ Hfit H) as (Hr & Hc & Hrow).
  destruct Hfit as (Hw & Hh & Hcells & Hs).
  unfold xy_to_cell, xy_to_row_col. rewrite H.
  set (row := Zfloor (y_rot sim x y / resolution sim)) in *.
  set (col := Zfloor (x_rot sim x y / resolution sim)) in *.
  assert (Hb : (0 <= row * width sim + col < width sim * height sim)%Z) by nia.
  rewrite row_col_to_cell_exact by lia.
  split; [reflexivity | assumption].
Qed.

Lemma distance_transform_outside (sim : ScanSimulator2D) (x y : R) :
  map_fits sim -> outside_map sim x y = true -> distance_transform sim x y = Done 0.
Proof.
  intros [Hfit Hl] H. unfold distance_transform.
  rewrite xy_to_cell_outside by assumption.
  destruct Hfit as (Hw & _).
  destruct (Z.ltb_spec (- width sim - 1) 0); [reflexivity | lia].
Qed.

Lemma distance_transform_inside (sim : ScanSimulator2D) (x y : R) :
  map_fits sim -> outside_map sim x y = false ->
  distance_transform sim x y
  = Done (nth (Z.to_nat (Zfloor (y_rot sim x y / resolution sim) * width sim
                         + Zfloor (x_rot sim x y / resolution sim))) (dt sim) 0).
Proof.
  intros [Hfit Hl] H. unfold distance_transform.
  destruct (xy_to_cell_inside _ _ _ Hfit H) as [Hcell Hb].
  destruct (Z.ltb_spec (xy_to_cell sim x y) 0); [lia |].
  rewrite lookup_Done by lia. now rewrite Hcell.
Qed.

(** The query never fails on a map that fits. *)
Lemma distance_transform_Done (sim : ScanSimulator2D) (x y : R) :
  map_fits sim -> exists d, distance_transform sim x y = Done d.
Proof.
  intros Hfit. destruct (outside_map sim x y) eqn:H.
  - eexists. now apply distance_transform_outside.
  - eexists. now apply distance_transform_inside.
Qed.

Lemma xy_to_row_col_sentinel (sim : ScanSimulator2D) (x y : R) :
  sizes_fit sim ->
  xy_to_row_col sim x y = ((-1)%Z, (-1)%Z) <-> outside_map sim x y = true.
Proof.
  intros Hfit; split; [| apply xy_to_row_col_outside].
  destruct (outside_map sim x y) eqn:H; [reflexivity |].
  destruct (inside_cell_bounds _ _ _ Hfit H) as (_ & Hc & _).
  unfold xy_to_row_col. rewrite H. intros [= Hr Hcol]. lia.
Qed.

(** The rotation of [xy_to_row_col], with the cosine and sine [set_map]
    caches, is the rotation by the negative of the origin's heading. *)
Lemma rotation_by_negative_heading (theta xt yt : R) :
  xt * cos (- theta) - yt * sin (- theta) = xt * cos theta + yt * sin theta
  /\ xt * sin (- theta) + yt * cos (- theta) = - xt * sin theta + yt * cos theta.
Proof. rewrite cos_neg, sin_neg. split; ring. Qed.

Lemma spec_transform_in_range (sim : ScanSimulator2D) (x y : R) :
  origin_c sim = cos (Pose2D.theta (origin sim)) ->
  origin_s sim = sin (Pose2D.theta (origin sim)) ->
  spec_transform sim x y
  = if outside_map sim x y then None
    else let col := Zfloor (x_rot sim x y / resolution sim) in
         let row := Zfloor (y_rot sim x y / resolution sim) in
         Some (row, col, (row * width sim + col)%Z).
Proof.
  intros Hc Hs. unfold spec_transform.
  destruct (rotation_by_negative_heading (Pose2D.theta (origin sim))
              (x - Pose2D.x (origin sim)) (y - Pose2D.y (origin sim))) as [Ex Ey].
  cbv zeta. rewrite Ex, Ey, <- Hc, <- Hs.
  fold (x_rot sim x y). fold (y_rot sim x y).
  unfold outside_map.
  destruct (Rlt_dec (x_rot sim x y) 0) as [H1 | H1].
  { rewrite (Rltb_true _ _ H1), (Rleb_false 0 _ H1). reflexivity. }
  rewrite (Rltb_false (x_rot sim x y) 0), (Rleb_true 0 (x_rot sim x y)) by lra.
  destruct (Rlt_dec (x_rot sim x y) (IZR (width sim) * resolution sim)) as [H2 | H2].
  2:{ rewrite (Rltb_false (x_rot sim x y)), (Rleb_true _ (x_rot sim x y)) by lra. reflexivity. }
  rewrite (Rltb_true _ _ H2), (Rleb_false _ _ H2).
  destruct (Rlt_dec (y_rot sim x y) 0) as [H3 | H3].
  { rewrite (Rltb_true _ _ H3), (Rleb_false 0 _ H3). reflexivity. }
  rewrite (Rltb_false (y_rot sim x y) 0), (Rleb_true 0 (y_rot sim x y)) by lra.
  destruct (Rlt_dec (y_rot sim x y) (IZR (height sim) * resolution sim)) as [H4 | H4].
  2:{ rewrite (Rltb_false (y_rot sim x y)), (Rleb_true _ (y_rot sim x y)) by lra. reflexivity. }
  rewrite (Rltb_true _ _ H4), (Rleb_false _ _ H4). reflexivity.
Qed.





(** The constructor establishes [constructed]; [set_map] keeps it. *)
Lemma new_constructed (uninit : ScanSimulator2D) (seed : generator) (num_beams_ : Z)
    (field_of_view_ scan_std_dev_ scan_max_range_ cube_width_ ray_tracing_epsilon_ : R)
    (theta_discretization_ : Z) :
  constructed (ScanSimulator2D_new uninit seed num_beams_ field_of_view_ scan_std_dev_
                 scan_max_range_ cube_width_ ray_tracing_epsilon_ theta_discretization_).
Proof. repeat split. Qed.

Lemma set_map_constructed (distance_2d : list R -> Z -> Z -> R -> list R)
    (sim : ScanSimulator2D) (map_ : list R) (height_ width_ : Z) (resolution_ : R)
    (origin_ : Pose2D.t) (free_threshold : R) :
  constructed sim ->
  constructed (set_map distance_2d sim map_ height_ width_ resolution_ origin_ free_threshold).
Proof. exact (fun H => H). Qed.

(** ** The simulator through a scan *)

Lemma same_setup_refl (a : ScanSimulator2D) : same_setup a a.
Proof. destruct a. repeat eexists. Qed.

Lemma same_setup_sym (a b : ScanSimulator2D) : same_setup a b -> same_setup b a.
Proof. intros (f & c & g & o & ->). destruct a. repeat eexists. Qed.

Lemma same_setup_trans (a b c : ScanSimulator2D) :
  same_setup a b -> same_setup b c -> same_setup a c.
Proof. intros (f & cs & g & o & ->) (f' & cs' & g' & o' & ->). repeat eexists. Qed.

Lemma same_setup_set_flags (a : ScanSimulator2D) (f c : bool) : same_setup a (set_flags a f c).
Proof. repeat eexists. Qed.

Lemma same_setup_set_noise_generator (a : ScanSimulator2D) (g : generator) :
  same_setup a (set_noise_generator a g).
Proof. repeat eexists. Qed.

Lemma same_setup_set_scan_output (a : ScanSimulator2D) (o : list R) :
  same_setup a (set_scan_output a o).
Proof. repeat eexists. Qed.

Create HintDb setup.

#[local] Hint Resolve same_setup_refl same_setup_set_flags same_setup_set_noise_generator
  same_setup_set_scan_output : setup.

Ltac setup_subst H :=
  let f := fresh "f" in let c := fresh "c" in
  let g := fresh "g" in let o := fresh "o" in
  destruct H as (f & c & g & o & ->).

Lemma same_setup_constructed (a b : ScanSimulator2D) :
  same_setup a b -> constructed a -> constructed b.
Proof. intros H. setup_subst H. exact (fun H => H). Qed.

Lemma same_setup_valid (a b : ScanSimulator2D) :
  same_setup a b -> valid_configuration a -> valid_configuration b.
Proof. intros H. setup_subst H. exact (fun H => H). Qed.

Lemma same_setup_map_fits (a b : ScanSimulator2D) :
  same_setup a b -> map_fits a -> map_fits b.
Proof. intros H. setup_subst H. exact (fun H => H). Qed.

Lemma same_setup_distance_transform (a b : ScanSimulator2D) (x y : R) :
  same_setup a b -> distance_transform b x y = distance_transform a x y.
Proof. intros H. setup_subst H. reflexivity. Qed.

Lemma same_setup_back_off (a b : ScanSimulator2D) (fuel : nat) (c s x y e : R) :
  same_setup a b -> back_off fuel b c s x y e = back_off fuel a c s x y e.
Proof.
  intros H. revert x y e. induction fuel as [| fuel IH]; intros x y e; [reflexivity |].
  simpl. rewrite (same_setup_distance_transform a b) by assumption.
  destruct (distance_transform a _ _) as [d |]; [simpl | reflexivity].
  destruct (Reqb d 0); [apply IH | reflexivity].
Qed.

Lemma same_setup_march (a b : ScanSimulator2D) (fuel : nat) (c s x y d t : R) :
  same_setup a b -> march fuel b c s x y d t = march fuel a c s x y d t.
Proof.
  intros H. revert x y d t. induction fuel as [| fuel IH]; intros x y d t; [reflexivity |].
  simpl. destruct (Reqb d 0); [reflexivity |].
  rewrite (same_setup_distance_transform a b) by assumption.
  destruct (distance_transform a _ _) as [d' |]; [simpl | reflexivity].
  destruct (Reqb d' 0); [| apply IH].
  now rewrite (same_setup_back_off a b).
Qed.

Lemma same_setup_ray_march (a b : ScanSimulator2D) (fuel : nat) (c s x y : R) :
  same_setup a b -> ray_march fuel b c s x y = ray_march fuel a c s x y.
Proof.
  intros H. unfold ray_march.
  rewrite (same_setup_distance_transform a b) by assumption.
  destruct (distance_transform a x y) as [d |]; [simpl | reflexivity].
  now apply same_setup_march.
Qed.

Lemma same_setup_next_index (a b : ScanSimulator2D) (fuel : nat) (t : R) :
  same_setup a b -> next_index fuel b t = next_index fuel a t.
Proof. intros H. setup_subst H. reflexivity. Qed.

Lemma same_setup_start_index (a b : ScanSimulator2D) (pose : Pose2D.t) :
  same_setup a b -> start_index b pose = start_index a pose.
Proof. intros H. setup_subst H. reflexivity. Qed.

(** The range of a beam does not depend on what a scan writes. *)
Lemma same_setup_opponent_collision (a b : ScanSimulator2D)
    (x0 y0 : R) (i : Z) (k x y t oX oY oth : R) :
  same_setup a b ->
  fst (opponent_collision b x0 y0 i k x y t oX oY oth)
  = fst (opponent_collision a x0 y0 i k x y t oX oY oth)
  /\ same_setup a (snd (opponent_collision a x0 y0 i k x y t oX oY oth))
  /\ same_setup a (snd (opponent_collision b x0 y0 i k x y t oX oY oth)).
Proof.
  intros H.
  assert (Ha : forall sim d, same_setup sim (note_opponent sim d)).
  { intros sim d. unfold note_opponent.
    destruct (_ && _); auto with setup. }
  assert (E : forall sim, same_setup sim
            (snd (opponent_collision sim x0 y0 i k x y t oX oY oth))).
  { intros sim. unfold opponent_collision.
    destruct (same_side _ _ _ _ _ _ _ _); [simpl; auto with setup |].
    destruct (Rltb _ _); [| simpl; auto with setup].
    destruct (Rltb _ _); [| simpl; auto with setup].
    destruct (axis_index _ _); simpl; apply Ha. }
  split; [| split; [apply E |]].
  - setup_subst H. unfold opponent_collision.
    change (same_side (mkSim _ _ _ _ _ _ _ _ _ _ _ _ _ _ _ _ _ _ _ _ f c g o)
              y0 i k (x - k * y) oX oY oth)
      with (same_side a y0 i k (x - k * y) oX oY oth).
    destruct (same_side a _ _ _ _ _ _ _); [reflexivity |].
    destruct (Rltb _ _); [| reflexivity].
    destruct (Rltb _ _); [| reflexivity].
    change (axis_index (mkSim _ _ _ _ _ _ _ _ _ _ _ _ _ _ _ _ _ _ _ _ f c g o) i)
      with (axis_index a i).
    destruct (axis_index a i); reflexivity.
  - apply same_setup_trans with b; [assumption | apply E].
Qed.

(** ** The table index of a beam *)

Lemma start_index_range (sim : ScanSimulator2D) (pose : Pose2D.t) :
  (0 < theta_discretization sim)%Z ->
  0 <= start_index sim pose < IZR (theta_discretization sim).
Proof.
  intros Hd. apply IZR_lt in Hd. unfold start_index.
  set (t := fmod _ _).
  assert (Ht : - IZR (theta_discretization sim) < t < IZR (theta_discretization sim))
    by (apply fmod_bounds; assumption).
  destruct (Rlt_dec t 0) as [Hn | Hn].
  - rewrite (Rltb_true _ _ Hn). lra.
  - rewrite (Rltb_false t 0) by lra. lra.
Qed.

Lemma wrap_index_range (fuel : nat) (d t t' : R) :
  0 < d -> 0 <= t -> wrap_index fuel d t = Done t' -> 0 <= t' < d.
Proof.
  intros Hd. revert t. induction fuel as [| fuel IH]; intros t Ht; simpl.
  - destruct (Rle_dec d t) as [H | H].
    + rewrite (Rleb_true _ _ H). discriminate.
    + rewrite (Rleb_false d t) by lra. intros [= <-]. lra.
  - destruct (Rle_dec d t) as [H | H].
    + rewrite (Rleb_true _ _ H). apply IH. lra.
    + rewrite (Rleb_false d t) by lra. intros [= <-]. lra.
Qed.

Lemma wrap_index_fuel (n : nat) (d t : R) :
  0 < d -> t < INR n * d ->
  forall fuel, (n <= fuel)%nat -> exists t', wrap_index fuel d t = Done t'.
Proof.
  intros Hd. revert t. induction n as [| n IH]; intros t Ht fuel Hf.
  - simpl in Ht. exists t. destruct fuel; simpl; rewrite (Rleb_false d t) by lra; reflexivity.
  - destruct fuel as [| fuel]; [lia |]. simpl.
    destruct (Rle_dec d t) as [H | H].
    + rewrite (Rleb_true _ _ H). apply IH; [| lia].
      rewrite S_INR in Ht. lra.
    + rewrite (Rleb_false d t) by lra. now exists t.
Qed.

Lemma wrap_index_terminates (d t : R) :
  0 < d -> 0 <= t ->
  exists fuel0, forall fuel, (fuel0 <= fuel)%nat ->
    exists t', wrap_index fuel d t = Done t' /\ 0 <= t' < d.
Proof.
  intros Hd Ht.
  assert (Hq : 0 <= t / d).
  { unfold Rdiv. apply Rmult_le_pos; [assumption |]. left. now apply Rinv_0_lt_compat. }
  destruct (archimed (t / d)) as [Hup _].
  assert (Hpos : (0 < up (t / d))%Z) by (apply lt_IZR; lra).
  exists (Z.to_nat (up (t / d))). intros fuel Hf.
  destruct (wrap_index_fuel (Z.to_nat (up (t / d))) d t Hd) with (fuel := fuel)
    as [t' Ht']; [| assumption |].
  - rewrite INR_IZR_INZ, Z2Nat.id by lia.
    apply Rmult_lt_reg_r with (/ d); [now apply Rinv_0_lt_compat |].
    replace (IZR (up (t / d)) * d * / d) with (IZR (up (t / d))) by (field; lra).
    exact Hup.
  - exists t'. split; [assumption |]. exact (wrap_index_range fuel d t t' Hd Ht Ht').
Qed.

Lemma wrap_index_Fail (fuel : nat) (d t : R) (e : error) :
  wrap_index fuel d t = Fail e -> e = OutOfFuel.
Proof.
  revert t. induction fuel as [| fuel IH]; intros t; simpl;
    destruct (Rleb d t); try discriminate.
  - now intros [= <-].
  - apply IH.
Qed.

Lemma round_index_range (t : R) (n : Z) :
  0 <= t < IZR n -> (0 <= round_index t <= n)%Z.
Proof.
  intros [H0 H1]. unfold round_index.
  rewrite Rtrunc_nonneg by lra.
  destruct (Zfloor_bound (t + 0.5)) as [Hl Hu].
  split.
  - apply Zfloor_lub. lra.
  - assert (H : (Zfloor (t + 0.5) < n + 1)%Z) by (apply lt_IZR; rewrite plus_IZR; lra).
    lia.
Qed.

Lemma theta_index_increment_nonneg (sim : ScanSimulator2D) :
  constructed sim -> valid_configuration sim -> 0 <= theta_index_increment sim.
Proof.
  intros (Ha & Hi & _) (Hn & Hf & Hd).
  rewrite Hi, Ha.
  assert (0 < IZR (num_beams sim - 1)) by (apply IZR_lt; lia).
  assert (0 < IZR (theta_discretization sim)) by (apply IZR_lt; lia).
  pose proof PI_RGT_0.
  unfold Rdiv. repeat apply Rmult_le_pos; try lra;
    left; apply Rinv_0_lt_compat; lra.
Qed.

Lemma next_index_range (fuel : nat) (sim : ScanSimulator2D) (t t' : R) :
  constructed sim -> valid_configuration sim ->
  0 <= t -> next_index fuel sim t = Done t' ->
  0 <= t' < IZR (theta_discretization sim).
Proof.
  intros Hc Hv Ht. unfold next_index.
  pose proof (theta_index_increment_nonneg _ Hc Hv).
  destruct Hv as (_ & _ & Hd).
  apply wrap_index_range; [apply IZR_lt; lia | lra].
Qed.

Lemma next_index_terminates (sim : ScanSimulator2D) (t : R) :
  constructed sim -> valid_configuration sim -> 0 <= t ->
  exists fuel0, forall fuel, (fuel0 <= fuel)%nat ->
    exists t', next_index fuel sim t = Done t' /\ 0 <= t' < IZR (theta_discretization sim).
Proof.
  intros Hc Hv Ht. unfold next_index.
  pose proof (theta_index_increment_nonneg _ Hc Hv).
  destruct Hv as (_ & _ & Hd).
  apply wrap_index_terminates; [apply IZR_lt; lia | lra].
Qed.

Lemma beam_index_range (fuel : nat) (sim : ScanSimulator2D) (i : nat) (t t' : R) :
  constructed sim -> valid_configuration sim ->
  0 <= t < IZR (theta_discretization sim) ->
  beam_index fuel sim t i = Done t' ->
  0 <= t' < IZR (theta_discretization sim).
Proof.
  intros Hc Hv. revert t. induction i as [| i IH]; intros t Ht; simpl.
  - now intros [= <-].
  - intros H. inv_bind H. apply (IH a); [| assumption].
    eapply next_index_range; try eassumption. lra.
Qed.

(** The same ranges from a start index that may be [theta_discretization]
    itself, which is what line 104 leaves when its addition is rounded
    up. *)
Lemma round_index_range_closed (t : R) (n : Z) :
  0 <= t <= IZR n -> (0 <= round_index t <= n)%Z.
Proof.
  intros [H0 H1]. unfold round_index.
  rewrite Rtrunc_nonneg by lra.
  destruct (Zfloor_bound (t + 0.5)) as [Hl Hu].
  split.
  - apply Zfloor_lub. lra.
  - assert (H : (Zfloor (t + 0.5) < n + 1)%Z) by (apply lt_IZR; rewrite plus_IZR; lra).
    lia.
Qed.

Lemma beam_index_range_closed (fuel : nat) (sim : ScanSimulator2D) (i : nat) (t t' : R) :
  constructed sim -> valid_configuration sim ->
  0 <= t <= IZR (theta_discretization sim) ->
  beam_index fuel sim t i = Done t' ->
  0 <= t' <= IZR (theta_discretization sim)
  /\ ((1 <= i)%nat -> t' < IZR (theta_discretization sim)).
Proof.
  intros Hc Hv Ht H. destruct i as [| i].
  - simpl in H. injection H as <-. split; [exact Ht | lia].
  - simpl in H. apply bind_Done in H. destruct H as (t1 & H1 & H).
    assert (Ht1 : 0 <= t1 < IZR (theta_discretization sim))
      by (apply (next_index_range fuel sim t t1 Hc Hv); [lra | exact H1]).
    pose proof (beam_index_range _ _ _ _ _ Hc Hv Ht1 H). split; [lra | intros _; lra].
Qed.

Lemma constructed_lookups (sim : ScanSimulator2D) (i : Z) :
  constructed sim -> (0 <= i <= theta_discretization sim)%Z ->
  lookup BadTableIndex (sines sim) i = Done (sin (slot_theta (theta_discretization sim) i))
  /\ lookup BadTableIndex (cosines sim) i = Done (cos (slot_theta (theta_discretization sim) i))
  /\ lookup BadTableIndex (arctanes sim) i = Done (1 / tan (slot_theta (theta_discretization sim) i)).
Proof.
  intros (_ & _ & _ & Hs & Hc & Ha) Hi.
  rewrite Hs, Hc, Ha. unfold make_sines, make_cosines, make_arctanes.
  rewrite !make_table_lookup by assumption.
  unfold arctan_slot. now rewrite cotangent_guard_true.
Qed.

(** ** Failures of the marcher *)

Lemma distance_transform_Fail (sim : ScanSimulator2D) (x y : R) (e : error) :
  distance_transform sim x y = Fail e -> e = BadCellIndex.
Proof.
  unfold distance_transform. destruct (_ <? 0)%Z; [discriminate |].
  intros H. now apply lookup_Fail in H.
Qed.

Lemma back_off_Fail (fuel : nat) (sim : ScanSimulator2D) (c s x y er : R) (e : error) :
  back_off fuel sim c s x y er = Fail e -> e <> BadTableIndex.
Proof.
  revert x y er. induction fuel as [| fuel IH]; intros x y er; simpl.
  - intros [= <-]. discriminate.
  - intros H. apply bind_Fail in H. destruct H as [H | (d & Hd & H)].
    + apply distance_transform_Fail in H. subst. discriminate.
    + destruct (Reqb d 0); [now apply IH in H | discriminate].
Qed.

Lemma march_Fail (fuel : nat) (sim : ScanSimulator2D) (c s x y d t : R) (e : error) :
  march fuel sim c s x y d t = Fail e -> e <> BadTableIndex.
Proof.
  revert x y d t. induction fuel as [| fuel IH]; intros x y d t; simpl.
  - destruct (Reqb d 0); [discriminate |]. intros [= <-]. discriminate.
  - destruct (Reqb d 0); [discriminate |].
    intros H. apply bind_Fail in H. destruct H as [H | (d' & Hd & H)].
    + apply distance_transform_Fail in H. subst. discriminate.
    + destruct (Reqb d' 0); [| now apply IH in H].
      apply bind_Fail in H. destruct H as [H | (p & Hp & H)].
      * now apply back_off_Fail in H.
      * destruct p as [[? ?] ?]. discriminate.
Qed.

Lemma ray_march_Fail (fuel : nat) (sim : ScanSimulator2D) (c s x y : R) (e : error) :
  ray_march fuel sim c s x y = Fail e -> e <> BadTableIndex.
Proof.
  unfold ray_march. intros H. apply bind_Fail in H. destruct H as [H | (d & Hd & H)].
  - apply distance_transform_Fail in H. subst. discriminate.
  - now apply march_Fail in H.
Qed.

Lemma trace_ray_no_table_fault (fuel : nat) (sim : ScanSimulator2D)
    (x y t oX oY oth : R) :
  constructed sim -> (0 <= theta_discretization sim)%Z ->
  0 <= t < IZR (theta_discretization sim) ->
  trace_ray fuel sim x y t oX oY oth <> Fail BadTableIndex.
Proof.
  intros Hc Hd Ht. unfold trace_ray.
  destruct (constructed_lookups sim (round_index t) Hc) as (Es & Ec & Ek);
    [now apply round_index_range |].
  rewrite Es, Ec, Ek. simpl. intros H.
  apply bind_Fail in H. destruct H as [H | (p & Hp & H)].
  - now apply ray_march_Fail in H.
  - destruct p as [[? ?] ?]. discriminate.
Qed.

Lemma trace_ray_no_table_fault_closed (fuel : nat) (sim : ScanSimulator2D)
    (x y t oX oY oth : R) :
  constructed sim -> (0 <= theta_discretization sim)%Z ->
  0 <= t <= IZR (theta_discretization sim) ->
  trace_ray fuel sim x y t oX oY oth <> Fail BadTableIndex.
Proof.
  intros Hc Hd Ht. unfold trace_ray.
  destruct (constructed_lookups sim (round_index t) Hc) as (Es & Ec & Ek);
    [now apply round_index_range_closed |].
  rewrite Es, Ec, Ek. simpl. intros H.
  apply bind_Fail in H. destruct H as [H | (p & Hp & H)].
  - now apply ray_march_Fail in H.
  - destruct p as [[? ?] ?]. discriminate.
Qed.

(** ** One beam *)

Lemma trace_ray_Done (fuel : nat) (sim sim' : ScanSimulator2D)
    (x y t oX oY oth r : R) :
  trace_ray fuel sim x y t oX oY oth = Done (r, sim') ->
  exists s c k xe ye total,
    lookup BadTableIndex (sines sim) (round_index t) = Done s
    /\ lookup BadTableIndex (cosines sim) (round_index t) = Done c
    /\ lookup BadTableIndex (arctanes sim) (round_index t) = Done k
    /\ ray_march fuel sim c s x y = Done (xe, ye, total)
    /\ opponent_collision sim x y (round_index t) k xe ye total oX oY oth = (r, sim').
Proof.
  unfold trace_ray. intros H.
  apply bind_Done in H. destruct H as (s & Hs & H).
  apply bind_Done in H. destruct H as (c & Hc & H).
  apply bind_Done in H. destruct H as (k & Hk & H).
  apply bind_Done in H. destruct H as ([[xe ye] total] & Hm & H).
  injection H as H.
  exists s, c, k, xe, ye, total. auto.
Qed.

Lemma trace_ray_eval (fuel : nat) (sim : ScanSimulator2D)
    (x y t oX oY oth s c k xe ye total : R) :
  lookup BadTableIndex (sines sim) (round_index t) = Done s ->
  lookup BadTableIndex (cosines sim) (round_index t) = Done c ->
  lookup BadTableIndex (arctanes sim) (round_index t) = Done k ->
  ray_march fuel sim c s x y = Done (xe, ye, total) ->
  trace_ray fuel sim x y t oX oY oth
  = Done (opponent_collision sim x y (round_index t) k xe ye total oX oY oth).
Proof.
  intros Hs Hc Hk Hm. unfold trace_ray. rewrite Hs, Hc, Hk. simpl.
  rewrite Hm. reflexivity.
Qed.

Lemma note_opponent_same_setup (sim : ScanSimulator2D) (d : R) :
  same_setup sim (note_opponent sim d).
Proof. unfold note_opponent. destruct (_ && _); auto with setup. Qed.

Lemma opponent_collision_snd (sim : ScanSimulator2D) (x0 y0 : R) (i : Z)
    (k x y t oX oY oth : R) :
  snd (opponent_collision sim x0 y0 i k x y t oX oY oth)
  = if negb (same_side sim y0 i k (x - k * y) oX oY oth) && ordering x0 y0 x y t oX oY
    then note_opponent sim (this_to_opponent x0 y0 oX oY)
    else sim.
Proof.
  unfold opponent_collision, ordering.
  destruct (same_side _ _ _ _ _ _ _ _); [reflexivity |].
  destruct (Rltb (this_to_opponent _ _ _ _) t); [| reflexivity].
  destruct (Rltb (obstacle_to_opponent _ _ _ _) t); [| reflexivity].
  destruct (axis_index sim i); reflexivity.
Qed.

Lemma opponent_collision_unordered (sim : ScanSimulator2D) (x0 y0 : R) (i : Z)
    (k x y t oX oY oth : R) :
  ordering x0 y0 x y t oX oY = false ->
  opponent_collision sim x0 y0 i k x y t oX oY oth = (std_min t (scan_max_range sim), sim).
Proof.
  unfold opponent_collision, ordering. intros H.
  destruct (same_side _ _ _ _ _ _ _ _); [reflexivity |].
  destruct (Rltb (this_to_opponent _ _ _ _) t); [| reflexivity].
  destruct (Rltb (obstacle_to_opponent _ _ _ _) t); [discriminate | reflexivity].
Qed.

Lemma opponent_collision_rejected (sim : ScanSimulator2D) (x0 y0 : R) (i : Z)
    (k x y t oX oY oth : R) :
  same_side sim y0 i k (x - k * y) oX oY oth = true ->
  opponent_collision sim x0 y0 i k x y t oX oY oth = (std_min t (scan_max_range sim), sim).
Proof. unfold opponent_collision. now intros ->. Qed.

Lemma opponent_collision_same_setup (sim : ScanSimulator2D) (x0 y0 : R) (i : Z)
    (k x y t oX oY oth : R) :
  same_setup sim (snd (opponent_collision sim x0 y0 i k x y t oX oY oth)).
Proof.
  rewrite opponent_collision_snd.
  destruct (_ && _); [apply note_opponent_same_setup | apply same_setup_refl].
Qed.

(** Outside the map the march does not start. *)
Lemma trace_ray_outside (fuel : nat) (sim : ScanSimulator2D) (x y t oX oY oth : R) :
  constructed sim -> (0 <= theta_discretization sim)%Z ->
  0 <= t < IZR (theta_discretization sim) ->
  map_fits sim -> outside_map sim x y = true ->
  trace_ray fuel sim x y t oX oY oth = Done (std_min 0 (scan_max_range sim), sim).
Proof.
  intros Hc Hd Ht Hfit Ho.
  destruct (constructed_lookups sim (round_index t) Hc) as (Es & Ec & Ek);
    [now apply round_index_range |].
  rewrite (trace_ray_eval fuel sim x y t oX oY oth _ _ _ x y 0 Es Ec Ek).
  - f_equal. apply opponent_collision_unordered. unfold ordering.
    rewrite Rltb_false; [reflexivity |]. unfold this_to_opponent. apply sqrt_pos.
  - unfold ray_march. rewrite distance_transform_outside by assumption. cbn [bind].
    destruct fuel; simpl; now rewrite Reqb_refl.
Qed.

Lemma trace_ray_same_setup (fuel : nat) (sim sim' : ScanSimulator2D)
    (x y t oX oY oth r : R) :
  trace_ray fuel sim x y t oX oY oth = Done (r, sim') -> same_setup sim sim'.
Proof.
  intros H. apply trace_ray_Done in H.
  destruct H as (s & c & k & xe & ye & total & _ & _ & _ & _ & H).
  pose proof (opponent_collision_same_setup sim x y (round_index t) k xe ye total oX oY oth) as E.
  now rewrite H in E.
Qed.

Lemma same_setup_trace_ray (a b : ScanSimulator2D) (fuel : nat) (x y t oX oY oth : R) :
  same_setup a b ->
  same_ranges a (trace_ray fuel a x y t oX oY oth) (trace_ray fuel b x y t oX oY oth).
Proof.
  intros H. unfold trace_ray.
  assert (Es : sines b = sines a) by (setup_subst H; reflexivity).
  assert (Ec : cosines b = cosines a) by (setup_subst H; reflexivity).
  assert (Ek : arctanes b = arctanes a) by (setup_subst H; reflexivity).
  rewrite Es, Ec, Ek.
  destruct (lookup _ (sines a) _) as [s |]; [simpl | reflexivity].
  destruct (lookup _ (cosines a) _) as [c |]; [simpl | reflexivity].
  destruct (lookup _ (arctanes a) _) as [k |]; [simpl | reflexivity].
  rewrite (same_setup_ray_march a b) by assumption.
  destruct (ray_march fuel a c s x y) as [[[xe ye] total] |]; [simpl | reflexivity].
  destruct (same_setup_opponent_collision a b x y (round_index t) k xe ye total oX oY oth H)
    as (E1 & E2 & E3).
  destruct (opponent_collision a _ _ _ _ _ _ _ _ _ _) as [r1 s1].
  destruct (opponent_collision b _ _ _ _ _ _ _ _ _ _) as [r2 s2].
  simpl in *. auto.
Qed.

(** ** Noise *)

Lemma add_noise_disabled (sim : ScanSimulator2D) (r : R) :
  scan_std_dev sim <= 0 -> add_noise sim r = (r, sim).
Proof. intros H. unfold add_noise. now rewrite Rltb_false. Qed.

Lemma add_noise_same_setup (sim : ScanSimulator2D) (r : R) :
  same_setup sim (snd (add_noise sim r)).
Proof.
  unfold add_noise. destruct (Rltb _ _); simpl; auto with setup.
Qed.

Lemma same_setup_scan_std_dev (a b : ScanSimulator2D) :
  same_setup a b -> scan_std_dev b = scan_std_dev a.
Proof. intros H. setup_subst H. reflexivity. Qed.

(** ** The loop over the beams *)

Lemma scan_loop_S (fuel n : nat) (sim : ScanSimulator2D) (pose opp : Pose2D.t) (t : R) :
  scan_loop fuel (S n) sim pose opp t
  = ('(r, sim1) <- trace_ray fuel sim (Pose2D.x pose) (Pose2D.y pose) t
                     (Pose2D.x opp) (Pose2D.y opp) (Pose2D.theta opp) ;;
     let '(r, sim2) := add_noise sim1 r in
     t' <- next_index fuel sim2 t ;;
     '(rest, sim3) <- scan_loop fuel n sim2 pose opp t' ;;
     Done (r :: rest, sim3)).
Proof. reflexivity. Qed.

Lemma scan_loop_no_table_fault (fuel n : nat) (sim : ScanSimulator2D)
    (pose opp : Pose2D.t) (t : R) :
  constructed sim -> valid_configuration sim ->
  0 <= t < IZR (theta_discretization sim) ->
  scan_loop fuel n sim pose opp t <> Fail BadTableIndex.
Proof.
  revert sim t. induction n as [| n IH]; intros sim t Hc Hv Ht; simpl; [discriminate |].
  intros H. apply bind_Fail in H. destruct H as [H | ([r sim1] & H1 & H)].
  - revert H. apply trace_ray_no_table_fault; try assumption.
    destruct Hv as (_ & _ & Hd). lia.
  - pose proof (trace_ray_same_setup _ _ _ _ _ _ _ _ _ _ H1) as S1.
    pose proof (add_noise_same_setup sim1 r) as S2.
    destruct (add_noise sim1 r) as [r' sim2]. simpl in S2.
    assert (S : same_setup sim sim2) by (eapply same_setup_trans; eassumption).
    apply bind_Fail in H. destruct H as [H | (t' & Ht' & H)].
    + apply wrap_index_Fail in H. discriminate.
    + apply bind_Fail in H. destruct H as [H | ([rest sim3] & _ & H)]; [| discriminate].
      revert H. apply IH.
      * now apply (same_setup_constructed sim).
      * now apply (same_setup_valid sim).
      * assert (E : theta_discretization sim2 = theta_discretization sim)
          by (setup_subst S; reflexivity).
        rewrite E.
        rewrite (same_setup_next_index sim sim2) in Ht' by assumption.
        eapply next_index_range; try eassumption. lra.
Qed.

Lemma scan_loop_no_table_fault_closed (fuel n : nat) (sim : ScanSimulator2D)
    (pose opp : Pose2D.t) (t : R) :
  constructed sim -> valid_configuration sim ->
  0 <= t <= IZR (theta_discretization sim) ->
  scan_loop fuel n sim pose opp t <> Fail BadTableIndex.
Proof.
  intros Hc Hv Ht. destruct n as [| n]; simpl; [discriminate |].
  intros H. apply bind_Fail in H. destruct H as [H | ([r sim1] & H1 & H)].
  - revert H. apply trace_ray_no_table_fault_closed; try assumption.
    destruct Hv as (_ & _ & Hd). lia.
  - pose proof (trace_ray_same_setup _ _ _ _ _ _ _ _ _ _ H1) as S1.
    pose proof (add_noise_same_setup sim1 r) as S2.
    destruct (add_noise sim1 r) as [r' sim2]. simpl in S2.
    assert (S : same_setup sim sim2) by (eapply same_setup_trans; eassumption).
    apply bind_Fail in H. destruct H as [H | (t' & Ht' & H)].
    + apply wrap_index_Fail in H. discriminate.
    + apply bind_Fail in H. destruct H as [H | ([rest sim3] & _ & H)]; [| discriminate].
      revert H. apply scan_loop_no_table_fault.
      * now apply (same_setup_constructed sim).
      * now apply (same_setup_valid sim).
      * assert (E : theta_discretization sim2 = theta_discretization sim)
          by (setup_subst S; reflexivity).
        rewrite E.
        rewrite (same_setup_next_index sim sim2) in Ht' by assumption.
        eapply next_index_range; try eassumption. lra.
Qed.

Lemma same_setup_scan_loop (fuel n : nat) (a b : ScanSimulator2D)
    (pose opp : Pose2D.t) (t : R) :
  scan_std_dev a <= 0 -> same_setup a b ->
  same_ranges a (scan_loop fuel n a pose opp t) (scan_loop fuel n b pose opp t).
Proof.
  revert a b t. induction n as [| n IH]; intros a b t Hs H; simpl.
  - auto with setup.
  - pose proof (same_setup_trace_ray a b fuel (Pose2D.x pose) (Pose2D.y pose) t
                  (Pose2D.x opp) (Pose2D.y opp) (Pose2D.theta opp) H) as T.
    destruct (trace_ray fuel a _ _ _ _ _ _) as [[r1 a1] |];
      destruct (trace_ray fuel b _ _ _ _ _ _) as [[r2 b1] |]; simpl in T |- *;
      try contradiction; [| assumption].
    destruct T as (<- & Sa & Sb).
    rewrite add_noise_disabled
      by (rewrite (same_setup_scan_std_dev a a1) by assumption; assumption).
    rewrite add_noise_disabled
      by (rewrite (same_setup_scan_std_dev a b1) by assumption; assumption).
    rewrite (same_setup_next_index a a1), (same_setup_next_index a b1) by assumption.
    destruct (next_index fuel a t) as [t' |]; [simpl | reflexivity].
    assert (S1 : same_setup a1 b1)
      by (apply same_setup_trans with a; [now apply same_setup_sym | assumption]).
    assert (Hs1 : scan_std_dev a1 <= 0)
      by (rewrite (same_setup_scan_std_dev a a1) by assumption; assumption).
    specialize (IH a1 b1 t' Hs1 S1).
    destruct (scan_loop fuel n a1 pose opp t') as [[o1 a2] |];
      destruct (scan_loop fuel n b1 pose opp t') as [[o2 b2] |]; simpl in IH |- *;
      try contradiction; [| assumption].
    destruct IH as (<- & Sa2 & Sb2).
    split; [reflexivity |].
    split; apply same_setup_trans with a1; assumption.
Qed.

Lemma note_opponent_generator (sim : ScanSimulator2D) (d : R) :
  noise_generator (note_opponent sim d) = noise_generator sim.
Proof. unfold note_opponent. destruct (_ && _); reflexivity. Qed.

Lemma trace_ray_generator (fuel : nat) (sim sim' : ScanSimulator2D)
    (x y t oX oY oth r : R) :
  trace_ray fuel sim x y t oX oY oth = Done (r, sim') ->
  noise_generator sim' = noise_generator sim.
Proof.
  intros H. apply trace_ray_Done in H.
  destruct H as (s & c & k & xe & ye & total & _ & _ & _ & _ & H).
  apply (f_equal snd) in H. rewrite opponent_collision_snd in H. simpl in H. subst sim'.
  destruct (_ && _); [apply note_opponent_generator | reflexivity].
Qed.

Lemma scan_loop_generator (fuel n : nat) (sim sim' : ScanSimulator2D)
    (pose opp : Pose2D.t) (t : R) (out : list R) :
  scan_std_dev sim <= 0 ->
  scan_loop fuel n sim pose opp t = Done (out, sim') ->
  noise_generator sim' = noise_generator sim.
Proof.
  revert sim t out. induction n as [| n IH]; intros sim t out Hs; simpl.
  - now intros [= _ <-].
  - intros H. apply bind_Done in H. destruct H as ([r sim1] & H1 & H).
    pose proof (trace_ray_same_setup _ _ _ _ _ _ _ _ _ _ H1) as S1.
    assert (Hs1 : scan_std_dev sim1 <= 0)
      by (rewrite (same_setup_scan_std_dev sim sim1) by assumption; assumption).
    rewrite add_noise_disabled in H by assumption.
    apply bind_Done in H. destruct H as (t' & _ & H).
    apply bind_Done in H. destruct H as ([rest sim2] & H2 & H).
    injection H as _ <-.
    rewrite (IH _ _ _ Hs1 H2). eapply trace_ray_generator; eassumption.
Qed.

(** ** The two entry points *)

Lemma scan_data_no_table_fault (fuel : nat) (sim : ScanSimulator2D) (pose opp : Pose2D.t) :
  constructed sim -> valid_configuration sim ->
  scan_data fuel sim pose opp <> Fail BadTableIndex.
Proof.
  intros Hc Hv. unfold scan_data.
  apply scan_loop_no_table_fault; try assumption.
  apply start_index_range. destruct Hv as (_ & _ & Hd). lia.
Qed.

Lemma scan_Done (fuel : nat) (sim sim' : ScanSimulator2D) (pose opp : Pose2D.t)
    (flag : bool) (out : list R) :
  scan fuel sim pose opp flag = Done (out, sim') ->
  exists sim1, scan_data fuel (set_flags sim flag false) pose opp = Done (out, sim1)
               /\ sim' = set_scan_output sim1 out.
Proof.
  unfold scan. intros H. apply bind_Done in H. destruct H as ([o s] & H1 & H).
  injection H as -> <-. now exists s.
Qed.

Lemma scan_Fail (fuel : nat) (sim : ScanSimulator2D) (pose opp : Pose2D.t)
    (flag : bool) (e : error) :
  scan fuel sim pose opp flag = Fail e ->
  scan_data fuel (set_flags sim flag false) pose opp = Fail e.
Proof.
  unfold scan. intros H. apply bind_Fail in H.
  destruct H as [H | ([o s] & _ & H)]; [assumption | discriminate].
Qed.

Lemma constructed_table_lengths (sim : ScanSimulator2D) :
  constructed sim ->
  length (sines sim) = Z.to_nat (theta_discretization sim + 1)
  /\ length (cosines sim) = Z.to_nat (theta_discretization sim + 1)
  /\ length (arctanes sim) = Z.to_nat (theta_discretization sim + 1).
Proof.
  intros (_ & _ & _ & Hs & Hc & Ha). rewrite Hs, Hc, Ha.
  unfold make_sines, make_cosines, make_arctanes.
  rewrite !length_map, slots_length. auto.
Qed.


(** C2. With the noise standard deviation at 0 no sample is drawn (the
    generator is left as it was), and two scans with the same sensor pose,
    the same opponent pose and simulators that agree on the configuration,
    the angle cache and the map return the same sequence, or fail alike,
    whatever the generators, flags and buffers they start from. *)
Theorem scan_deterministic_without_noise (fuel : nat) (sim1 sim2 : ScanSimulator2D)
    (pose opp : Pose2D.t) (flag1 flag2 : bool) :
  scan_std_dev sim1 = 0 -> same_setup sim1 sim2 ->
  (forall out s1, scan fuel sim1 pose opp flag1 = Done (out, s1) ->
     noise_generator s1 = noise_generator sim1
     /\ exists s2, scan fuel sim2 pose opp flag2 = Done (out, s2))
  /\ (forall e, scan fuel sim1 pose opp flag1 = Fail e ->
        scan fuel sim2 pose opp flag2 = Fail e)
  /\ (forall out s1, scan_data fuel sim1 pose opp = Done (out, s1) ->
        noise_generator s1 = noise_generator sim1
        /\ exists s2, scan_data fuel sim2 pose opp = Done (out, s2))
  /\ (forall e, scan_data fuel sim1 pose opp = Fail e ->
        scan_data fuel sim2 pose opp = Fail e).
Proof.
  intros Hs H.
  assert (Hle : scan_std_dev sim1 <= 0) by lra.
  assert (D : forall a b, scan_std_dev a <= 0 -> same_setup a b ->
            same_ranges a (scan_data fuel a pose opp) (scan_data fuel b pose opp)).
  { intros a b Ha Hab. unfold scan_data.
    assert (En : num_beams b = num_beams a) by (setup_subst Hab; reflexivity).
    rewrite En, (same_setup_start_index a b) by assumption.
    now apply same_setup_scan_loop. }
  assert (G : forall a out s, scan_std_dev a <= 0 ->
            scan_data fuel a pose opp = Done (out, s) ->
            noise_generator s = noise_generator a).
  { intros a out s Ha. unfold scan_data. now apply scan_loop_generator. }
  assert (F : same_setup (set_flags sim1 flag1 false) (set_flags sim2 flag2 false)).
  { setup_subst H. repeat eexists. }
  pose proof (D (set_flags sim1 flag1 false) (set_flags sim2 flag2 false) Hle F) as Da.
  pose proof (D sim1 sim2 Hle H) as Db.
  split; [| split; [| split]].
  - intros out s1 H0. apply scan_Done in H0. destruct H0 as (s' & H0 & ->).
    split.
    + exact (G (set_flags sim1 flag1 false) _ _ Hle H0).
    + unfold scan. rewrite H0 in Da.
      destruct (scan_data fuel (set_flags sim2 flag2 false) pose opp) as [[o2 s2] |];
        simpl in Da |- *; [| contradiction].
      destruct Da as (<- & _). eauto.
  - intros e He. apply scan_Fail in He. unfold scan. rewrite He in Da.
    destruct (scan_data fuel (set_flags sim2 flag2 false) pose opp) as [[o2 s2] |];
      simpl in Da |- *; [contradiction | now subst].
  - intros out s1 H0. split; [exact (G sim1 out s1 Hle H0) |].
    rewrite H0 in Db.
    destruct (scan_data fuel sim2 pose opp) as [[o2 s2] |]; simpl in Db; [| contradiction].
    destruct Db as (<- & _). eauto.
  - intros e He. rewrite He in Db.
    destruct (scan_data fuel sim2 pose opp) as [[o2 s2] |]; simpl in Db;
      [contradiction | now subst].
Qed.

(** C4. The range of a beam is the marched distance
    [min (total_distance, scan_max_range)], and the simulator is left as it
    was, whenever one of the two ordering conditions fails; so the opponent
    replaces the marched range only when both hold. *)
Theorem opponent_replaces_only_when_ordered (fuel : nat) (sim : ScanSimulator2D)
    (x y t oX oY oth s c k xe ye total : R) :
  lookup BadTableIndex (sines sim) (round_index t) = Done s ->
  lookup BadTableIndex (cosines sim) (round_index t) = Done c ->
  lookup BadTableIndex (arctanes sim) (round_index t) = Done k ->
  ray_march fuel sim c s x y = Done (xe, ye, total) ->
  ~ (this_to_opponent x y oX oY < total /\ obstacle_to_opponent xe ye oX oY < total) ->
  trace_ray fuel sim x y t oX oY oth = Done (Rmin total (scan_max_range sim), sim).
Proof.
  intros Hs Hc Hk Hm Hn.
  rewrite (trace_ray_eval fuel sim x y t oX oY oth s c k xe ye total) by assumption.
  rewrite opponent_collision_unordered; [now rewrite std_min_Rmin |].
  unfold ordering. apply andb_false_iff.
  destruct (Rlt_dec (this_to_opponent x y oX oY) total) as [H1 | H1].
  - right. apply Rltb_false.
    destruct (Rlt_dec (obstacle_to_opponent xe ye oX oY) total); [tauto | lra].
  - left. apply Rltb_false. lra.
Qed.

(** ** The visibility flags *)

Lemma trace_ray_flags (fuel : nat) (sim sim' : ScanSimulator2D)
    (x y t oX oY oth r : R) :
  trace_ray fuel sim x y t oX oY oth = Done (r, sim') ->
  sim' = if beam_sees fuel sim x y t oX oY oth
         then note_opponent sim (this_to_opponent x y oX oY)
         else sim.
Proof.
  intros H. apply trace_ray_Done in H.
  destruct H as (s & c & k & xe & ye & total & Hs & Hc & Hk & Hm & H).
  apply (f_equal snd) in H. rewrite opponent_collision_snd in H. simpl in H.
  unfold beam_sees. rewrite Hs, Hc, Hk, Hm. now symmetry.
Qed.

Lemma same_setup_beam_sees (a b : ScanSimulator2D) (fuel : nat) (x y t oX oY oth : R) :
  same_setup a b -> beam_sees fuel b x y t oX oY oth = beam_sees fuel a x y t oX oY oth.
Proof.
  intros H. unfold beam_sees.
  assert (Es : sines b = sines a) by (setup_subst H; reflexivity).
  assert (Ec : cosines b = cosines a) by (setup_subst H; reflexivity).
  assert (Ek : arctanes b = arctanes a) by (setup_subst H; reflexivity).
  rewrite Es, Ec, Ek.
  destruct (lookup _ (sines a) _) as [s |]; [| reflexivity].
  destruct (lookup _ (cosines a) _) as [c |]; [| reflexivity].
  destruct (lookup _ (arctanes a) _) as [k |]; [| reflexivity].
  rewrite (same_setup_ray_march a b) by assumption.
  destruct (ray_march fuel a c s x y) as [[[xe ye] total] |]; [| reflexivity].
  setup_subst H. reflexivity.
Qed.

Lemma same_setup_beam_index (a b : ScanSimulator2D) (fuel : nat) (t : R) (i : nat) :
  same_setup a b -> beam_index fuel b t i = beam_index fuel a t i.
Proof.
  intros H. revert t. induction i as [| i IH]; intros t; simpl; [reflexivity |].
  rewrite (same_setup_next_index a b) by assumption.
  destruct (next_index fuel a t); simpl; [apply IH | reflexivity].
Qed.

Lemma add_noise_flags (sim : ScanSimulator2D) (r : R) :
  flag_can_see_opponent (snd (add_noise sim r)) = flag_can_see_opponent sim
  /\ can_see_opponent (snd (add_noise sim r)) = can_see_opponent sim.
Proof. unfold add_noise. destruct (Rltb _ _); simpl; auto. Qed.

Lemma note_opponent_forward (sim : ScanSimulator2D) (d : R) :
  can_see_opponent sim = true -> can_see_opponent (note_opponent sim d) = true.
Proof. unfold note_opponent. destruct (_ && _); auto. Qed.

Lemma trace_ray_forward (fuel : nat) (sim sim' : ScanSimulator2D)
    (x y t oX oY oth r : R) :
  trace_ray fuel sim x y t oX oY oth = Done (r, sim') ->
  can_see_opponent sim = true -> can_see_opponent sim' = true.
Proof.
  intros H Hc. apply trace_ray_flags in H. subst sim'.
  destruct (beam_sees _ _ _ _ _ _ _ _); [now apply note_opponent_forward | assumption].
Qed.

Lemma scan_loop_step (fuel n : nat) (sim sim' : ScanSimulator2D)
    (pose opp : Pose2D.t) (t : R) (out : list R) :
  scan_loop fuel (S n) sim pose opp t = Done (out, sim') ->
  exists r sim1 t' rest,
    trace_ray fuel sim (Pose2D.x pose) (Pose2D.y pose) t
      (Pose2D.x opp) (Pose2D.y opp) (Pose2D.theta opp) = Done (r, sim1)
    /\ next_index fuel sim t = Done t'
    /\ scan_loop fuel n (snd (add_noise sim1 r)) pose opp t' = Done (rest, sim')
    /\ out = fst (add_noise sim1 r) :: rest.
Proof.
  simpl. intros H.
  apply bind_Done in H. destruct H as ([r sim1] & H1 & H).
  pose proof (trace_ray_same_setup _ _ _ _ _ _ _ _ _ _ H1) as S1.
  pose proof (add_noise_same_setup sim1 r) as S2.
  destruct (add_noise sim1 r) as [r' sim2] eqn:E. simpl in S2.
  apply bind_Done in H. destruct H as (t' & Ht & H).
  apply bind_Done in H. destruct H as ([rest sim3] & H3 & H).
  injection H as <- <-.
  exists r, sim1, t', rest. rewrite E. simpl.
  rewrite (same_setup_next_index sim sim2) in Ht
    by (eapply same_setup_trans; eassumption).
  repeat split; assumption.
Qed.

Lemma scan_loop_forward (fuel n : nat) (sim sim' : ScanSimulator2D)
    (pose opp : Pose2D.t) (t : R) (out : list R) :
  scan_loop fuel n sim pose opp t = Done (out, sim') ->
  can_see_opponent sim = true -> can_see_opponent sim' = true.
Proof.
  revert sim t out. induction n as [| n IH]; intros sim t out H Hc.
  - simpl in H. now injection H as _ <-.
  - apply scan_loop_step in H.
    destruct H as (r & sim1 & t' & rest & H1 & _ & H2 & _).
    apply (IH _ _ _ H2).
    destruct (add_noise_flags sim1 r) as [_ ->].
    eapply trace_ray_forward; eassumption.
Qed.

(** Without the request or beyond the threshold no beam writes the flags. *)
Lemma scan_loop_unseen (fuel n : nat) (sim sim' : ScanSimulator2D)
    (pose opp : Pose2D.t) (t : R) (out : list R) :
  scan_loop fuel n sim pose opp t = Done (out, sim') ->
  flag_can_see_opponent sim
  && Rltb (this_to_opponent (Pose2D.x pose) (Pose2D.y pose) (Pose2D.x opp) (Pose2D.y opp))
          (threshold sim) = false ->
  can_see_opponent sim' = can_see_opponent sim.
Proof.
  revert sim t out. induction n as [| n IH]; intros sim t out H Hc.
  - simpl in H. now injection H as _ <-.
  - apply scan_loop_step in H.
    destruct H as (r & sim1 & t' & rest & H1 & _ & H2 & _).
    apply trace_ray_flags in H1.
    assert (E : sim1 = sim).
    { rewrite H1. destruct (beam_sees _ _ _ _ _ _ _ _); [| reflexivity].
      unfold note_opponent. now rewrite Hc. }
    clear H1. subst sim1.
    destruct (add_noise_flags sim r) as [Ef Ec].
    rewrite (IH _ _ _ H2); [assumption |].
    rewrite Ef.
    assert (Et : threshold (snd (add_noise sim r)) = threshold sim).
    { pose proof (add_noise_same_setup sim r) as S. setup_subst S. reflexivity. }
    now rewrite Et.
Qed.

(** With the request, within the threshold, a beam that sees the opponent
    raises the result. *)
Lemma scan_loop_seen (fuel n : nat) (sim sim' : ScanSimulator2D)
    (pose opp : Pose2D.t) (t : R) (out : list R) (i : nat) (ti : R) :
  scan_loop fuel n sim pose opp t = Done (out, sim') ->
  flag_can_see_opponent sim = true ->
  this_to_opponent (Pose2D.x pose) (Pose2D.y pose) (Pose2D.x opp) (Pose2D.y opp)
  < threshold sim ->
  (i < n)%nat ->
  beam_index fuel sim t i = Done ti ->
  beam_sees fuel sim (Pose2D.x pose) (Pose2D.y pose) ti
    (Pose2D.x opp) (Pose2D.y opp) (Pose2D.theta opp) = true ->
  can_see_opponent sim' = true.
Proof.
  revert sim t out i. induction n as [| n IH]; intros sim t out i H Hf Ht Hi Hb Hs; [lia |].
  apply scan_loop_step in H.
  destruct H as (r & sim1 & t' & rest & H1 & Hn & H2 & _).
  pose proof (trace_ray_same_setup _ _ _ _ _ _ _ _ _ _ H1) as S1.
  pose proof (add_noise_same_setup sim1 r) as S2.
  assert (S : same_setup sim (snd (add_noise sim1 r)))
    by (eapply same_setup_trans; eassumption).
  destruct (add_noise_flags sim1 r) as [Ef Ec].
  apply trace_ray_flags in H1.
  destruct i as [| i].
  - simpl in Hb. injection Hb as <-.
    rewrite Hs in H1. apply (scan_loop_forward _ _ _ _ _ _ _ _ H2).
    rewrite Ec. subst sim1. unfold note_opponent.
    rewrite Hf, (Rltb_true _ _ Ht). reflexivity.
  - simpl in Hb. rewrite Hn in Hb. simpl in Hb.
    destruct (can_see_opponent sim1) eqn:Hc1.
    + apply (scan_loop_forward _ _ _ _ _ _ _ _ H2). now rewrite Ec.
    + assert (E : flag_can_see_opponent sim1 = true).
      { subst sim1. destruct (beam_sees _ _ _ _ _ _ _ _); [| assumption].
        unfold note_opponent in Hc1 |- *.
        rewrite Hf, (Rltb_true _ _ Ht) in Hc1 |- *. discriminate. }
      apply (IH _ _ _ i H2).
      * now rewrite Ef.
      * assert (Et : threshold (snd (add_noise sim1 r)) = threshold sim)
          by (setup_subst S; reflexivity).
        now rewrite Et.
      * lia.
      * now rewrite (same_setup_beam_index sim).
      * now rewrite (same_setup_beam_sees sim).
Qed.

(** C5. After a scan that did not ask for it the visibility query answers
    false, wherever the opponent is; after a scan that asked for it, it
    answers true when some beam passes the intersection and ordering tests
    and the opponent centre is closer to the sensor than the threshold, and
    false when the centre is at the threshold or beyond, whatever the
    beams meet. *)
Theorem visibility_after_scan (fuel : nat) (sim sim' : ScanSimulator2D)
    (pose opp : Pose2D.t) (flag : bool) (out : list R) :
  scan fuel sim pose opp flag = Done (out, sim') ->
  let d := this_to_opponent (Pose2D.x pose) (Pose2D.y pose) (Pose2D.x opp) (Pose2D.y opp) in
  (flag = false -> see_opponent sim' = false)
  /\ (flag = true -> d < threshold sim ->
      (exists i ti, (i < Z.to_nat (num_beams sim))%nat
         /\ beam_index fuel sim (start_index sim pose) i = Done ti
         /\ beam_sees fuel sim (Pose2D.x pose) (Pose2D.y pose) ti
              (Pose2D.x opp) (Pose2D.y opp) (Pose2D.theta opp) = true) ->
      see_opponent sim' = true)
  /\ (threshold sim <= d -> see_opponent sim' = false).
Proof.
  intros H d. apply scan_Done in H. destruct H as (sim1 & H & ->).
  unfold see_opponent, scan_data in *. simpl in *.
  split; [| split].
  - intros ->. now rewrite (scan_loop_unseen _ _ _ _ _ _ _ _ H).
  - intros -> Hd (i & ti & Hi & Hb & Hs).
    apply (scan_loop_seen _ _ _ _ _ _ _ _ i ti H); try assumption; try reflexivity.
    + rewrite (same_setup_beam_index sim); auto with setup.
    + rewrite (same_setup_beam_sees sim); auto with setup.
  - intros Hd. rewrite (scan_loop_unseen _ _ _ _ _ _ _ _ H); [reflexivity |].
    simpl. fold d. rewrite (Rltb_false d) by assumption. apply andb_false_r.
Qed.

(** ** The flags from call to call *)

Lemma scan_loop_flag_down (fuel n : nat) :
  forall (sim sim' : ScanSimulator2D) (pose opp : Pose2D.t) (t : R) (out : list R),
    scan_loop fuel n sim pose opp t = Done (out, sim') ->
    flag_can_see_opponent sim = false ->
    flag_can_see_opponent sim' = false /\ can_see_opponent sim' = can_see_opponent sim.
Proof.
  induction n as [| n IH]; intros sim sim' pose opp t out H Hf.
  - simpl in H. injection H as _ <-. auto.
  - apply scan_loop_step in H.
    destruct H as (r & sim1 & t' & rest & H1 & _ & H2 & _).
    apply trace_ray_flags in H1.
    assert (E : sim1 = sim).
    { rewrite H1. destruct (beam_sees _ _ _ _ _ _ _ _); [| reflexivity].
      unfold note_opponent. now rewrite Hf. }
    clear H1. subst sim1.
    destruct (add_noise_flags sim r) as [Ef Ec].
    apply IH in H2; [| now rewrite Ef].
    destruct H2 as [F C]. split; [exact F |]. now rewrite C.
Qed.

Lemma scan_loop_flags (fuel n : nat) :
  forall (sim sim' : ScanSimulator2D) (pose opp : Pose2D.t) (t : R) (out : list R),
    scan_loop fuel n sim pose opp t = Done (out, sim') ->
    can_see_opponent sim = false ->
    flag_can_see_opponent sim'
    = flag_can_see_opponent sim && negb (can_see_opponent sim').
Proof.
  induction n as [| n IH]; intros sim sim' pose opp t out H Hc.
  - simpl in H. injection H as _ <-. rewrite Hc. now rewrite andb_true_r.
  - apply scan_loop_step in H.
    destruct H as (r & sim1 & t' & rest & H1 & _ & H2 & _).
    apply trace_ray_flags in H1.
    destruct (add_noise_flags sim1 r) as [Ef Ec].
    destruct (beam_sees _ _ _ _ _ _ _ _).
    + unfold note_opponent in H1.
      destruct (flag_can_see_opponent sim && Rltb _ _) eqn:Hb.
      * apply andb_true_iff in Hb. destruct Hb as [Hf _].
        apply scan_loop_flag_down in H2; [| rewrite Ef, H1; reflexivity].
        destruct H2 as [F C]. rewrite F, C, Ec, H1, Hf. reflexivity.
      * subst sim1. apply IH in H2; [| now rewrite Ec]. now rewrite H2, Ef.
    + subst sim1. apply IH in H2; [| now rewrite Ec]. now rewrite H2, Ef.
Qed.

(** A scan through either entry point keeps the request flag and the
    result from being up together. *)
Lemma scan_loop_settled (fuel n : nat) (sim sim' : ScanSimulator2D)
    (pose opp : Pose2D.t) (t : R) (out : list R) :
  scan_loop fuel n sim pose opp t = Done (out, sim') ->
  flag_can_see_opponent sim && can_see_opponent sim = false ->
  flag_can_see_opponent sim' && can_see_opponent sim' = false.
Proof.
  intros H Hs. destruct (can_see_opponent sim) eqn:Hc.
  - rewrite andb_true_r in Hs.
    destruct (scan_loop_flag_down _ _ _ _ _ _ _ _ H Hs) as [F _]. now rewrite F.
  - rewrite (scan_loop_flags _ _ _ _ _ _ _ _ H Hc).
    destruct (flag_can_see_opponent sim), (can_see_opponent sim'); reflexivity.
Qed.

Lemma left_by_calls_settled (sim : ScanSimulator2D) :
  left_by_calls sim -> flag_can_see_opponent sim && can_see_opponent sim = false.
Proof.
  induction 1 as [fuel sim sim' pose opp flag out H
                 | fuel sim sim' pose opp out _ IH H
                 | d sim m h w r o thr _ IH
                 | d sim sim' m thr _ IH H].
  - apply scan_Done in H. destruct H as (sim1 & H & ->).
    exact (scan_loop_settled _ _ _ _ _ _ _ _ H (andb_false_r _)).
  - exact (scan_loop_settled _ _ _ _ _ _ _ _ H IH).
  - exact IH.
  - unfold set_map_values in H. apply bind_Done in H. destruct H as (l & _ & H).
    injection H as <-. exact IH.
Qed.

(** The first [j] of [j + m] beams are a scan of [j] beams, and the
    remaining [m] a scan that starts from the simulator and the index the
    first left. *)
Lemma scan_loop_app (fuel j m : nat) :
  forall (sim sim' : ScanSimulator2D) (pose opp : Pose2D.t) (t : R) (out : list R),
    scan_loop fuel (j + m) sim pose opp t = Done (out, sim') ->
    exists out1 sim1 t1 out2,
      scan_loop fuel j sim pose opp t = Done (out1, sim1)
      /\ scan_loop fuel m sim1 pose opp t1 = Done (out2, sim')
      /\ out = out1 ++ out2.
Proof.
  induction j as [| j IH]; intros sim sim' pose opp t out H.
  - exists [], sim, t, out. auto.
  - change (S j + m)%nat with (S (j + m)) in H. rewrite scan_loop_S in H.
    apply bind_Done in H. destruct H as ([r sim1] & H1 & H).
    destruct (add_noise sim1 r) as [r' sim2] eqn:E.
    apply bind_Done in H. destruct H as (t' & Ht & H).
    apply bind_Done in H. destruct H as ([rest sim3] & H3 & H).
    injection H as <- <-.
    destruct (IH _ _ _ _ _ _ H3) as (out1 & s1 & t1 & out2 & Ha & Hb & ->).
    exists (r' :: out1), s1, t1, out2.
    split; [| split; [exact Hb | reflexivity]].
    rewrite scan_loop_S, H1. cbn [bind]. rewrite E, Ht. cbn [bind].
    rewrite Ha. reflexivity.
Qed.


(** ** Bounds on the range of a beam *)

Lemma closer_edge_le (sim : ScanSimulator2D) (x0 y0 k b acc : R) (edge : R * R * R * R) :
  closer_edge sim x0 y0 k b acc edge <= acc.
Proof.
  unfold closer_edge. destruct (within_edge _ _ _); [apply std_min_le_l | lra].
Qed.

Lemma closer_edge_nonneg (sim : ScanSimulator2D) (x0 y0 k b acc : R) (edge : R * R * R * R) :
  0 <= acc -> 0 <= closer_edge sim x0 y0 k b acc edge.
Proof.
  intros H. unfold closer_edge. destruct (within_edge _ _ _); [| assumption].
  apply std_min_glb; [assumption | apply sqrt_pos].
Qed.

Lemma fold_closer_edge_bounds (sim : ScanSimulator2D) (x0 y0 k b : R)
    (edges : list (R * R * R * R)) (acc : R) :
  fold_left (closer_edge sim x0 y0 k b) edges acc <= acc
  /\ (0 <= acc -> 0 <= fold_left (closer_edge sim x0 y0 k b) edges acc).
Proof.
  revert acc. induction edges as [| e edges IH]; intros acc; simpl.
  - split; [lra | auto].
  - destruct (IH (closer_edge sim x0 y0 k b acc e)) as [H1 H2].
    pose proof (closer_edge_le sim x0 y0 k b acc e).
    split; [lra |].
    intros H0. apply H2. now apply closer_edge_nonneg.
Qed.

Lemma opponent_collision_upper (sim : ScanSimulator2D) (x0 y0 : R) (i : Z)
    (k x y t oX oY oth : R) :
  fst (opponent_collision sim x0 y0 i k x y t oX oY oth) <= scan_max_range sim.
Proof.
  unfold opponent_collision.
  destruct (same_side _ _ _ _ _ _ _ _); [apply std_min_le_r |].
  destruct (Rltb _ _); [| apply std_min_le_r].
  destruct (Rltb _ _); [| apply std_min_le_r].
  destruct (axis_index sim i); simpl; [apply std_min_le_r |].
  apply fold_closer_edge_bounds.
Qed.

Lemma opponent_collision_lower (sim : ScanSimulator2D) (x0 y0 : R) (i : Z)
    (k x y t oX oY oth : R) :
  0 <= scan_max_range sim -> 0 <= t ->
  cube_width sim / 2 <= this_to_opponent x0 y0 oX oY ->
  0 <= fst (opponent_collision sim x0 y0 i k x y t oX oY oth).
Proof.
  intros Hm Ht Hw. unfold opponent_collision.
  destruct (same_side _ _ _ _ _ _ _ _); [now apply std_min_glb |].
  destruct (Rltb _ _); [| now apply std_min_glb].
  destruct (Rltb _ _); [| now apply std_min_glb].
  destruct (axis_index sim i); simpl.
  - apply std_min_glb; lra.
  - now apply fold_closer_edge_bounds.
Qed.

(** The edge-intersection branch alone stays in [[0, scan_max_range]]. *)
Lemma scan_to_square_bounds (sim : ScanSimulator2D) (x0 y0 k b oX oY oth : R) :
  scan_to_square sim x0 y0 k b oX oY oth <= scan_max_range sim
  /\ (0 <= scan_max_range sim -> 0 <= scan_to_square sim x0 y0 k b oX oY oth).
Proof. apply fold_closer_edge_bounds. Qed.

Lemma scan_loop_bounds (fuel n : nat) (sim sim' : ScanSimulator2D)
    (pose opp : Pose2D.t) (t : R) (out : list R) :
  scan_std_dev sim <= 0 ->
  scan_loop fuel n sim pose opp t = Done (out, sim') ->
  Forall (fun r => r <= scan_max_range sim) out
  /\ (0 <= scan_max_range sim ->
      cube_width sim / 2
      <= this_to_opponent (Pose2D.x pose) (Pose2D.y pose) (Pose2D.x opp) (Pose2D.y opp) ->
      (forall c s xe ye total,
         ray_march fuel sim c s (Pose2D.x pose) (Pose2D.y pose) = Done (xe, ye, total) ->
         0 <= total) ->
      Forall (fun r => 0 <= r) out).
Proof.
  revert sim t out. induction n as [| n IH]; intros sim t out Hs H.
  - simpl in H. injection H as <- _. split; constructor.
  - apply scan_loop_step in H.
    destruct H as (r & sim1 & t' & rest & H1 & _ & H2 & ->).
    pose proof (trace_ray_same_setup _ _ _ _ _ _ _ _ _ _ H1) as S1.
    assert (Hs1 : scan_std_dev sim1 <= 0)
      by (rewrite (same_setup_scan_std_dev sim sim1) by assumption; assumption).
    rewrite add_noise_disabled in H2 |- * by assumption. simpl in H2 |- *.
    destruct (IH _ _ _ Hs1 H2) as [U L].
    assert (Em : scan_max_range sim1 = scan_max_range sim) by (setup_subst S1; reflexivity).
    assert (Ew : cube_width sim1 = cube_width sim) by (setup_subst S1; reflexivity).
    rewrite Em, Ew in *.
    apply trace_ray_Done in H1.
    destruct H1 as (s & c & k & xe & ye & total & _ & _ & _ & Hm & H1).
    apply (f_equal fst) in H1. simpl in H1. subst r.
    split.
    + constructor; [apply opponent_collision_upper | assumption].
    + intros H0 Hw Ht. constructor.
      * apply opponent_collision_lower; try assumption. eapply Ht; eassumption.
      * apply L; try assumption.
        intros c' s' xe' ye' total' Hm'. apply (Ht c' s' xe' ye').
        now rewrite <- (same_setup_ray_march sim sim1).
Qed.

(** C1, as amended.  With noise disabled every entry of the output is at
    most [scan_max_range].  It is also at least 0 when [scan_max_range] is,
    every march from the sensor position has a total that is not negative,
    and the sensor is at least [cube_width / 2] away from the opponent
    centre. *)
Theorem scan_output_bounds (fuel : nat) (sim sim' : ScanSimulator2D)
    (pose opp : Pose2D.t) (flag : bool) (out : list R) :
  scan_std_dev sim = 0 ->
  scan fuel sim pose opp flag = Done (out, sim') ->
  Forall (fun r => r <= scan_max_range sim) out
  /\ (0 <= scan_max_range sim ->
      cube_width sim / 2
      <= this_to_opponent (Pose2D.x pose) (Pose2D.y pose) (Pose2D.x opp) (Pose2D.y opp) ->
      (forall c s xe ye total,
         ray_march fuel sim c s (Pose2D.x pose) (Pose2D.y pose) = Done (xe, ye, total) ->
         0 <= total) ->
      Forall (fun r => 0 <= r <= scan_max_range sim) out).
Proof.
  intros Hs H. apply scan_Done in H. destruct H as (sim1 & H & _).
  unfold scan_data in H.
  assert (Hle : scan_std_dev (set_flags sim flag false) <= 0) by (simpl; lra).
  destruct (scan_loop_bounds _ _ _ _ _ _ _ _ Hle H) as [U L].
  simpl in U, L. split; [exact U |].
  intros H0 Hw Ht.
  assert (L' : Forall (fun r => 0 <= r) out).
  { apply L; try assumption.
    intros c s xe ye total Hm. apply (Ht c s xe ye).
    rewrite <- Hm. symmetry. apply same_setup_ray_march. auto with setup. }
  rewrite Forall_forall in *. intros r Hr. split; [apply L' | apply U]; assumption.
Qed.

(** ** Termination of the marcher *)

Lemma distance_transform_ext (sim : ScanSimulator2D) (x y x' y' : R) :
  x = x' -> y = y' -> distance_transform sim x y = distance_transform sim x' y'.
Proof. now intros -> ->. Qed.

Lemma behind_step (j : nat) (c s x y : R) :
  behind j c s (x - 0.01 * c) (y - 0.01 * s) = behind (S j) c s x y.
Proof. unfold behind. rewrite S_INR. f_equal; lra. Qed.

(** The first back-off step that meets a distance other than 0 ends the
    correction loop. *)
Lemma back_off_run (sim : ScanSimulator2D) (c s : R) (k : nat) :
  forall (x y e d : R) (fuel : nat),
    (S k <= fuel)%nat ->
    (forall j, (1 <= j <= k)%nat ->
       distance_transform sim (fst (behind j c s x y)) (snd (behind j c s x y)) = Done 0) ->
    distance_transform sim (fst (behind (S k) c s x y)) (snd (behind (S k) c s x y)) = Done d ->
    d <> 0 ->
    exists xb yb eb,
      back_off fuel sim c s x y e = Done (xb, yb, eb)
      /\ xb = fst (behind (S k) c s x y) /\ yb = snd (behind (S k) c s x y)
      /\ eb = e + INR (S k) * 0.01.
Proof.
  induction k as [| k IH]; intros x y e d fuel Hf Hz Hd Hn;
    (destruct fuel as [| fuel]; [lia |]); simpl back_off.
  - assert (E : distance_transform sim (x - 0.01 * c) (y - 0.01 * s) = Done d).
    { rewrite <- Hd. apply distance_transform_ext; unfold behind; simpl; lra. }
    rewrite E. simpl bind. rewrite (Reqb_false d 0) by assumption.
    do 3 eexists. split; [reflexivity |].
    unfold behind; simpl; repeat split; lra.
  - assert (E : distance_transform sim (x - 0.01 * c) (y - 0.01 * s) = Done 0).
    { rewrite <- (Hz 1%nat) by lia. apply distance_transform_ext; unfold behind; simpl; lra. }
    rewrite E. simpl bind. rewrite Reqb_refl.
    destruct (IH (x - 0.01 * c) (y - 0.01 * s) (e + 0.01) d fuel) as (xb & yb & eb & Hb & Hx & Hy & He).
    + lia.
    + intros j Hj. rewrite behind_step. apply Hz. lia.
    + now rewrite behind_step.
    + assumption.
    + exists xb, yb, eb. split; [assumption |].
      rewrite behind_step in Hx, Hy. repeat split; try assumption.
      rewrite He. rewrite (S_INR (S k)). lra.
Qed.

(** On a map that fits, the correction loop stops as soon as some step
    behind meets a distance other than 0. *)
Lemma back_off_terminates (sim : ScanSimulator2D) (c s : R) (k : nat) :
  map_fits sim ->
  forall (x y e d : R) (fuel : nat),
    (S k <= fuel)%nat ->
    distance_transform sim (fst (behind (S k) c s x y)) (snd (behind (S k) c s x y)) = Done d ->
    d <> 0 ->
    exists r, back_off fuel sim c s x y e = Done r.
Proof.
  intros Hfit. induction k as [| k IH]; intros x y e d fuel Hf Hd Hn;
    (destruct fuel as [| fuel]; [lia |]); simpl back_off.
  - assert (E : distance_transform sim (x - 0.01 * c) (y - 0.01 * s) = Done d).
    { rewrite <- Hd. apply distance_transform_ext; unfold behind; simpl; lra. }
    rewrite E. simpl bind. rewrite (Reqb_false d 0) by assumption. eauto.
  - destruct (distance_transform_Done sim (x - 0.01 * c) (y - 0.01 * s) Hfit) as [d1 E].
    rewrite E. simpl bind.
    destruct (Req_dec_T d1 0) as [-> | H1].
    + rewrite Reqb_refl. apply (IH _ _ _ d); [lia | | assumption].
      now rewrite behind_step.
    + rewrite (Reqb_false d1 0) by assumption. eauto.
Qed.

(** A point where the distance is 0 is where the marcher stays. *)
Lemma forward_zero (sim : ScanSimulator2D) (c s x y : R) (n : nat) :
  distance_transform sim x y = Done 0 -> forward n sim c s x y = Done (x, y, 0).
Proof.
  intros H. induction n as [| n IH]; simpl; rewrite H; simpl; [reflexivity |].
  replace (x + 0 * c) with x by lra. replace (y + 0 * s) with y by lra. exact IH.
Qed.

Lemma march_terminates (sim : ScanSimulator2D) (c s : R) (k : nat) :
  map_fits sim ->
  forall (n : nat) (x y d total xe ye : R) (fuel : nat),
    distance_transform sim x y = Done d ->
    forward n sim c s x y = Done (xe, ye, 0) ->
    (exists dk, distance_transform sim (fst (behind (S k) c s xe ye))
                  (snd (behind (S k) c s xe ye)) = Done dk /\ dk <> 0) ->
    (n + S k <= fuel)%nat ->
    exists r, march fuel sim c s x y d total = Done r.
Proof.
  intros Hfit. induction n as [| n IH]; intros x y d total xe ye fuel Hd Hz Hb Hf.
  - simpl in Hz. rewrite Hd in Hz. simpl in Hz. injection Hz as _ _ ->.
    destruct fuel; simpl; rewrite Reqb_refl; eauto.
  - destruct fuel as [| fuel]; [lia |]. simpl march.
    destruct (Req_dec_T d 0) as [-> | Hn]; [rewrite Reqb_refl; eauto |].
    rewrite (Reqb_false d 0) by assumption.
    simpl in Hz. rewrite Hd in Hz. simpl in Hz.
    destruct (distance_transform_Done sim (x + d * c) (y + d * s) Hfit) as [d1 E].
    rewrite E. simpl bind.
    destruct (Req_dec_T d1 0) as [-> | H1].
    + rewrite Reqb_refl.
      rewrite (forward_zero sim c s _ _ n E) in Hz. injection Hz as <- <-.
      destruct Hb as (dk & Hk & Hnz).
      destruct (back_off_terminates sim c s k Hfit (x + d * c) (y + d * s) 0 dk fuel)
        as [[[xb yb] eb] Hr]; [lia | assumption | assumption |].
      rewrite Hr. simpl. eauto.
    + rewrite (Reqb_false d1 0) by assumption.
      apply (IH _ _ _ _ xe ye); try assumption. lia.
Qed.

(** C3, as amended.  On a map that fits, if along the ray the distance
    query eventually returns 0 and, unless that is at the start point
    itself, some back-off step behind the point where it does meets a
    distance other than 0, then with enough fuel the marcher of [trace_ray]
    returns. *)
Theorem ray_march_terminates (sim : ScanSimulator2D) (c s x y : R)
    (n : nat) (xe ye : R) :
  map_fits sim ->
  forward n sim c s x y = Done (xe, ye, 0) ->
  n = 0%nat \/ back_off_meets sim c s xe ye ->
  exists fuel0, forall fuel, (fuel0 <= fuel)%nat ->
    exists xb yb total, ray_march fuel sim c s x y = Done (xb, yb, total).
Proof.
  intros Hfit Hz Hb.
  destruct (distance_transform_Done sim x y Hfit) as [d Hd].
  destruct Hb as [-> | (k & dk & Hk & Hn)].
  - exists 0%nat. intros fuel _. unfold ray_march. rewrite Hd. simpl bind.
    simpl in Hz. rewrite Hd in Hz. simpl in Hz. injection Hz as _ _ ->.
    destruct fuel; simpl; rewrite Reqb_refl; eauto.
  - exists (n + S k)%nat. intros fuel Hf. unfold ray_march. rewrite Hd. simpl bind.
    destruct (march_terminates sim c s k Hfit n x y d d xe ye fuel Hd Hz) as [[[xb yb] t] Hr];
      eauto.
Qed.

(** ** The corridor *)

Lemma corridor_dt (r : R) : dt (corridor r) = [0; r; 0].
Proof.
  unfold corridor, set_map, adjacent_distance_2d, threshold_cell. cbn [dt map].
  rewrite (Rleb_true 0 1), (Rleb_false 1 (1 / 2)), (Rleb_true 0 0), (Rleb_true 0 (1 / 2)) by lra.
  cbn [andb]. rewrite Reqb_refl, (Reqb_false 99999 0) by lra. reflexivity.
Qed.

Lemma corridor_x_rot (r x y : R) : x_rot (corridor r) x y = x.
Proof. unfold x_rot, corridor, set_map. cbn. rewrite cos_0, sin_0. ring. Qed.

Lemma corridor_y_rot (r x y : R) : y_rot (corridor r) x y = y.
Proof. unfold y_rot, corridor, set_map. cbn. rewrite cos_0, sin_0. ring. Qed.

Lemma corridor_map_fits (r : R) : map_fits (corridor r).
Proof.
  unfold map_fits, sizes_fit. rewrite corridor_dt. cbn. lia.
Qed.

Lemma corridor_constructed (r : R) : constructed (corridor r).
Proof. apply set_map_constructed, new_constructed. Qed.

Lemma corridor_valid (r : R) : valid_configuration (corridor r).
Proof.
  unfold valid_configuration. cbn. pose proof PI_RGT_0. repeat split; try lia; lra.
Qed.

Lemma outside_map_false_intro (sim : ScanSimulator2D) (x y : R) :
  0 <= x_rot sim x y < IZR (width sim) * resolution sim ->
  0 <= y_rot sim x y < IZR (height sim) * resolution sim ->
  outside_map sim x y = false.
Proof.
  intros [H1 H2] [H3 H4]. unfold outside_map.
  rewrite (Rltb_false (x_rot sim x y) 0), (Rltb_false (y_rot sim x y) 0) by assumption.
  rewrite (Rleb_false _ (x_rot sim x y)), (Rleb_false _ (y_rot sim x y)) by assumption.
  reflexivity.
Qed.

(** The column of a point of the corridor. *)
Lemma Zfloor_column (j : Z) (r v : R) :
  0 < r -> IZR j * r <= v < (IZR j + 1) * r -> Zfloor (v / r) = j.
Proof.
  intros Hr [H1 H2]. apply Zfloor_eq. split.
  - apply Rmult_le_reg_r with r; [assumption |].
    replace (v / r * r) with v by (field; lra). assumption.
  - apply Rmult_lt_reg_r with r; [assumption |].
    replace (v / r * r) with v by (field; lra). assumption.
Qed.

Lemma corridor_query_column (j : Z) (r x y : R) :
  0 < r -> (0 <= j < 3)%Z -> IZR j * r <= x < (IZR j + 1) * r -> 0 <= y < r ->
  distance_transform (corridor r) x y = Done (nth (Z.to_nat j) [0; r; 0] 0).
Proof.
  intros Hr Hj Hx Hy.
  assert (Hj0 : 0 <= IZR j) by (apply IZR_le; lia).
  assert (Hj3 : IZR j + 1 <= 3).
  { replace 3 with (IZR 2 + 1) by (simpl; lra). apply Rplus_le_compat_r, IZR_le. lia. }
  rewrite distance_transform_inside.
  - rewrite corridor_x_rot, corridor_y_rot, corridor_dt.
    change (resolution (corridor r)) with r. change (width (corridor r)) with 3%Z.
    rewrite (Zfloor_column 0 r y), (Zfloor_column j r x) by (simpl; lra || assumption).
    reflexivity.
  - apply corridor_map_fits.
  - apply outside_map_false_intro; rewrite ?corridor_x_rot, ?corridor_y_rot;
      change (resolution (corridor r)) with r; cbn [width height corridor set_map].
    + split; [nra | ]. apply Rlt_le_trans with ((IZR j + 1) * r); [lra | nra].
    + lra.
Qed.

Lemma corridor_query_free (r x y : R) :
  0 < r -> r <= x < 2 * r -> 0 <= y < r ->
  distance_transform (corridor r) x y = Done r.
Proof.
  intros Hr Hx Hy.
  apply (corridor_query_column 1 r x y); try assumption; [lia | simpl; lra].
Qed.

Lemma corridor_query_blocked (r x y : R) :
  0 < r -> ~ (r <= x < 2 * r /\ 0 <= y < r) ->
  distance_transform (corridor r) x y = Done 0.
Proof.
  intros Hr Hn.
  destruct (Rlt_dec x 0) as [Hx0 | Hx0].
  { apply distance_transform_outside; [apply corridor_map_fits |].
    apply outside_map_true. rewrite corridor_x_rot. now left. }
  destruct (Rle_dec (3 * r) x) as [Hx3 | Hx3].
  { apply distance_transform_outside; [apply corridor_map_fits |].
    apply outside_map_true. rewrite corridor_x_rot. right; left. exact Hx3. }
  destruct (Rlt_dec y 0) as [Hy0 | Hy0].
  { apply distance_transform_outside; [apply corridor_map_fits |].
    apply outside_map_true. rewrite corridor_y_rot. right; right; now left. }
  destruct (Rle_dec r y) as [Hy1 | Hy1].
  { apply distance_transform_outside; [apply corridor_map_fits |].
    apply outside_map_true. rewrite corridor_y_rot. right; right; right.
    change (IZR (height (corridor r)) * resolution (corridor r)) with (1 * r). lra. }
  destruct (Rlt_dec x r) as [Hx1 | Hx1].
  { apply (corridor_query_column 0 r x y); try assumption; [lia | simpl; lra | lra]. }
  apply (corridor_query_column 2 r x y); try assumption; [lia | simpl; lra | lra].
Qed.

Lemma corridor_start_index (r y x : R) :
  start_index (corridor r) (Pose2D.mk x y (PI / 2)) = 0.
Proof.
  unfold start_index. cbn [Pose2D.theta].
  change (theta_discretization (corridor r)) with 4%Z.
  change (field_of_view (corridor r)) with PI.
  replace (4 * (PI / 2 - PI / 2) / (2 * PI)) with 0
    by (pose proof PI_RGT_0; field; lra).
  unfold fmod. replace (0 / 4) with 0 by lra.
  rewrite (Rtrunc_eq 0 0) by (simpl; lra).
  replace (0 - 0 * 4) with 0 by lra.
  now rewrite Rltb_false by lra.
Qed.

Lemma corridor_increment (r : R) : theta_index_increment (corridor r) = 2.
Proof.
  cbn. pose proof PI_RGT_0. field. lra.
Qed.

Lemma corridor_next_index_0 (r : R) (fuel : nat) :
  next_index fuel (corridor r) 0 = Done 2.
Proof.
  unfold next_index. rewrite corridor_increment.
  change (theta_discretization (corridor r)) with 4%Z.
  replace (0 + 2) with 2 by lra.
  destruct fuel; simpl; now rewrite Rleb_false by lra.
Qed.

Lemma corridor_next_index_2 (r : R) (fuel : nat) :
  next_index (S fuel) (corridor r) 2 = Done 0.
Proof.
  unfold next_index. rewrite corridor_increment.
  change (theta_discretization (corridor r)) with 4%Z.
  replace (2 + 2) with 4 by lra. simpl.
  rewrite Rleb_true by lra. replace (4 - 4) with 0 by lra.
  destruct fuel; simpl; now rewrite Rleb_false by lra.
Qed.

Lemma round_index_0 : round_index 0 = 0%Z.
Proof. unfold round_index. apply Rtrunc_eq; simpl; lra. Qed.

Lemma round_index_2 : round_index 2 = 2%Z.
Proof. unfold round_index. apply Rtrunc_eq; simpl; lra. Qed.

(** Beam 0 of the corridor points along [+x], beam 2 along [-x]. *)
Lemma corridor_tables_0 (r : R) :
  lookup BadTableIndex (sines (corridor r)) 0 = Done 0
  /\ lookup BadTableIndex (cosines (corridor r)) 0 = Done 1
  /\ exists k, lookup BadTableIndex (arctanes (corridor r)) 0 = Done k.
Proof.
  destruct (constructed_lookups (corridor r) 0 (corridor_constructed r)) as (Hs & Hc & Hk).
  { cbn. lia. }
  change (theta_discretization (corridor r)) with 4%Z in *.
  assert (E : slot_theta 4 0 = 0) by (unfold slot_theta; lra).
  rewrite E in *. rewrite sin_0 in Hs. rewrite cos_0 in Hc. eauto.
Qed.

Lemma corridor_tables_2 (r : R) :
  lookup BadTableIndex (sines (corridor r)) 2 = Done 0
  /\ lookup BadTableIndex (cosines (corridor r)) 2 = Done (-1)
  /\ exists k, lookup BadTableIndex (arctanes (corridor r)) 2 = Done k.
Proof.
  destruct (constructed_lookups (corridor r) 2 (corridor_constructed r)) as (Hs & Hc & Hk).
  { cbn. lia. }
  change (theta_discretization (corridor r)) with 4%Z in *.
  assert (E : slot_theta 4 2 = PI) by (unfold slot_theta; lra).
  rewrite E in *. rewrite sin_PI in Hs. rewrite cos_PI in Hc. eauto.
Qed.

(** Every ray of the corridor meets distance 0 within two steps. *)
Lemma corridor_eventually_zero (r x y c s : R) :
  0 < r -> c ^ 2 + s ^ 2 = 1 -> eventually_zero (corridor r) c s x y.
Proof.
  intros Hr Hu. unfold eventually_zero.
  assert (D : forall u v, {r <= u < 2 * r /\ 0 <= v < r} + {~ (r <= u < 2 * r /\ 0 <= v < r)}).
  { intros u v.
    destruct (Rle_dec r u), (Rlt_dec u (2 * r)), (Rle_dec 0 v), (Rlt_dec v r);
      try (left; lra); right; lra. }
  destruct (D x y) as [[Hx Hy] | H0].
  2:{ exists 0%nat, x, y. simpl. now rewrite corridor_query_blocked. }
  destruct (D (x + r * c) (y + r * s)) as [[Hx1 Hy1] | H1].
  2:{ exists 1%nat, (x + r * c), (y + r * s). simpl.
      rewrite corridor_query_free by assumption. simpl.
      now rewrite corridor_query_blocked. }
  exists 2%nat, (x + r * c + r * c), (y + r * s + r * s). simpl.
  rewrite corridor_query_free by assumption. simpl.
  rewrite corridor_query_free by assumption. simpl.
  rewrite corridor_query_blocked; [reflexivity | assumption |].
  intros [Hx2 Hy2].
  assert (Hc1 : c < 1 / 2) by nra.
  assert (Hc2 : - (1 / 2) < c) by nra.
  assert (Hs1 : s < 1 / 2) by nra.
  assert (Hs2 : - (1 / 2) < s) by nra.
  nra.
Qed.

(** Behind a point less than one back-off step in front of the free cell,
    along [+x], no back-off step lands in the free cell when the cell is
    narrower than the step. *)
Lemma corridor_back_off_stuck (r : R) (fuel : nat) :
  0 < r -> forall x y e, x - 0.01 < r ->
  back_off fuel (corridor r) 1 0 x y e = Fail OutOfFuel.
Proof.
  intros Hr. induction fuel as [| fuel IH]; intros x y e Hx; [reflexivity |].
  simpl back_off. rewrite corridor_query_blocked by (assumption || lra).
  simpl bind. rewrite Reqb_refl. apply IH. lra.
Qed.

Lemma narrow_corridor_diverges (fuel : nat) :
  ray_march fuel (corridor 0.004) 1 0 0.005 0.002 = Fail OutOfFuel.
Proof.
  unfold ray_march. rewrite corridor_query_free by lra. simpl bind.
  destruct fuel as [| fuel]; simpl march; rewrite Reqb_false by lra; [reflexivity |].
  rewrite corridor_query_blocked by lra. simpl bind. rewrite Reqb_refl.
  rewrite corridor_back_off_stuck by lra. reflexivity.
Qed.

(** C3, counterexample.  In a corridor of cells 0.004 wide every ray meets
    distance 0, and yet the marcher of the beam along [+x] from
    [(0.005, 0.002)] never returns: each back-off step of 0.01 jumps over
    the free cell. *)
Lemma back_off_may_not_terminate :
  map_fits (corridor 0.004)
  /\ (forall x y c s, c ^ 2 + s ^ 2 = 1 -> eventually_zero (corridor 0.004) c s x y)
  /\ 1 ^ 2 + 0 ^ 2 = 1
  /\ (forall fuel, ray_march fuel (corridor 0.004) 1 0 0.005 0.002 = Fail OutOfFuel)
  /\ (forall fuel oX oY oth,
        trace_ray fuel (corridor 0.004) 0.005 0.002 0 oX oY oth = Fail OutOfFuel).
Proof.
  split; [apply corridor_map_fits |].
  split; [intros; apply corridor_eventually_zero; [lra | assumption] |].
  split; [lra |].
  split; [exact narrow_corridor_diverges |].
  intros fuel oX oY oth. unfold trace_ray. rewrite round_index_0.
  destruct (corridor_tables_0 0.004) as (Hs & Hc & k & Hk).
  rewrite Hs, Hc, Hk. simpl bind. now rewrite narrow_corridor_diverges.
Qed.

(** ** Two beams in the corridor of unit cells *)

Lemma march_one_step (sim : ScanSimulator2D) (c s x y d total xb yb eb : R) (fuel : nat) :
  d <> 0 ->
  distance_transform sim (x + d * c) (y + d * s) = Done 0 ->
  back_off fuel sim c s (x + d * c) (y + d * s) 0 = Done (xb, yb, eb) ->
  march (S fuel) sim c s x y d total = Done (xb, yb, total + 0 - eb).
Proof.
  intros Hd Hq Hb. simpl march. rewrite (Reqb_false d 0) by assumption.
  rewrite Hq. simpl bind. rewrite Reqb_refl, Hb. reflexivity.
Qed.

Lemma Done_triple (a b c a' b' c' : R) :
  a = a' -> b = b' -> c = c' -> @Done (R * R * R) (a, b, c) = Done (a', b', c').
Proof. now intros -> -> ->. Qed.

Lemma INR_le_const (j n : nat) : (j <= n)%nat -> INR j <= IZR (Z.of_nat n).
Proof. intros H. rewrite <- INR_IZR_INZ. now apply le_INR. Qed.

Lemma INR_ge_1 (j : nat) : (1 <= j)%nat -> 1 <= INR j.
Proof. intros H. apply (le_INR 1 j) in H. simpl in H. exact H. Qed.

(** From the sensor along [+x]: one step of 1 into the
    occupied cell, then 51 back-off steps. *)
Lemma corridor_march_forward (fuel : nat) :
  (52 <= fuel)%nat ->
  ray_march fuel (corridor 1) 1 0 (301 / 200) (1 / 2) = Done (399 / 200, 1 / 2, 49 / 100).
Proof.
  intros Hf. unfold ray_march. rewrite corridor_query_free by lra. simpl bind.
  destruct fuel as [| fuel]; [lia |].
  destruct (back_off_run (corridor 1) 1 0 50 (301 / 200 + 1 * 1) (1 / 2 + 1 * 0) 0 1 fuel)
    as (xb & yb & eb & Hb & Hx & Hy & He).
  - lia.
  - intros j [H1 H2]. apply INR_ge_1 in H1. apply (INR_le_const j 50) in H2. simpl in H2.
    apply corridor_query_blocked; [lra |]. unfold behind; cbn [fst snd]. lra.
  - unfold behind; cbn [fst snd]. rewrite INR_IZR_INZ. cbn [Z.of_nat Pos.of_succ_nat Pos.succ].
    apply corridor_query_free; lra.
  - lra.
  - rewrite (march_one_step _ _ _ _ _ _ _ xb yb eb); try assumption; try lra.
    + unfold behind in Hx, Hy. cbn [fst snd] in Hx, Hy.
      rewrite INR_IZR_INZ in Hx, Hy, He.
      cbn [Z.of_nat Pos.of_succ_nat Pos.succ] in Hx, Hy, He.
      subst. apply Done_triple; lra.
    + apply corridor_query_blocked; lra.
Qed.

(** Along [-x]: one step of 1 into the occupied cell, then 50 back-off
    steps. *)
Lemma corridor_march_backward (fuel : nat) :
  (51 <= fuel)%nat ->
  ray_march fuel (corridor 1) (-1) 0 (301 / 200) (1 / 2) = Done (201 / 200, 1 / 2, 1 / 2).
Proof.
  intros Hf. unfold ray_march. rewrite corridor_query_free by lra. simpl bind.
  destruct fuel as [| fuel]; [lia |].
  destruct (back_off_run (corridor 1) (-1) 0 49 (301 / 200 + 1 * -1) (1 / 2 + 1 * 0) 0 1 fuel)
    as (xb & yb & eb & Hb & Hx & Hy & He).
  - lia.
  - intros j [H1 H2]. apply INR_ge_1 in H1. apply (INR_le_const j 49) in H2. simpl in H2.
    apply corridor_query_blocked; [lra |]. unfold behind; cbn [fst snd]. lra.
  - unfold behind; cbn [fst snd]. rewrite INR_IZR_INZ. cbn [Z.of_nat Pos.of_succ_nat Pos.succ].
    apply corridor_query_free; lra.
  - lra.
  - rewrite (march_one_step _ _ _ _ _ _ _ xb yb eb); try assumption; try lra.
    + unfold behind in Hx, Hy. cbn [fst snd] in Hx, Hy.
      rewrite INR_IZR_INZ in Hx, Hy, He.
      cbn [Z.of_nat Pos.of_succ_nat Pos.succ] in Hx, Hy, He.
      subst. apply Done_triple; lra.
    + apply corridor_query_blocked; lra.
Qed.

(** ** The opponent square *)

Lemma sqrt2_neq_0 : sqrt 2 <> 0.
Proof. pose proof (sqrt_lt_R0 2). lra. Qed.

(** With the opponent heading along [+x], corner 1 is half a side above
    the centre and corner 3 half a side below. *)
Lemma y1_heading_0 (sim : ScanSimulator2D) (oY : R) :
  y1 sim oY 0 = oY + cube_width sim / 2.
Proof.
  unfold y1, center_to_corner. rewrite Rplus_0_r, sin_PI4.
  pose proof sqrt2_neq_0. field. assumption.
Qed.

Lemma y3_heading_0 (sim : ScanSimulator2D) (oY : R) :
  y3 sim oY 0 = oY - cube_width sim / 2.
Proof.
  unfold y3, center_to_corner. rewrite Rplus_0_r.
  replace (5 * PI / 4) with (5 * (PI / 4)) by lra. rewrite sin_5PI4.
  pose proof sqrt2_neq_0. field. assumption.
Qed.

Lemma same_side_axis_false (sim : ScanSimulator2D) (y0 : R) (i : Z) (k b oX oY oth : R) :
  axis_index sim i = true ->
  y3 sim oY oth <= y0 <= y1 sim oY oth ->
  same_side sim y0 i k b oX oY oth = false.
Proof.
  intros Ha [H3 H1]. unfold same_side. cbv zeta. rewrite Ha.
  rewrite (Rltb_false y0 (y3 sim oY oth)) by assumption.
  rewrite (Rltb_false (y1 sim oY oth) y0) by assumption.
  rewrite andb_false_r. reflexivity.
Qed.

(** Distances between points at the same height. *)
Lemma this_to_opponent_level (x0 y0 oX : R) : this_to_opponent x0 y0 oX y0 = Rabs (x0 - oX).
Proof.
  unfold this_to_opponent.
  replace ((x0 - oX) ^ 2 + (y0 - y0) ^ 2) with (Rsqr (x0 - oX)) by (unfold Rsqr; ring).
  apply sqrt_Rsqr_abs.
Qed.

Lemma obstacle_to_opponent_level (x y oX : R) : obstacle_to_opponent x y oX y = Rabs (x - oX).
Proof. apply this_to_opponent_level. Qed.

Lemma Rabs_left_of (a b : R) : a <= b -> Rabs (a - b) = b - a.
Proof. intros H. rewrite Rabs_left1 by lra. ring. Qed.

Lemma Rabs_right_of (a b : R) : b <= a -> Rabs (a - b) = a - b.
Proof. intros H. apply Rabs_right. lra. Qed.

Lemma same_setup_fields (a b : ScanSimulator2D) :
  same_setup a b ->
  sines b = sines a /\ cosines b = cosines a /\ arctanes b = arctanes a
  /\ cube_width b = cube_width a /\ scan_max_range b = scan_max_range a
  /\ theta_discretization b = theta_discretization a /\ threshold b = threshold a
  /\ num_beams b = num_beams a /\ scan_std_dev b = scan_std_dev a.
Proof. intros H. setup_subst H. repeat split. Qed.

Lemma std_min_left (a b : R) : a <= b -> std_min a b = a.
Proof. intros H. unfold std_min. now rewrite Rltb_false. Qed.

Section CorridorBeams.

Variable sim : ScanSimulator2D.
Hypothesis Hsim : same_setup (corridor 1) sim.

Lemma corridor_axis_0 : axis_index sim 0 = true.
Proof. reflexivity. Qed.

Lemma corridor_axis_2 : axis_index sim 2 = true.
Proof.
  destruct (same_setup_fields _ _ Hsim) as (_ & _ & _ & _ & _ & Ed & _).
  unfold axis_index. rewrite Ed. reflexivity.
Qed.

Lemma corridor_trace_forward (fuel : nat) (oX : R) :
  (52 <= fuel)%nat ->
  exists k,
    trace_ray fuel sim (301 / 200) (1 / 2) 0 oX (1 / 2) 0
    = Done (opponent_collision sim (301 / 200) (1 / 2) 0 k (399 / 200) (1 / 2) (49 / 100)
              oX (1 / 2) 0).
Proof.
  intros Hf.
  destruct (same_setup_fields _ _ Hsim) as (Es & Ec & Ek & _).
  destruct (corridor_tables_0 1) as (Hs & Hc & k & Hk).
  exists k.
  pose proof (trace_ray_eval fuel sim (301 / 200) (1 / 2) 0 oX (1 / 2) 0 0 1 k
                (399 / 200) (1 / 2) (49 / 100)) as E.
  rewrite round_index_0, Es, Ec, Ek in E. apply E; try assumption.
  rewrite (same_setup_ray_march (corridor 1) sim) by assumption.
  now apply corridor_march_forward.
Qed.

Lemma corridor_trace_backward (fuel : nat) (oX : R) :
  (51 <= fuel)%nat ->
  exists k,
    trace_ray fuel sim (301 / 200) (1 / 2) 2 oX (1 / 2) 0
    = Done (opponent_collision sim (301 / 200) (1 / 2) 2 k (201 / 200) (1 / 2) (1 / 2) oX (1 / 2) 0).
Proof.
  intros Hf.
  destruct (same_setup_fields _ _ Hsim) as (Es & Ec & Ek & _).
  destruct (corridor_tables_2 1) as (Hs & Hc & k & Hk).
  exists k.
  pose proof (trace_ray_eval fuel sim (301 / 200) (1 / 2) 2 oX (1 / 2) 0 0 (-1) k
                (201 / 200) (1 / 2) (1 / 2)) as E.
  rewrite round_index_2, Es, Ec, Ek in E. apply E; try assumption.
  rewrite (same_setup_ray_march (corridor 1) sim) by assumption.
  now apply corridor_march_backward.
Qed.

(** The beam along [+x] meets an opponent between the sensor and the end
    of the march. *)
Lemma corridor_beam_0_near (fuel : nat) (oX : R) :
  (52 <= fuel)%nat -> 301 / 200 < oX < 399 / 200 ->
  trace_ray fuel sim (301 / 200) (1 / 2) 0 oX (1 / 2) 0
  = Done (oX - 341 / 200, note_opponent sim (oX - 301 / 200)).
Proof.
  intros Hf Ho. destruct (corridor_trace_forward fuel oX Hf) as [k ->].
  destruct (same_setup_fields _ _ Hsim) as (_ & _ & _ & Ew & Em & _).
  change (cube_width (corridor 1)) with (2 / 5) in Ew.
  change (scan_max_range (corridor 1)) with 10 in Em.
  unfold opponent_collision.
  rewrite same_side_axis_false, corridor_axis_0;
    [| exact corridor_axis_0 | rewrite y1_heading_0, y3_heading_0, Ew; lra].
  rewrite this_to_opponent_level, obstacle_to_opponent_level.
  rewrite Rabs_left_of, Rabs_right_of by lra.
  rewrite !Rltb_true by lra.
  rewrite Ew, Em, std_min_left by lra.
  f_equal. f_equal. lra.
Qed.

(** The same beam with the opponent beyond the end of the march. *)
Lemma corridor_beam_0_far (fuel : nat) (oX : R) :
  (52 <= fuel)%nat -> 399 / 200 <= oX ->
  trace_ray fuel sim (301 / 200) (1 / 2) 0 oX (1 / 2) 0 = Done (49 / 100, sim).
Proof.
  intros Hf Ho. destruct (corridor_trace_forward fuel oX Hf) as [k ->].
  destruct (same_setup_fields _ _ Hsim) as (_ & _ & _ & _ & Em & _).
  change (scan_max_range (corridor 1)) with 10 in Em.
  rewrite opponent_collision_unordered.
  - rewrite Em, std_min_left by lra. reflexivity.
  - unfold ordering.
    rewrite (this_to_opponent_level (301 / 200) (1 / 2) oX), (Rabs_left_of (301 / 200) oX) by lra.
    now rewrite Rltb_false by lra.
Qed.

(** The beam along [-x] ends farther from the opponent than it is long. *)
Lemma corridor_beam_2 (fuel : nat) (oX : R) :
  (51 <= fuel)%nat -> 301 / 200 <= oX ->
  trace_ray fuel sim (301 / 200) (1 / 2) 2 oX (1 / 2) 0 = Done (1 / 2, sim).
Proof.
  intros Hf Ho. destruct (corridor_trace_backward fuel oX Hf) as [k ->].
  destruct (same_setup_fields _ _ Hsim) as (_ & _ & _ & _ & Em & _).
  change (scan_max_range (corridor 1)) with 10 in Em.
  rewrite opponent_collision_unordered.
  - rewrite Em, std_min_left by lra. reflexivity.
  - unfold ordering.
    rewrite (obstacle_to_opponent_level (201 / 200) (1 / 2) oX), (Rabs_left_of (201 / 200) oX) by lra.
    rewrite (Rltb_false (oX - 201 / 200)) by lra. apply andb_false_r.
Qed.

End CorridorBeams.

Lemma corridor_next_index (sim : ScanSimulator2D) (fuel : nat) :
  same_setup (corridor 1) sim -> (1 <= fuel)%nat ->
  next_index fuel sim 0 = Done 2 /\ next_index fuel sim 2 = Done 0.
Proof.
  intros H Hf. rewrite !(same_setup_next_index (corridor 1) sim) by assumption.
  destruct fuel as [| fuel]; [lia |].
  split; [apply corridor_next_index_0 | apply corridor_next_index_2].
Qed.

(** The two beams of a scan of the corridor: the range of the beam along
    [+x] and what it leaves of the simulator are [first], the beam along
    [-x] measures 1/2. *)
Lemma corridor_scan_data (sim : ScanSimulator2D) (fuel : nat) (oX r0 : R)
    (sim0 : ScanSimulator2D) :
  same_setup (corridor 1) sim -> (52 <= fuel)%nat -> 301 / 200 <= oX ->
  trace_ray fuel sim (301 / 200) (1 / 2) 0 oX (1 / 2) 0 = Done (r0, sim0) ->
  scan_data fuel sim sensor (opponent_at oX) = Done ([r0; 1 / 2], sim0).
Proof.
  intros H Hf Ho H0.
  pose proof (trace_ray_same_setup _ _ _ _ _ _ _ _ _ _ H0) as S0.
  assert (H' : same_setup (corridor 1) sim0) by (eapply same_setup_trans; eassumption).
  destruct (same_setup_fields _ _ H) as (_ & _ & _ & _ & _ & _ & _ & En & _).
  destruct (same_setup_fields _ _ H') as (_ & _ & _ & _ & _ & _ & _ & _ & Es).
  change (scan_std_dev (corridor 1)) with 0 in Es.
  unfold scan_data. rewrite En. change (Z.to_nat (num_beams (corridor 1))) with 2%nat.
  rewrite (same_setup_start_index (corridor 1) sim) by assumption.
  unfold sensor at 2. rewrite corridor_start_index.
  rewrite scan_loop_S. unfold sensor at 1 2, opponent_at at 1 2 3. cbn [Pose2D.x Pose2D.y Pose2D.theta].
  rewrite H0. cbn [bind]. rewrite add_noise_disabled by lra.
  destruct (corridor_next_index sim0 fuel H') as [N0 N2]; [lia |].
  rewrite N0. cbn [bind].
  rewrite scan_loop_S. unfold sensor at 1 2, opponent_at at 1 2 3. cbn [Pose2D.x Pose2D.y Pose2D.theta].
  rewrite (corridor_beam_2 sim0 H') by (lia || assumption).
  cbn [bind]. rewrite add_noise_disabled by lra.
  rewrite N2. reflexivity.
Qed.

Lemma corridor_scan_data_near (sim : ScanSimulator2D) (fuel : nat) (oX : R) :
  same_setup (corridor 1) sim -> (52 <= fuel)%nat -> 301 / 200 < oX < 399 / 200 ->
  scan_data fuel sim sensor (opponent_at oX)
  = Done ([oX - 341 / 200; 1 / 2], note_opponent sim (oX - 301 / 200)).
Proof.
  intros H Hf Ho. apply corridor_scan_data; try assumption; [lra |].
  now apply corridor_beam_0_near.
Qed.

Lemma corridor_scan_data_far (sim : ScanSimulator2D) (fuel : nat) (oX : R) :
  same_setup (corridor 1) sim -> (52 <= fuel)%nat -> 399 / 200 <= oX ->
  scan_data fuel sim sensor (opponent_at oX) = Done ([49 / 100; 1 / 2], sim).
Proof.
  intros H Hf Ho. apply corridor_scan_data; try assumption; [lra |].
  now apply corridor_beam_0_far.
Qed.

Lemma corridor_scan_near (fuel : nat) (oX : R) (flag : bool) :
  (52 <= fuel)%nat -> 301 / 200 < oX < 399 / 200 ->
  scan fuel (corridor 1) sensor (opponent_at oX) flag
  = Done ([oX - 341 / 200; 1 / 2],
          set_scan_output (set_flags (corridor 1) false flag) [oX - 341 / 200; 1 / 2]).
Proof.
  intros Hf Ho. unfold scan.
  rewrite corridor_scan_data_near; [| auto with setup | assumption | assumption].
  cbn [bind]. f_equal. f_equal. f_equal.
  unfold note_opponent. cbn [flag_can_see_opponent set_flags threshold corridor set_map
                             ScanSimulator2D_new].
  destruct flag; cbn [andb]; [rewrite Rltb_true by lra |]; reflexivity.
Qed.

Lemma corridor_scan_far (fuel : nat) (oX : R) (flag : bool) :
  (52 <= fuel)%nat -> 399 / 200 <= oX ->
  scan fuel (corridor 1) sensor (opponent_at oX) flag
  = Done ([49 / 100; 1 / 2],
          set_scan_output (set_flags (corridor 1) flag false) [49 / 100; 1 / 2]).
Proof.
  intros Hf Ho. unfold scan.
  rewrite corridor_scan_data_far; [reflexivity | auto with setup | assumption | assumption].
Qed.

Lemma corridor_beam_sees_near (sim : ScanSimulator2D) (fuel : nat) (oX : R) :
  same_setup (corridor 1) sim -> (52 <= fuel)%nat -> 301 / 200 < oX < 399 / 200 ->
  beam_sees fuel sim (301 / 200) (1 / 2) 0 oX (1 / 2) 0 = true.
Proof.
  intros H Hf Ho. unfold beam_sees. rewrite round_index_0.
  destruct (same_setup_fields _ _ H) as (Es & Ec & Ek & Ew & _).
  change (cube_width (corridor 1)) with (2 / 5) in Ew.
  destruct (corridor_tables_0 1) as (Hs & Hc & k & Hk).
  rewrite Es, Ec, Ek, Hs, Hc, Hk.
  rewrite (same_setup_ray_march (corridor 1) sim), corridor_march_forward by assumption.
  rewrite same_side_axis_false;
    [| reflexivity | rewrite y1_heading_0, y3_heading_0, Ew; lra].
  unfold ordering.
  rewrite (this_to_opponent_level (301 / 200) (1 / 2) oX), (Rabs_left_of (301 / 200) oX) by lra.
  rewrite (obstacle_to_opponent_level (399 / 200) (1 / 2) oX),
    (Rabs_right_of (399 / 200) oX) by lra.
  now rewrite !Rltb_true by lra.
Qed.

Lemma corridor_beam_sees_far (sim : ScanSimulator2D) (fuel : nat) (oX : R) :
  same_setup (corridor 1) sim -> (52 <= fuel)%nat -> 399 / 200 <= oX ->
  beam_sees fuel sim (301 / 200) (1 / 2) 0 oX (1 / 2) 0 = false
  /\ beam_sees fuel sim (301 / 200) (1 / 2) 2 oX (1 / 2) 0 = false.
Proof.
  intros H Hf Ho. unfold beam_sees. rewrite round_index_0, round_index_2.
  destruct (same_setup_fields _ _ H) as (Es & Ec & Ek & _).
  destruct (corridor_tables_0 1) as (Hs & Hc & k & Hk).
  destruct (corridor_tables_2 1) as (Hs2 & Hc2 & k2 & Hk2).
  rewrite Es, Ec, Ek, Hs, Hc, Hk, Hs2, Hc2, Hk2.
  rewrite !(same_setup_ray_march (corridor 1) sim) by assumption.
  rewrite corridor_march_forward, corridor_march_backward by lia.
  unfold ordering.
  rewrite (this_to_opponent_level (301 / 200) (1 / 2) oX), (Rabs_left_of (301 / 200) oX) by lra.
  rewrite (obstacle_to_opponent_level (201 / 200) (1 / 2) oX), (Rabs_left_of (201 / 200) oX) by lra.
  rewrite (Rltb_false (oX - 301 / 200) (49 / 100)), (Rltb_false (oX - 201 / 200) (1 / 2)) by lra.
  cbn [andb]. now rewrite !andb_false_r.
Qed.

Lemma after_sighting_setup : same_setup (corridor 1) after_sighting.
Proof. unfold after_sighting. repeat eexists. Qed.

(** In a corridor of cells 0.008 wide the step forward is shorter than the
    back-off step that follows it: the total of the march is negative. *)
Lemma short_march_negative (fuel : nat) :
  (2 <= fuel)%nat ->
  ray_march fuel (corridor 0.008) 1 0 0.012 0.004 = Done (0.01, 0.004, - 0.002).
Proof.
  intros Hf. unfold ray_march. rewrite corridor_query_free by lra. cbn [bind].
  destruct fuel as [| fuel]; [lia |].
  destruct (back_off_run (corridor 0.008) 1 0 0 (0.012 + 0.008 * 1) (0.004 + 0.008 * 0)
              0 0.008 fuel) as (xb & yb & eb & Hb & Hx & Hy & He).
  - lia.
  - intros j Hj. lia.
  - unfold behind; cbn [fst snd INR]. apply corridor_query_free; lra.
  - lra.
  - rewrite (march_one_step _ _ _ _ _ _ _ xb yb eb); try assumption; try lra.
    + unfold behind in Hx, Hy. cbn [fst snd INR] in Hx, Hy, He.
      subst. apply Done_triple; lra.
    + apply corridor_query_blocked; lra.
Qed.

Lemma short_beam_negative (fuel : nat) (oX oY oth : R) :
  (2 <= fuel)%nat ->
  trace_ray fuel (corridor 0.008) 0.012 0.004 0 oX oY oth = Done (- 0.002, corridor 0.008).
Proof.
  intros Hf.
  destruct (corridor_tables_0 0.008) as (Hs & Hc & k & Hk).
  pose proof (trace_ray_eval fuel (corridor 0.008) 0.012 0.004 0 oX oY oth 0 1 k
                0.01 0.004 (- 0.002)) as E.
  rewrite round_index_0 in E. rewrite E by (assumption || now apply short_march_negative).
  rewrite opponent_collision_unordered.
  - change (scan_max_range (corridor 0.008)) with 10. rewrite std_min_left by lra. reflexivity.
  - unfold ordering. rewrite Rltb_false; [reflexivity |].
    pose proof (sqrt_pos ((0.012 - oX) ^ 2 + (0.004 - oY) ^ 2)).
    unfold this_to_opponent. lra.
Qed.

(** ** Marches whose total is not negative *)

(** The correction loop steps back no farther than the first point behind
    where the distance is not 0. *)
Lemma back_off_error_bound (sim : ScanSimulator2D) (c s : R) (fuel : nat) :
  forall (K : nat) (x y e d xb yb eb : R),
    (1 <= K)%nat ->
    distance_transform sim (fst (behind K c s x y)) (snd (behind K c s x y)) = Done d ->
    d <> 0 ->
    back_off fuel sim c s x y e = Done (xb, yb, eb) ->
    eb <= e + INR K * 0.01.
Proof.
  induction fuel as [| fuel IH]; intros K x y e d xb yb eb HK Hd Hn H; [discriminate |].
  simpl back_off in H. apply bind_Done in H. destruct H as (d1 & H1 & H).
  assert (HK1 : 1 <= INR K) by now apply INR_ge_1.
  destruct (Req_dec_T d1 0) as [-> | Hd1].
  - rewrite Reqb_refl in H.
    destruct K as [| [| K]]; [lia | |].
    + exfalso. apply Hn.
      assert (E : Done d = Done 0); [| now injection E].
      rewrite <- Hd, <- H1. apply distance_transform_ext; unfold behind; simpl; lra.
    + rewrite <- behind_step in Hd.
      pose proof (IH (S K) _ _ _ d xb yb eb ltac:(lia) Hd Hn H) as B.
      rewrite (S_INR (S K)). lra.
  - rewrite (Reqb_false d1 0) in H by assumption. injection H as _ _ <-. nra.
Qed.

(** In a corridor whose cells are a whole number of back-off steps wide no
    march has a negative total. *)
Lemma corridor_march_nonneg (m : nat) (r c s : R) (fuel : nat) :
  0 < r -> r = INR m * 0.01 -> (1 <= m)%nat ->
  forall x y total xe ye t,
    distance_transform (corridor r) x y = Done r ->
    r <= total ->
    march fuel (corridor r) c s x y r total = Done (xe, ye, t) ->
    0 <= t.
Proof.
  intros Hr Hm Hm1. induction fuel as [| fuel IH]; intros x y total xe ye t Hq Ht H;
    simpl march in H; rewrite (Reqb_false r 0) in H by lra; [discriminate |].
  apply bind_Done in H. destruct H as (d1 & H1 & H).
  destruct (Req_dec_T d1 0) as [-> | Hd1].
  - rewrite Reqb_refl in H.
    apply bind_Done in H. destruct H as ([[xb yb] eb] & Hb & H). injection H as _ _ <-.
    assert (B : eb <= 0 + INR m * 0.01).
    { apply (back_off_error_bound (corridor r) c s fuel m (x + r * c) (y + r * s) 0 r
               xb yb eb Hm1); [| lra | exact Hb].
      rewrite <- Hq. apply distance_transform_ext; unfold behind; cbn [fst snd]; rewrite <- Hm; lra. }
    lra.
  - rewrite (Reqb_false d1 0) in H by assumption.
    assert (E : d1 = r).
    { assert (D : {r <= x + r * c < 2 * r /\ 0 <= y + r * s < r}
                  + {~ (r <= x + r * c < 2 * r /\ 0 <= y + r * s < r)}).
      { destruct (Rle_dec r (x + r * c)), (Rlt_dec (x + r * c) (2 * r)),
          (Rle_dec 0 (y + r * s)), (Rlt_dec (y + r * s) r);
          try (left; lra); right; lra. }
      destruct D as [[Hx Hy] | Hb].
      - rewrite corridor_query_free in H1 by assumption. now injection H1.
      - rewrite corridor_query_blocked in H1 by assumption. injection H1 as <-. contradiction. }
    subst d1. apply (IH _ _ _ _ _ _ H1) in H; [assumption | lra].
Qed.

Lemma corridor_ray_march_nonneg (m : nat) (r c s : R) (fuel : nat) (x y xe ye t : R) :
  0 < r -> r = INR m * 0.01 -> (1 <= m)%nat ->
  ray_march fuel (corridor r) c s x y = Done (xe, ye, t) -> 0 <= t.
Proof.
  intros Hr Hm Hm1 H. unfold ray_march in H.
  apply bind_Done in H. destruct H as (d & Hd & H).
  assert (D : {r <= x < 2 * r /\ 0 <= y < r} + {~ (r <= x < 2 * r /\ 0 <= y < r)}).
  { destruct (Rle_dec r x), (Rlt_dec x (2 * r)), (Rle_dec 0 y), (Rlt_dec y r);
      try (left; lra); right; lra. }
  destruct D as [[Hx Hy] | Hb].
  - rewrite corridor_query_free in Hd by assumption. injection Hd as <-.
    apply (corridor_march_nonneg m r c s fuel Hr Hm Hm1 x y r xe ye t); try assumption; try lra.
    now apply corridor_query_free.
  - rewrite corridor_query_blocked in Hd by assumption. injection Hd as <-.
    destruct fuel; simpl in H; rewrite Reqb_refl in H; injection H as _ _ <-; lra.
Qed.

Lemma unit_corridor_march_nonneg (fuel : nat) (c s x y xe ye t : R) :
  ray_march fuel (corridor 1) c s x y = Done (xe, ye, t) -> 0 <= t.
Proof.
  apply (corridor_ray_march_nonneg 100); [lra | | lia].
  rewrite INR_IZR_INZ. cbn [Z.of_nat Pos.of_succ_nat Pos.succ]. lra.
Qed.

(** ** The claims at concrete inputs *)

(** C1, counterexample.  With noise disabled, a sensor 0.095 away from the
    centre of an opponent 0.4 wide reads a negative range on the beam that
    crosses it: the vertical branch returns 0.095 - 0.2.  And in a corridor
    of cells 0.008 wide the marched branch returns 0.008 - 0.01, wherever
    the opponent is. *)
Lemma scan_range_may_be_negative :
  scan_std_dev (corridor 1) = 0
  /\ scan 60 (corridor 1) sensor (opponent_at (8 / 5)) false
     = Done ([8 / 5 - 341 / 200; 1 / 2],
             set_scan_output (set_flags (corridor 1) false false) [8 / 5 - 341 / 200; 1 / 2])
  /\ 8 / 5 - 341 / 200 < 0
  /\ ~ Forall (fun r => 0 <= r <= scan_max_range (corridor 1)) [8 / 5 - 341 / 200; 1 / 2]
  /\ trace_ray 60 (corridor 0.008) 0.012 0.004 0 3 (1 / 2) 0
     = Done (- 0.002, corridor 0.008)
  /\ - 0.002 < 0.
Proof.
  split; [reflexivity |].
  split; [apply corridor_scan_near; [lia | lra] |].
  split; [lra |].
  split; [intros H; inversion H as [| r l [H0 _] _]; lra |].
  split; [apply short_beam_negative; lia | lra].
Qed.

Lemma corridor_clear_of_opponent :
  cube_width (corridor 1) / 2
  <= this_to_opponent (Pose2D.x sensor) (Pose2D.y sensor)
       (Pose2D.x (opponent_at 3)) (Pose2D.y (opponent_at 3)).
Proof.
  cbn [sensor opponent_at Pose2D.x Pose2D.y].
  rewrite (this_to_opponent_level (301 / 200) (1 / 2) 3), (Rabs_left_of (301 / 200) 3) by lra.
  change (cube_width (corridor 1)) with (2 / 5). lra.
Qed.

Lemma scan_output_bounds_witness :
  scan_std_dev (corridor 1) = 0
  /\ scan 60 (corridor 1) sensor (opponent_at 3) false
     = Done ([49 / 100; 1 / 2],
             set_scan_output (set_flags (corridor 1) false false) [49 / 100; 1 / 2])
  /\ Forall (fun r => r <= scan_max_range (corridor 1)) [49 / 100; 1 / 2]
  /\ Forall (fun r => 0 <= r <= scan_max_range (corridor 1)) [49 / 100; 1 / 2].
Proof.
  assert (Hs : scan_std_dev (corridor 1) = 0) by reflexivity.
  assert (H : scan 60 (corridor 1) sensor (opponent_at 3) false
              = Done ([49 / 100; 1 / 2],
                      set_scan_output (set_flags (corridor 1) false false) [49 / 100; 1 / 2]))
    by (apply corridor_scan_far; [lia | lra]).
  assert (Hm : 0 <= scan_max_range (corridor 1))
    by (change (scan_max_range (corridor 1)) with 10; lra).
  split; [exact Hs |]. split; [exact H |].
  split.
  - exact (proj1 (scan_output_bounds 60 (corridor 1) _ sensor (opponent_at 3) false _ Hs H)).
  - exact (proj2 (scan_output_bounds 60 (corridor 1) _ sensor (opponent_at 3) false _ Hs H)
             Hm corridor_clear_of_opponent
             (fun c s xe ye total => unit_corridor_march_nonneg 60 c s _ _ xe ye total)).
Defined.

Lemma scan_deterministic_without_noise_witness :
  scan_std_dev (corridor 1) = 0
  /\ same_setup (corridor 1) after_sighting
  /\ (forall out s1,
        scan 60 (corridor 1) sensor (opponent_at (9 / 5)) true = Done (out, s1) ->
        noise_generator s1 = noise_generator (corridor 1)
        /\ exists s2, scan 60 after_sighting sensor (opponent_at (9 / 5)) false = Done (out, s2)).
Proof.
  assert (Hs : scan_std_dev (corridor 1) = 0) by reflexivity.
  split; [exact Hs |]. split; [exact after_sighting_setup |].
  exact (proj1 (scan_deterministic_without_noise 60 (corridor 1) after_sighting
                  sensor (opponent_at (9 / 5)) true false Hs after_sighting_setup)).
Defined.

Lemma corridor_forward_1 : forward 1 (corridor 1) 1 0 (301 / 200) (1 / 2) = Done (501 / 200, 1 / 2, 0).
Proof.
  simpl forward. rewrite corridor_query_free by lra. cbn [bind].
  rewrite corridor_query_blocked by lra. cbn [bind].
  apply Done_triple; lra.
Qed.

Lemma corridor_back_off_meets : back_off_meets (corridor 1) 1 0 (501 / 200) (1 / 2).
Proof.
  exists 50%nat, 1. unfold behind; cbn [fst snd]. rewrite INR_IZR_INZ.
  cbn [Z.of_nat Pos.of_succ_nat Pos.succ].
  split; [apply corridor_query_free; lra | lra].
Qed.

Lemma ray_march_terminates_witness :
  map_fits (corridor 1)
  /\ forward 1 (corridor 1) 1 0 (301 / 200) (1 / 2) = Done (501 / 200, 1 / 2, 0)
  /\ (1%nat = 0%nat \/ back_off_meets (corridor 1) 1 0 (501 / 200) (1 / 2))
  /\ exists fuel0, forall fuel, (fuel0 <= fuel)%nat ->
       exists xb yb total,
         ray_march fuel (corridor 1) 1 0 (301 / 200) (1 / 2) = Done (xb, yb, total).
Proof.
  split; [exact (corridor_map_fits 1) |]. split; [exact corridor_forward_1 |].
  split; [right; exact corridor_back_off_meets |].
  exact (ray_march_terminates (corridor 1) 1 0 (301 / 200) (1 / 2) 1 (501 / 200) (1 / 2)
           (corridor_map_fits 1) corridor_forward_1 (or_intror corridor_back_off_meets)).
Defined.

Lemma corridor_lookups_2 :
  lookup BadTableIndex (sines (corridor 1)) (round_index 2) = Done 0
  /\ lookup BadTableIndex (cosines (corridor 1)) (round_index 2) = Done (-1)
  /\ lookup BadTableIndex (arctanes (corridor 1)) (round_index 2)
     = Done (1 / tan (slot_theta 4 2)).
Proof.
  rewrite round_index_2.
  destruct (corridor_tables_2 1) as (Hs & Hc & _).
  destruct (constructed_lookups (corridor 1) 2 (corridor_constructed 1)) as (_ & _ & Hk).
  { cbn. lia. }
  auto.
Qed.

Lemma corridor_unordered_2 :
  ~ (this_to_opponent (301 / 200) (1 / 2) (9 / 5) (1 / 2) < 1 / 2
     /\ obstacle_to_opponent (201 / 200) (1 / 2) (9 / 5) (1 / 2) < 1 / 2).
Proof.
  rewrite (obstacle_to_opponent_level (201 / 200) (1 / 2) (9 / 5)), (Rabs_left_of (201 / 200) (9 / 5)) by lra.
  lra.
Qed.

Lemma opponent_replaces_only_when_ordered_witness :
  (lookup BadTableIndex (sines (corridor 1)) (round_index 2) = Done 0
   /\ lookup BadTableIndex (cosines (corridor 1)) (round_index 2) = Done (-1)
   /\ lookup BadTableIndex (arctanes (corridor 1)) (round_index 2)
      = Done (1 / tan (slot_theta 4 2)))
  /\ ray_march 60 (corridor 1) (-1) 0 (301 / 200) (1 / 2) = Done (201 / 200, 1 / 2, 1 / 2)
  /\ ~ (this_to_opponent (301 / 200) (1 / 2) (9 / 5) (1 / 2) < 1 / 2
        /\ obstacle_to_opponent (201 / 200) (1 / 2) (9 / 5) (1 / 2) < 1 / 2)
  /\ trace_ray 60 (corridor 1) (301 / 200) (1 / 2) 2 (9 / 5) (1 / 2) 0
     = Done (Rmin (1 / 2) (scan_max_range (corridor 1)), corridor 1).
Proof.
  assert (Hm : ray_march 60 (corridor 1) (-1) 0 (301 / 200) (1 / 2) = Done (201 / 200, 1 / 2, 1 / 2))
    by (apply corridor_march_backward; lia).
  split; [exact corridor_lookups_2 |]. split; [exact Hm |].
  split; [exact corridor_unordered_2 |].
  destruct corridor_lookups_2 as (Hs & Hc & Hk).
  exact (opponent_replaces_only_when_ordered 60 (corridor 1) (301 / 200) (1 / 2) 2
           (9 / 5) (1 / 2) 0 0 (-1) (1 / tan (slot_theta 4 2)) (201 / 200) (1 / 2) (1 / 2)
           Hs Hc Hk Hm corridor_unordered_2).
Defined.

Lemma corridor_sighting (flag : bool) :
  scan 60 (corridor 1) sensor (opponent_at (9 / 5)) flag
  = Done ([9 / 5 - 341 / 200; 1 / 2],
          set_scan_output (set_flags (corridor 1) false flag) [9 / 5 - 341 / 200; 1 / 2]).
Proof. apply corridor_scan_near; [lia | lra]. Qed.

Lemma corridor_within_threshold :
  this_to_opponent (Pose2D.x sensor) (Pose2D.y sensor)
    (Pose2D.x (opponent_at (9 / 5))) (Pose2D.y (opponent_at (9 / 5)))
  < threshold (corridor 1).
Proof.
  cbn [sensor opponent_at Pose2D.x Pose2D.y].
  rewrite (this_to_opponent_level (301 / 200) (1 / 2) (9 / 5)), (Rabs_left_of (301 / 200) (9 / 5)) by lra.
  change (threshold (corridor 1)) with 5. lra.
Qed.

Lemma corridor_first_beam_sees :
  exists i ti, (i < Z.to_nat (num_beams (corridor 1)))%nat
    /\ beam_index 60 (corridor 1) (start_index (corridor 1) sensor) i = Done ti
    /\ beam_sees 60 (corridor 1) (Pose2D.x sensor) (Pose2D.y sensor) ti
         (Pose2D.x (opponent_at (9 / 5))) (Pose2D.y (opponent_at (9 / 5)))
         (Pose2D.theta (opponent_at (9 / 5))) = true.
Proof.
  exists 0%nat, 0. split; [cbn; lia |]. split.
  - unfold sensor. now rewrite corridor_start_index.
  - cbn [sensor opponent_at Pose2D.x Pose2D.y Pose2D.theta].
    apply corridor_beam_sees_near; [auto with setup | lia | lra].
Qed.

Lemma visibility_after_scan_witness :
  scan 60 (corridor 1) sensor (opponent_at (9 / 5)) true
  = Done ([9 / 5 - 341 / 200; 1 / 2], after_sighting)
  /\ see_opponent after_sighting = true.
Proof.
  split; [exact (corridor_sighting true) |].
  exact (proj1 (proj2 (visibility_after_scan 60 (corridor 1) after_sighting sensor
                         (opponent_at (9 / 5)) true _ (corridor_sighting true)))
           eq_refl corridor_within_threshold corridor_first_beam_sees).
Defined.



(** ** A negative field of view *)

Lemma backward_sweep_constructed : constructed backward_sweep.
Proof. apply set_map_constructed, new_constructed. Qed.

Lemma backward_sweep_map_fits : map_fits backward_sweep.
Proof. unfold map_fits, sizes_fit. cbn. lia. Qed.

Lemma backward_sweep_outside : outside_map backward_sweep 5 5 = true.
Proof.
  apply outside_map_true. right. left.
  assert (E : x_rot backward_sweep 5 5 = 5).
  { unfold x_rot, backward_sweep, set_map. cbn. rewrite cos_0, sin_0. ring. }
  rewrite E. change (IZR (width backward_sweep) * resolution backward_sweep) with (3 * 1).
  lra.
Qed.

Lemma backward_sweep_start (x y : R) : start_index backward_sweep (Pose2D.mk x y 0) = 2.
Proof.
  unfold start_index. cbn [Pose2D.theta].
  change (theta_discretization backward_sweep) with 4%Z.
  change (field_of_view backward_sweep) with (- (2 * PI)).
  replace (4 * (0 - - (2 * PI) / 2) / (2 * PI)) with 2
    by (pose proof PI_RGT_0; field; lra).
  unfold fmod. replace (2 / 4) with (1 / 2) by lra.
  rewrite (Rtrunc_eq 0 (1 / 2)) by (simpl; lra).
  replace (2 - 0 * 4) with 2 by lra.
  now rewrite Rltb_false by lra.
Qed.

Lemma backward_sweep_increment : theta_index_increment backward_sweep = -4.
Proof. cbn. pose proof PI_RGT_0. field. lra. Qed.

Lemma backward_sweep_next (fuel : nat) (sim : ScanSimulator2D) :
  same_setup backward_sweep sim -> next_index fuel sim 2 = Done (-2).
Proof.
  intros H. rewrite (same_setup_next_index backward_sweep sim) by assumption.
  unfold next_index. rewrite backward_sweep_increment.
  change (theta_discretization backward_sweep) with 4%Z.
  replace (2 + -4) with (-2) by lra.
  destruct fuel; simpl; now rewrite Rleb_false by lra.
Qed.

Lemma round_index_minus_2 : round_index (-2) = (-1)%Z.
Proof.
  unfold round_index. rewrite Rtrunc_neg by lra.
  unfold Zceil. replace (- (-2 + 0.5)) with (3 / 2) by lra.
  rewrite (Zfloor_eq 1 (3 / 2)) by (simpl; lra). reflexivity.
Qed.

Lemma backward_sweep_scan (fuel : nat) (opp : Pose2D.t) (flag : bool) :
  scan fuel backward_sweep (Pose2D.mk 5 5 0) opp flag = Fail BadTableIndex.
Proof.
  unfold scan, scan_data.
  change (num_beams (set_flags backward_sweep flag false)) with 2%Z.
  change (start_index (set_flags backward_sweep flag false) (Pose2D.mk 5 5 0))
    with (start_index backward_sweep (Pose2D.mk 5 5 0)).
  rewrite backward_sweep_start. change (Z.to_nat 2) with 2%nat.
  rewrite scan_loop_S. cbn [Pose2D.x Pose2D.y Pose2D.theta].
  rewrite trace_ray_outside;
    [| exact backward_sweep_constructed | cbn; lia | cbn; lra
     | exact backward_sweep_map_fits | exact backward_sweep_outside].
  cbn [bind]. rewrite add_noise_disabled by (cbn; lra).
  rewrite backward_sweep_next by auto with setup.
  cbn [bind]. rewrite scan_loop_S.
  unfold trace_ray. rewrite round_index_minus_2. reflexivity.
Qed.


(** * Rounding at the border of the map *)

(** C6. The query is not total in binary64.  On a strip 17 cells wide of
    cells 0.05 wide, one row high, the point with [x = 0.85] is inside the
    map: the test of line 333 passes it, since [17 * 0.05] is rounded to
    0.8500000000000001, and the exact quotient of [x] by the resolution is
    below 17.  But line 341 rounds the quotient to 17.0, the column is 17,
    which is the width, the cell is 17, which is the length of the field,
    and line 309 reads past the end of the field.  On the strip two rows
    high the same query has row 0 and reads cell 17, the first cell of
    row 1, where the field holds 2, while every cell of row 0 holds 1. *)
Theorem distance_transform_reads_past_the_field :
  Double.outside_map (Double.strip 1) Double.border_x Double.border_y = false
  /\ Double.exact_floor_quotient Double.border_x (Double.resolution (Double.strip 1))
     = Some 16%Z
  /\ Double.xy_to_row_col (Double.strip 1) Double.border_x Double.border_y = (0%Z, 17%Z)
  /\ Double.width (Double.strip 1) = 17%Z
  /\ Double.xy_to_cell (Double.strip 1) Double.border_x Double.border_y
     = Z.of_nat (length (Double.dt (Double.strip 1)))
  /\ Double.distance_transform (Double.strip 1) Double.border_x Double.border_y
     = Fail BadCellIndex
  /\ Double.xy_to_row_col (Double.strip 2) Double.border_x Double.border_y = (0%Z, 17%Z)
  /\ Double.distance_transform (Double.strip 2) Double.border_x Double.border_y
     = Done (Double.of_Z 2)
  /\ (forall col, (col < 17)%nat ->
        nth_error (Double.dt (Double.strip 2)) col = Some (Double.of_Z 1)).
Proof.
  repeat (split; [vm_compute; reflexivity |]).
  intros col H.
  do 17 (destruct col as [| col]; [vm_compute; reflexivity |]). lia.
Qed.

(** * Further properties of the code *)

(** ** Map ingestion *)

Lemma threshold_into_spec (thr : R) (map_ : list R) :
  forall dt_,
    threshold_into thr map_ dt_
    = if (length map_ <=? length dt_)%nat
      then Done (map (threshold_cell thr) map_ ++ skipn (length map_) dt_)
      else Fail BadCellIndex.
Proof.
  induction map_ as [| v map_ IH]; intros dt_; [reflexivity |].
  destruct dt_ as [| d dt_]; [reflexivity |].
  simpl threshold_into. rewrite IH. simpl length. simpl skipn.
  change (S (length map_) <=? S (length dt_))%nat with (length map_ <=? length dt_)%nat.
  destruct (length map_ <=? length dt_)%nat; reflexivity.
Qed.

(** X1. The in-place thresholding succeeds exactly when the map is no longer
    than the distance field; it then replaces the first [map.size ()]
    entries by 99999 (occupancy in [[0, free_threshold]]) or 0, keeps the
    entries behind them as they were, and keeps the length; a longer map
    writes out of range. *)
Theorem threshold_into_prefix (thr : R) (map_ dt_ : list R) :
  ((length map_ <= length dt_)%nat ->
   exists out,
     threshold_into thr map_ dt_ = Done out
     /\ length out = length dt_
     /\ firstn (length map_) out = map (threshold_cell thr) map_
     /\ skipn (length map_) out = skipn (length map_) dt_
     /\ Forall (fun v => v = 0 \/ v = 99999) (firstn (length map_) out))
  /\ ((length dt_ < length map_)%nat -> threshold_into thr map_ dt_ = Fail BadCellIndex).
Proof.
  rewrite threshold_into_spec. split; intros H.
  - destruct (Nat.leb_spec (length map_) (length dt_)); [| lia].
    eexists. split; [reflexivity |].
    assert (L : length (map (threshold_cell thr) map_) = length map_) by apply length_map.
    split; [| split; [| split]].
    + rewrite length_app, L, length_skipn. lia.
    + rewrite <- L at 1. rewrite firstn_app, Nat.sub_diag, firstn_all. simpl.
      apply app_nil_r.
    + rewrite <- L at 1. rewrite skipn_app, Nat.sub_diag, skipn_all. reflexivity.
    + rewrite <- L at 1. rewrite firstn_app, Nat.sub_diag, firstn_all. simpl.
      rewrite app_nil_r. apply Forall_forall. intros v Hv.
      apply in_map_iff in Hv. destruct Hv as (u & <- & _).
      unfold threshold_cell. destruct (_ && _); auto.
  - destruct (Nat.leb_spec (length map_) (length dt_)); [lia | reflexivity].
Qed.

Lemma threshold_into_prefix_witness :
  ((length [1; 0] <= length [7; 8; 9])%nat
   /\ exists out,
     threshold_into (1 / 2) [1; 0] [7; 8; 9] = Done out
     /\ length out = length [7; 8; 9]
     /\ firstn (length [1; 0]) out = map (threshold_cell (1 / 2)) [1; 0]
     /\ skipn (length [1; 0]) out = skipn (length [1; 0]) [7; 8; 9]
     /\ Forall (fun v => v = 0 \/ v = 99999) (firstn (length [1; 0]) out))
  /\ ((length [7] < length [1; 0])%nat
      /\ threshold_into (1 / 2) [1; 0] [7] = Fail BadCellIndex).
Proof.
  assert (H1 : (length [1; 0] <= length [7; 8; 9])%nat) by (simpl; lia).
  assert (H2 : (length [7] < length [1; 0])%nat) by (simpl; lia).
  split.
  - split; [exact H1 |].
    exact (proj1 (threshold_into_prefix (1 / 2) [1; 0] [7; 8; 9]) H1).
  - split; [exact H2 |].
    exact (proj2 (threshold_into_prefix (1 / 2) [1; 0] [7]) H2).
Defined.

(** X2. After a full ingestion, ingesting a map of the same length in place
    gives the simulator a full ingestion of that map with the same geometry
    gives, provided the distance transform keeps the length of the grid. *)
Theorem set_map_values_after_set_map
    (distance_2d : list R -> Z -> Z -> R -> list R) (sim0 : ScanSimulator2D)
    (map0 map1 : list R) (height_ width_ : Z) (resolution_ : R) (origin_ : Pose2D.t)
    (thr0 thr1 : R) :
  (forall l w h r, length (distance_2d l w h r) = length l) ->
  length map1 = length map0 ->
  set_map_values distance_2d
    (set_map distance_2d sim0 map0 height_ width_ resolution_ origin_ thr0) map1 thr1
  = Done (set_map distance_2d sim0 map1 height_ width_ resolution_ origin_ thr1).
Proof.
  intros Hd Hl. unfold set_map_values. rewrite threshold_into_spec.
  cbn [dt set_map width height resolution].
  rewrite Hd, length_map, Hl, Nat.leb_refl. cbn [bind].
  rewrite skipn_all2 by (rewrite Hd, length_map; lia).
  rewrite app_nil_r. reflexivity.
Qed.

Lemma adjacent_distance_2d_length (l : list R) (w h : Z) (r : R) :
  length (adjacent_distance_2d l w h r) = length l.
Proof. apply length_map. Qed.

Lemma set_map_values_after_set_map_witness :
  (forall l w h r, length (adjacent_distance_2d l w h r) = length l)
  /\ length [0; 1; 1] = length [1; 0; 1]
  /\ set_map_values adjacent_distance_2d (corridor 1) [0; 1; 1] (1 / 2)
     = Done (set_map adjacent_distance_2d
               (ScanSimulator2D_new blank (mkGen (fun n => INR n) 0) 2 PI 0 10 (2 / 5) 0 4)
               [0; 1; 1] 1 3 1 (Pose2D.mk 0 0 0) (1 / 2)).
Proof.
  split; [exact adjacent_distance_2d_length |]. split; [reflexivity |].
  exact (set_map_values_after_set_map adjacent_distance_2d
           (ScanSimulator2D_new blank (mkGen (fun n => INR n) 0) 2 PI 0 10 (2 / 5) 0 4)
           [1; 0; 1] [0; 1; 1] 1 3 1 (Pose2D.mk 0 0 0) (1 / 2) (1 / 2)
           adjacent_distance_2d_length eq_refl).
Defined.

(** X3. A full ingestion of a map with one entry per cell, with sizes that
    fit in an [int] and a distance transform that keeps the length of the
    grid, leaves a simulator whose distance field has one entry per cell
    and on which a query that the test of line 333 places outside the map
    returns 0 without reading the field; the cached cosine and sine of the
    origin's heading form a unit vector. *)
Theorem set_map_then_query
    (distance_2d : list R -> Z -> Z -> R -> list R) (sim0 : ScanSimulator2D)
    (map_ : list R) (height_ width_ : Z) (resolution_ : R) (origin_ : Pose2D.t)
    (free_threshold : R) :
  (forall l w h r, length (distance_2d l w h r) = length l) ->
  (0 <= width_)%Z -> (0 <= height_)%Z ->
  (width_ * height_ < 2 ^ 31)%Z -> (width_ < 2 ^ 31)%Z ->
  Z.of_nat (length map_) = (width_ * height_)%Z ->
  let sim := set_map distance_2d sim0 map_ height_ width_ resolution_ origin_ free_threshold in
  map_fits sim
  /\ origin_c sim ^ 2 + origin_s sim ^ 2 = 1
  /\ forall x y,
       outside_map sim x y = true ->
       (xy_to_cell sim x y < 0)%Z /\ distance_transform sim x y = Done 0.
Proof.
  intros Hd Hw Hh Hc Hs Hl sim.
  assert (Hfit : map_fits sim).
  { split; [repeat split; assumption |].
    unfold sim. cbn [dt set_map width height]. now rewrite Hd, length_map. }
  split; [exact Hfit |]. split.
  - unfold sim. cbn [origin_c origin_s set_map].
    pose proof (sin2_cos2 (Pose2D.theta origin_)) as E. unfold Rsqr in E. lra.
  - intros x y Ho. split; [| now apply distance_transform_outside].
    rewrite (xy_to_cell_outside sim x y (proj1 Hfit) Ho).
    unfold sim. cbn [width set_map]. lia.
Qed.

Lemma set_map_then_query_witness :
  (forall l w h r, length (adjacent_distance_2d l w h r) = length l)
  /\ ((0 <= 3)%Z /\ (0 <= 1)%Z /\ (3 * 1 < 2 ^ 31)%Z /\ (3 < 2 ^ 31)%Z)
  /\ Z.of_nat (length [1; 0; 1]) = (3 * 1)%Z
  /\ map_fits (corridor 1)
  /\ origin_c (corridor 1) ^ 2 + origin_s (corridor 1) ^ 2 = 1
  /\ forall x y,
       outside_map (corridor 1) x y = true ->
       (xy_to_cell (corridor 1) x y < 0)%Z /\ distance_transform (corridor 1) x y = Done 0.
Proof.
  split; [exact adjacent_distance_2d_length |].
  split; [lia |]. split; [reflexivity |].
  exact (set_map_then_query adjacent_distance_2d
           (ScanSimulator2D_new blank (mkGen (fun n => INR n) 0) 2 PI 0 10 (2 / 5) 0 4)
           [1; 0; 1] 1 3 1 (Pose2D.mk 0 0 0) (1 / 2)
           adjacent_distance_2d_length ltac:(lia) ltac:(lia) ltac:(lia) ltac:(lia) eq_refl).
Defined.

(** ** Cells *)

(** X4. On a map whose sizes fit, two cells of the map with the same index
    are the same cell, the index of a cell gives back its row and column by
    division by the width, and no cell of the map has the index of the
    sentinel [(-1, -1)]. *)
Theorem row_col_to_cell_injective (sim : ScanSimulator2D) (row col row' col' : Z) :
  sizes_fit sim ->
  (0 <= row < height sim)%Z -> (0 <= col < width sim)%Z ->
  (0 <= row' < height sim)%Z -> (0 <= col' < width sim)%Z ->
  (row_col_to_cell sim row col = row_col_to_cell sim row' col' -> row = row' /\ col = col')
  /\ (row_col_to_cell sim row col / width sim = row)%Z
  /\ (row_col_to_cell sim row col mod width sim = col)%Z
  /\ (0 <= row_col_to_cell sim row col < width sim * height sim)%Z
  /\ row_col_to_cell sim row col <> row_col_to_cell sim (-1) (-1).
Proof.
  intros (Hw & Hh & Hc & Hs) Hr Hcol Hr' Hcol'.
  assert (B : forall r c, (0 <= r < height sim)%Z -> (0 <= c < width sim)%Z ->
            (0 <= r * width sim + c < width sim * height sim)%Z) by (intros; nia).
  pose proof (B row col Hr Hcol) as B1. pose proof (B row' col' Hr' Hcol') as B2.
  rewrite !row_col_to_cell_exact by lia.
  assert (D : forall r c, (0 <= c < width sim)%Z ->
            ((r * width sim + c) / width sim = r
             /\ (r * width sim + c) mod width sim = c)%Z).
  { intros r c Hcb. split.
    - rewrite Z.div_add_l by lia. rewrite Z.div_small by lia. lia.
    - rewrite Z.add_comm, Z.mod_add by lia. apply Z.mod_small. lia. }
  destruct (D row col Hcol) as [D1 D2]. destruct (D row' col' Hcol') as [D1' D2'].
  split; [| repeat split; lia].
  intros E. rewrite E in D1, D2. lia.
Qed.

Lemma row_col_to_cell_injective_witness :
  sizes_fit (corridor 1)
  /\ ((0 <= 0 < height (corridor 1))%Z /\ (0 <= 1 < width (corridor 1))%Z
      /\ (0 <= 0 < height (corridor 1))%Z /\ (0 <= 2 < width (corridor 1))%Z)
  /\ (row_col_to_cell (corridor 1) 0 1 = row_col_to_cell (corridor 1) 0 2 ->
      0%Z = 0%Z /\ 1%Z = 2%Z)
  /\ (row_col_to_cell (corridor 1) 0 1 / width (corridor 1) = 0)%Z
  /\ (row_col_to_cell (corridor 1) 0 1 mod width (corridor 1) = 1)%Z
  /\ (0 <= row_col_to_cell (corridor 1) 0 1 < width (corridor 1) * height (corridor 1))%Z
  /\ row_col_to_cell (corridor 1) 0 1 <> row_col_to_cell (corridor 1) (-1) (-1).
Proof.
  assert (F : sizes_fit (corridor 1)) by apply corridor_map_fits.
  assert (H0 : (0 <= 0 < height (corridor 1))%Z) by (cbn; lia).
  assert (H1 : (0 <= 1 < width (corridor 1))%Z) by (cbn; lia).
  assert (H2 : (0 <= 2 < width (corridor 1))%Z) by (cbn; lia).
  split; [exact F |]. split; [auto |].
  exact (row_col_to_cell_injective (corridor 1) 0 1 0 2 F H0 H1 H0 H2).
Defined.

(** ** The marcher and the beam *)

Lemma back_off_on_ray (sim : ScanSimulator2D) (c s : R) (fuel : nat) :
  forall x y e xb yb eb,
    back_off fuel sim c s x y e = Done (xb, yb, eb) ->
    xb = x - (eb - e) * c /\ yb = y - (eb - e) * s /\ e < eb.
Proof.
  induction fuel as [| fuel IH]; intros x y e xb yb eb H; [discriminate |].
  simpl back_off in H. apply bind_Done in H. destruct H as (d & _ & H).
  destruct (Reqb d 0).
  - apply IH in H. destruct H as (-> & -> & He). repeat split; lra.
  - injection H as <- <- <-. repeat split; lra.
Qed.

Lemma march_on_ray (sim : ScanSimulator2D) (c s : R) (fuel : nat) :
  forall x y d total xe ye t,
    march fuel sim c s x y d total = Done (xe, ye, t) ->
    xe = x + (t - (total - d)) * c /\ ye = y + (t - (total - d)) * s.
Proof.
  induction fuel as [| fuel IH]; intros x y d total xe ye t H; simpl march in H.
  - destruct (Req_dec_T d 0) as [-> | Hd].
    + rewrite Reqb_refl in H. injection H as <- <- <-. split; lra.
    + rewrite (Reqb_false d 0) in H by assumption. discriminate.
  - destruct (Req_dec_T d 0) as [-> | Hd].
    + rewrite Reqb_refl in H. injection H as <- <- <-. split; lra.
    + rewrite (Reqb_false d 0) in H by assumption.
      apply bind_Done in H. destruct H as (d' & _ & H).
      destruct (Req_dec_T d' 0) as [-> | Hd'].
      * rewrite Reqb_refl in H.
        apply bind_Done in H. destruct H as ([[xb yb] eb] & Hb & H).
        injection H as <- <- <-.
        apply back_off_on_ray in Hb. destruct Hb as (-> & -> & _). split; lra.
      * rewrite (Reqb_false d' 0) in H by assumption.
        apply IH in H. destruct H as [-> ->]. split; lra.
Qed.

(** X5. The point where the march ends is the start point moved by the
    total distance along the direction of the beam, back-off included; for
    a unit direction it lies at distance [|total_distance|] from the
    start. *)
Theorem ray_march_on_ray (fuel : nat) (sim : ScanSimulator2D) (c s x y xe ye total : R) :
  ray_march fuel sim c s x y = Done (xe, ye, total) ->
  xe = x + total * c /\ ye = y + total * s
  /\ (c ^ 2 + s ^ 2 = 1 -> sqrt ((xe - x) ^ 2 + (ye - y) ^ 2) = Rabs total).
Proof.
  unfold ray_march. intros H. apply bind_Done in H. destruct H as (d & _ & H).
  apply march_on_ray in H. destruct H as [Hx Hy].
  assert (Ex : xe = x + total * c) by lra.
  assert (Ey : ye = y + total * s) by lra.
  split; [exact Ex |]. split; [exact Ey |].
  intros Hu. rewrite Ex, Ey.
  replace ((x + total * c - x) ^ 2 + (y + total * s - y) ^ 2) with (Rsqr total)
    by (unfold Rsqr; nra).
  apply sqrt_Rsqr_abs.
Qed.

Lemma ray_march_on_ray_witness :
  ray_march 60 (corridor 1) 1 0 (301 / 200) (1 / 2) = Done (399 / 200, 1 / 2, 49 / 100)
  /\ 399 / 200 = 301 / 200 + 49 / 100 * 1 /\ 1 / 2 = 1 / 2 + 49 / 100 * 0
  /\ (1 ^ 2 + 0 ^ 2 = 1 ->
      sqrt ((399 / 200 - 301 / 200) ^ 2 + (1 / 2 - 1 / 2) ^ 2) = Rabs (49 / 100)).
Proof.
  assert (H : ray_march 60 (corridor 1) 1 0 (301 / 200) (1 / 2)
              = Done (399 / 200, 1 / 2, 49 / 100))
    by (apply corridor_march_forward; lia).
  split; [exact H |].
  exact (ray_march_on_ray 60 (corridor 1) 1 0 (301 / 200) (1 / 2) (399 / 200) (1 / 2)
           (49 / 100) H).
Defined.

(** X6. Where the denominator of lines 262-271 is not 0, the point computed
    for an edge lies on the beam [x = k y + b] and on the line through the
    two corners of the edge. *)
Theorem intersection_point_on_both_lines (k b ya yb xa xb : R) :
  k * yb - k * ya - xb + xa <> 0 ->
  let p := intersection_point k b (ya, yb, xa, xb) in
  snd p = k * fst p + b
  /\ (snd p - xa) * (yb - ya) = (fst p - ya) * (xb - xa).
Proof.
  intros Hd p. unfold p, intersection_point. cbn [fst snd].
  split; [reflexivity |]. field. exact Hd.
Qed.

Lemma intersection_point_on_both_lines_witness :
  1 * 3 - 1 * 1 - 0 + 4 <> 0
  /\ snd (intersection_point 1 0 (1, 3, 4, 0))
     = 1 * fst (intersection_point 1 0 (1, 3, 4, 0)) + 0
  /\ (snd (intersection_point 1 0 (1, 3, 4, 0)) - 4) * (3 - 1)
     = (fst (intersection_point 1 0 (1, 3, 4, 0)) - 1) * (0 - 4).
Proof.
  assert (H : 1 * 3 - 1 * 1 - 0 + 4 <> 0) by lra.
  split; [exact H |].
  exact (intersection_point_on_both_lines 1 0 1 3 4 0 H).
Defined.

Lemma fold_closer_edge_min (sim : ScanSimulator2D) (x0 y0 k b : R)
    (edges : list (R * R * R * R)) :
  forall acc,
    let dist := fun edge =>
      sqrt ((x0 - snd (intersection_point k b edge)) ^ 2
            + (y0 - fst (intersection_point k b edge)) ^ 2) in
    let ok := fun edge =>
      within_edge (ray_tracing_epsilon sim) edge (intersection_point k b edge) in
    let r := fold_left (closer_edge sim x0 y0 k b) edges acc in
    r <= acc
    /\ (forall edge, In edge edges -> ok edge = true -> r <= dist edge)
    /\ (r = acc \/ exists edge, In edge edges /\ ok edge = true /\ r = dist edge).
Proof.
  induction edges as [| e edges IH]; intros acc; cbv zeta.
  - simpl. split; [lra |]. split; [contradiction | now left].
  - simpl fold_left.
    destruct (IH (closer_edge sim x0 y0 k b acc e)) as (H1 & H2 & H3). cbv zeta in H1, H2, H3.
    pose proof (closer_edge_le sim x0 y0 k b acc e) as Hle.
    split; [lra |]. split.
    + intros edge [<- | Hin] Hok.
      * eapply Rle_trans; [exact H1 |].
        unfold closer_edge. rewrite Hok. apply std_min_le_r.
      * now apply H2.
    + destruct H3 as [H3 | (edge & Hin & Hok & H3)].
      * rewrite H3. unfold closer_edge.
        destruct (within_edge _ e _) eqn:Hok; [| now left].
        unfold std_min. destruct (Rltb _ acc); [| now left].
        right. exists e. split; [now left |]. split; [exact Hok | reflexivity].
      * right. exists edge. split; [now right |]. auto.
Qed.

(** X7. The range the edge loop of lines 278-299 returns is at most
    [scan_max_range] and at most the distance from the sensor to every
    accepted intersection point, and it is [scan_max_range] or the distance
    to one of the accepted points: their minimum, capped. *)
Theorem scan_to_square_minimum (sim : ScanSimulator2D) (x0 y0 k b oX oY oth : R) :
  let dist := fun edge =>
    sqrt ((x0 - snd (intersection_point k b edge)) ^ 2
          + (y0 - fst (intersection_point k b edge)) ^ 2) in
  let ok := fun edge =>
    within_edge (ray_tracing_epsilon sim) edge (intersection_point k b edge) in
  let r := scan_to_square sim x0 y0 k b oX oY oth in
  r <= scan_max_range sim
  /\ (forall edge, In edge (points sim oX oY oth) -> ok edge = true -> r <= dist edge)
  /\ (r = scan_max_range sim
      \/ exists edge, In edge (points sim oX oY oth) /\ ok edge = true /\ r = dist edge).
Proof.
  exact (fold_closer_edge_min sim x0 y0 k b (points sim oX oY oth) (scan_max_range sim)).
Qed.

(** ** The opponent square *)

Lemma cos_quarter_turn (a : R) : cos (PI / 2 + a) = - sin a.
Proof. rewrite cos_plus, cos_PI2, sin_PI2. ring. Qed.

Lemma sin_quarter_turn (a : R) : sin (PI / 2 + a) = cos a.
Proof. rewrite sin_plus, cos_PI2, sin_PI2. ring. Qed.

Lemma corner_angles (oth : R) :
  let a := PI / 4 + oth in
  cos (3 * PI / 4 + oth) = - sin a /\ sin (3 * PI / 4 + oth) = cos a
  /\ cos (5 * PI / 4 + oth) = - cos a /\ sin (5 * PI / 4 + oth) = - sin a
  /\ cos (7 * PI / 4 + oth) = sin a /\ sin (7 * PI / 4 + oth) = - cos a.
Proof.
  intros a.
  replace (3 * PI / 4 + oth) with (PI / 2 + a) by (unfold a; lra).
  replace (5 * PI / 4 + oth) with (a + PI) by (unfold a; lra).
  replace (7 * PI / 4 + oth) with (PI / 2 + a + PI) by (unfold a; lra).
  rewrite !neg_cos, !neg_sin, !cos_quarter_turn, !sin_quarter_turn.
  repeat split; ring.
Qed.

Lemma center_to_corner_sqr (sim : ScanSimulator2D) :
  center_to_corner sim * center_to_corner sim = cube_width sim * cube_width sim / 2.
Proof.
  unfold center_to_corner.
  pose proof (sqrt_sqrt 2 ltac:(lra)) as E.
  replace (sqrt 2 * cube_width sim / 2 * (sqrt 2 * cube_width sim / 2))
    with (sqrt 2 * sqrt 2 * (cube_width sim * cube_width sim) / 4) by field.
  rewrite E. field.
Qed.

(** X8. The four corners of lines 195-205 form a square centred on the
    opponent: opposite corners are symmetric about the centre, every
    corner is at squared distance [cube_width ^ 2 / 2] from it, and
    consecutive corners are [cube_width] apart, whatever the heading. *)
Theorem corners_form_a_square (sim : ScanSimulator2D) (oX oY oth : R) :
  let x1 := x1 sim oX oth in let y1 := y1 sim oY oth in
  let x2 := x2 sim oX oth in let y2 := y2 sim oY oth in
  let x3 := x3 sim oX oth in let y3 := y3 sim oY oth in
  let x4 := x4 sim oX oth in let y4 := y4 sim oY oth in
  let w := cube_width sim in
  (x1 + x3 = 2 * oX /\ y1 + y3 = 2 * oY /\ x2 + x4 = 2 * oX /\ y2 + y4 = 2 * oY)
  /\ ((x1 - oX) ^ 2 + (y1 - oY) ^ 2 = w ^ 2 / 2
      /\ (x2 - oX) ^ 2 + (y2 - oY) ^ 2 = w ^ 2 / 2
      /\ (x3 - oX) ^ 2 + (y3 - oY) ^ 2 = w ^ 2 / 2
      /\ (x4 - oX) ^ 2 + (y4 - oY) ^ 2 = w ^ 2 / 2)
  /\ ((x1 - x2) ^ 2 + (y1 - y2) ^ 2 = w ^ 2
      /\ (x2 - x3) ^ 2 + (y2 - y3) ^ 2 = w ^ 2
      /\ (x3 - x4) ^ 2 + (y3 - y4) ^ 2 = w ^ 2
      /\ (x4 - x1) ^ 2 + (y4 - y1) ^ 2 = w ^ 2).
Proof.
  cbv zeta. unfold x1, y1, x2, y2, x3, y3, x4, y4.
  destruct (corner_angles oth) as (E2c & E2s & E3c & E3s & E4c & E4s). cbv zeta in *.
  rewrite E2c, E2s, E3c, E3s, E4c, E4s.
  pose proof (center_to_corner_sqr sim) as Hc.
  pose proof (sin2_cos2 (PI / 4 + oth)) as Hu. unfold Rsqr in Hu.
  set (r := center_to_corner sim) in *.
  set (c := cos (PI / 4 + oth)) in *. set (s := sin (PI / 4 + oth)) in *.
  set (w := cube_width sim) in *.
  assert (Q : r * r * (s * s + c * c) = w * w / 2) by (rewrite Hu; lra).
  repeat split; try ring; ring_simplify; ring_simplify in Q; nra.
Qed.

(** ** The start index and the index of a beam *)

Lemma Rtrunc_neg_cases (v : R) :
  v < 0 ->
  (IZR (Zfloor v) = v /\ Rtrunc v = Zfloor v)
  \/ (IZR (Zfloor v) < v /\ Rtrunc v = (Zfloor v + 1)%Z).
Proof.
  intros Hv. rewrite Rtrunc_neg by assumption.
  destruct (Zfloor_bound v) as [F1 F2]. destruct (Zceil_bound v) as [C1 C2].
  destruct (Req_dec_T (IZR (Zfloor v)) v) as [E | N].
  - left. split; [exact E |].
    assert (H1 : (Zfloor v <= Zceil v)%Z) by (apply le_IZR; lra).
    assert (H2 : (Zceil v < Zfloor v + 1)%Z) by (apply lt_IZR; rewrite plus_IZR; lra).
    lia.
  - right. split; [lra |].
    assert (H1 : (Zfloor v < Zceil v)%Z) by (apply lt_IZR; lra).
    assert (H2 : (Zceil v < Zfloor v + 2)%Z) by (apply lt_IZR; rewrite plus_IZR; lra).
    lia.
Qed.

(** [fmod] followed by the conditional addition of lines 102-104 is the
    remainder of the floor division. *)
Lemma wrap_start (t D : R) :
  0 < D ->
  (if Rltb (fmod t D) 0 then fmod t D + D else fmod t D) = t - IZR (Zfloor (t / D)) * D.
Proof.
  intros HD. unfold fmod.
  assert (Hq : t = t / D * D) by (field; lra).
  destruct (Zfloor_bound (t / D)) as [F1 F2].
  destruct (Rle_dec 0 (t / D)) as [Hs | Hs].
  - rewrite Rtrunc_nonneg by assumption.
    rewrite Rltb_false; [reflexivity |].
    assert (0 <= (t / D - IZR (Zfloor (t / D))) * D) by (apply Rmult_le_pos; lra). lra.
  - destruct (Rtrunc_neg_cases (t / D)) as [[E ->] | [N ->]]; [lra | |].
    + rewrite Rltb_false; [reflexivity |]. rewrite E. lra.
    + rewrite plus_IZR.
      rewrite Rltb_true.
      * lra.
      * assert ((t / D - IZR (Zfloor (t / D))) * D < 1 * D)
          by (apply Rmult_lt_compat_r; lra). lra.
Qed.

(** X10. With a positive number of slots, the start index of a scan is the
    remainder of the floor division of
    [theta_discretization * (heading - field_of_view / 2) / (2 PI)] by
    [theta_discretization], and a heading turned by any number of full
    turns gives the same start index. *)
Theorem start_index_modulo_full_turn (sim : ScanSimulator2D) (x y theta : R) (k : Z) :
  (0 < theta_discretization sim)%Z ->
  let D := IZR (theta_discretization sim) in
  let t := D * (theta - field_of_view sim / 2) / (2 * PI) in
  start_index sim (Pose2D.mk x y theta) = t - IZR (Zfloor (t / D)) * D
  /\ start_index sim (Pose2D.mk x y (theta + 2 * IZR k * PI))
     = start_index sim (Pose2D.mk x y theta).
Proof.
  intros Hd D t. assert (HD : 0 < D) by (apply IZR_lt; assumption).
  pose proof PI_RGT_0 as HP.
  assert (S : forall th, start_index sim (Pose2D.mk x y th)
              = D * (th - field_of_view sim / 2) / (2 * PI)
                - IZR (Zfloor (D * (th - field_of_view sim / 2) / (2 * PI) / D)) * D).
  { intros th. unfold start_index. cbn [Pose2D.theta]. fold D. now apply wrap_start. }
  split; [apply S |].
  rewrite !S. fold t.
  replace (D * (theta + 2 * IZR k * PI - field_of_view sim / 2) / (2 * PI))
    with (t + IZR k * D) by (unfold t; field; lra).
  replace ((t + IZR k * D) / D) with (t / D + IZR k) by (field; lra).
  rewrite Zfloor_addz, plus_IZR. ring.
Qed.

Lemma start_index_modulo_full_turn_witness :
  (0 < theta_discretization (corridor 1))%Z
  /\ start_index (corridor 1) (Pose2D.mk 0 0 (PI / 2 + 2 * IZR 3 * PI))
     = start_index (corridor 1) (Pose2D.mk 0 0 (PI / 2)).
Proof.
  assert (H : (0 < theta_discretization (corridor 1))%Z) by (cbn; lia).
  split; [exact H |].
  exact (proj2 (start_index_modulo_full_turn (corridor 1) 0 0 (PI / 2) 3 H)).
Defined.

Lemma wrap_index_congruent (fuel : nat) (D : R) :
  forall t t', wrap_index fuel D t = Done t' -> exists k : nat, t' = t - INR k * D.
Proof.
  induction fuel as [| fuel IH]; intros t t' H; simpl in H.
  - destruct (Rleb D t); [discriminate |]. injection H as <-. exists 0%nat. simpl. lra.
  - destruct (Rleb D t).
    + apply IH in H. destruct H as [k ->]. exists (S k). rewrite S_INR. lra.
    + injection H as <-. exists 0%nat. simpl. lra.
Qed.

Lemma beam_index_congruent (fuel : nat) (sim : ScanSimulator2D) (i : nat) :
  forall t t',
    beam_index fuel sim t i = Done t' ->
    exists k : nat,
      t' = t + INR i * theta_index_increment sim - INR k * IZR (theta_discretization sim).
Proof.
  induction i as [| i IH]; intros t t' H.
  - simpl in H. injection H as <-. exists 0%nat. simpl. lra.
  - simpl beam_index in H. apply bind_Done in H. destruct H as (t1 & H1 & H).
    apply wrap_index_congruent in H1. destruct H1 as [k1 ->].
    apply IH in H. destruct H as [k ->].
    exists (k1 + k)%nat. rewrite plus_INR, S_INR. lra.
Qed.

Lemma next_index_uniform (sim : ScanSimulator2D) :
  constructed sim -> valid_configuration sim ->
  exists fuel0, forall fuel, (fuel0 <= fuel)%nat ->
    forall t, 0 <= t < IZR (theta_discretization sim) ->
      exists t', next_index fuel sim t = Done t'
                 /\ 0 <= t' < IZR (theta_discretization sim).
Proof.
  intros Hc Hv.
  pose proof (theta_index_increment_nonneg _ Hc Hv) as Hi.
  assert (HD : 0 < IZR (theta_discretization sim))
    by (apply IZR_lt; destruct Hv as (_ & _ & ?); lia).
  set (D := IZR (theta_discretization sim)) in *.
  set (q := (D + theta_index_increment sim) / D).
  destruct (archimed q) as [Hup _].
  assert (Hq : 0 <= q).
  { unfold q, Rdiv. apply Rmult_le_pos; [lra |]. left. now apply Rinv_0_lt_compat. }
  assert (Hpos : (0 < up q)%Z) by (apply lt_IZR; lra).
  exists (Z.to_nat (up q)). intros fuel Hf t Ht. unfold next_index. fold D.
  destruct (wrap_index_fuel (Z.to_nat (up q)) D (t + theta_index_increment sim) HD)
    with (fuel := fuel) as [t' Ht']; [| assumption |].
  - rewrite INR_IZR_INZ, Z2Nat.id by lia.
    apply Rlt_trans with (q * D).
    + unfold q. replace ((D + theta_index_increment sim) / D * D)
        with (D + theta_index_increment sim) by (field; lra). lra.
    + apply Rmult_lt_compat_r; assumption.
  - exists t'. split; [assumption |].
    apply (wrap_index_range fuel D (t + theta_index_increment sim) t' HD); [lra | assumption].
Qed.

Lemma beam_index_value (fuel : nat) (sim : ScanSimulator2D) (i : nat) (t t' : R) :
  constructed sim -> valid_configuration sim ->
  0 <= t < IZR (theta_discretization sim) ->
  beam_index fuel sim t i = Done t' ->
  let D := IZR (theta_discretization sim) in
  let v := t + INR i * theta_index_increment sim in
  t' = v - IZR (Zfloor (v / D)) * D.
Proof.
  intros Hc Hv Ht H D v.
  pose proof (beam_index_range _ _ _ _ _ Hc Hv Ht H) as Hr. fold D in Hr.
  apply beam_index_congruent in H. destruct H as [k Hk]. fold D in Hk. fold v in Hk.
  assert (HD : 0 < D) by (apply IZR_lt; destruct Hv as (_ & _ & ?); lia).
  assert (E : Zfloor (v / D) = Z.of_nat k).
  { apply Zfloor_eq. rewrite <- INR_IZR_INZ.
    replace (v / D) with (t' / D + INR k) by (rewrite Hk; field; lra).
    assert (0 <= t' / D).
    { unfold Rdiv. apply Rmult_le_pos; [lra |]. left. now apply Rinv_0_lt_compat. }
    assert (t' / D < 1).
    { apply Rmult_lt_reg_r with D; [assumption |].
      replace (t' / D * D) with t' by (field; lra). lra. }
    lra. }
  rewrite E, <- INR_IZR_INZ. exact Hk.
Qed.

Lemma beam_index_returns (fuel : nat) (sim : ScanSimulator2D) :
  (forall t, 0 <= t < IZR (theta_discretization sim) ->
     exists t', next_index fuel sim t = Done t'
                /\ 0 <= t' < IZR (theta_discretization sim)) ->
  forall i t, 0 <= t < IZR (theta_discretization sim) ->
    exists t', beam_index fuel sim t i = Done t'.
Proof.
  intros Hn. induction i as [| i IH]; intros t Ht.
  - now exists t.
  - destruct (Hn t Ht) as (t1 & E & Ht1). destruct (IH t1 Ht1) as [t' E'].
    exists t'. cbn [beam_index]. rewrite E. exact E'.
Qed.



(** ** A sensor outside the map *)

Lemma scan_loop_outside (fuel n : nat) (sim : ScanSimulator2D) (pose opp : Pose2D.t) :
  constructed sim -> valid_configuration sim -> map_fits sim ->
  outside_map sim (Pose2D.x pose) (Pose2D.y pose) = true ->
  scan_std_dev sim <= 0 ->
  (forall t, 0 <= t < IZR (theta_discretization sim) ->
     exists t', next_index fuel sim t = Done t'
                /\ 0 <= t' < IZR (theta_discretization sim)) ->
  forall t, 0 <= t < IZR (theta_discretization sim) ->
    scan_loop fuel n sim pose opp t = Done (repeat (std_min 0 (scan_max_range sim)) n, sim).
Proof.
  intros Hc Hv Hfit Ho Hs Hn. induction n as [| n IH]; intros t Ht; [reflexivity |].
  rewrite scan_loop_S.
  rewrite trace_ray_outside; try assumption; [| destruct Hv as (_ & _ & ?); lia].
  cbn [bind]. rewrite add_noise_disabled by assumption.
  destruct (Hn t Ht) as (t' & -> & Ht'). cbn [bind].
  rewrite (IH t' Ht'). reflexivity.
Qed.


Lemma corridor_outside : outside_map (corridor 1) (Pose2D.x (Pose2D.mk 5 5 0))
                           (Pose2D.y (Pose2D.mk 5 5 0)) = true.
Proof.
  apply outside_map_true. right. left. cbn [Pose2D.x Pose2D.y].
  rewrite corridor_x_rot. change (IZR (width (corridor 1)) * resolution (corridor 1)) with (3 * 1).
  lra.
Qed.


(** ** What a scan writes *)

Lemma scan_loop_shape (fuel n : nat) :
  forall (sim sim' : ScanSimulator2D) (pose opp : Pose2D.t) (t : R) (out : list R),
    scan_loop fuel n sim pose opp t = Done (out, sim') ->
    length out = n /\ same_setup sim sim' /\ scan_output sim' = scan_output sim.
Proof.
  induction n as [| n IH]; intros sim sim' pose opp t out H.
  - simpl in H. injection H as <- <-. auto with setup.
  - apply scan_loop_step in H.
    destruct H as (r & sim1 & t' & rest & H1 & _ & H2 & ->).
    pose proof (trace_ray_same_setup _ _ _ _ _ _ _ _ _ _ H1) as S1.
    pose proof (add_noise_same_setup sim1 r) as S2.
    apply IH in H2. destruct H2 as (L & S3 & O).
    split; [simpl; now rewrite L |]. split.
    + apply same_setup_trans with sim1; [assumption |].
      apply same_setup_trans with (snd (add_noise sim1 r)); assumption.
    + rewrite O.
      assert (O2 : scan_output (snd (add_noise sim1 r)) = scan_output sim1)
        by (unfold add_noise; destruct (Rltb _ _); reflexivity).
      rewrite O2.
      apply trace_ray_flags in H1. subst sim1.
      destruct (beam_sees _ _ _ _ _ _ _ _); [| reflexivity].
      unfold note_opponent. destruct (_ && _); reflexivity.
Qed.

(** X13. A scan that returns gives one reading per beam, leaves the
    readings in the output buffer of the simulator, and writes nothing but
    the two visibility flags, the generator and that buffer: the
    configuration, the angle cache and the map are as before, so a
    constructed simulator stays constructed and a map that fits stays so.
    The entry point that fills a caller's buffer leaves the simulator's own
    buffer alone. *)
Theorem scan_writes_only_its_state (fuel : nat) (sim sim' : ScanSimulator2D)
    (pose opp : Pose2D.t) (out : list R) :
  (forall flag,
     scan fuel sim pose opp flag = Done (out, sim') ->
     length out = Z.to_nat (num_beams sim) /\ scan_output sim' = out
     /\ same_setup sim sim'
     /\ (constructed sim -> constructed sim') /\ (map_fits sim -> map_fits sim'))
  /\ (scan_data fuel sim pose opp = Done (out, sim') ->
      length out = Z.to_nat (num_beams sim) /\ scan_output sim' = scan_output sim
      /\ same_setup sim sim'
      /\ (constructed sim -> constructed sim') /\ (map_fits sim -> map_fits sim')).
Proof.
  split.
  - intros flag H. apply scan_Done in H. destruct H as (sim1 & H & ->).
    apply scan_loop_shape in H. destruct H as (L & S & _).
    assert (S' : same_setup sim (set_scan_output sim1 out)).
    { apply same_setup_trans with (set_flags sim flag false); [auto with setup |].
      apply same_setup_trans with sim1; auto with setup. }
    split; [exact L |]. split; [reflexivity |]. split; [exact S' |].
    split; [apply same_setup_constructed | apply same_setup_map_fits]; exact S'.
  - intros H. apply scan_loop_shape in H. destruct H as (L & S & O).
    split; [exact L |]. split; [exact O |]. split; [exact S |].
    split; [apply same_setup_constructed | apply same_setup_map_fits]; exact S.
Qed.

(** ** The request flag after a scan *)

(** X14. After a scan through the entry point that takes the flag, the
    request flag is still up exactly when it was asked for and the opponent
    was not seen: the first beam that sees the opponent takes it down, and
    nothing puts it up again. *)
Theorem request_flag_after_scan (fuel : nat) (sim sim' : ScanSimulator2D)
    (pose opp : Pose2D.t) (flag : bool) (out : list R) :
  scan fuel sim pose opp flag = Done (out, sim') ->
  flag_can_see_opponent sim' = flag && negb (see_opponent sim')
  /\ (see_opponent sim' = true -> flag = true /\ flag_can_see_opponent sim' = false).
Proof.
  intros H. apply scan_Done in H. destruct H as (sim1 & H & ->).
  unfold scan_data in H.
  pose proof (scan_loop_flags _ _ _ _ _ _ _ _ H eq_refl) as F.
  unfold see_opponent.
  cbn [flag_can_see_opponent can_see_opponent set_scan_output set_flags] in *.
  split; [exact F |].
  intros Hs. rewrite Hs, andb_false_r in F.
  split; [| exact F].
  destruct flag; [reflexivity |].
  apply scan_loop_flag_down in H; [| reflexivity].
  destruct H as [_ C]. rewrite Hs in C. discriminate C.
Qed.

Lemma request_flag_after_scan_witness :
  scan 60 (corridor 1) sensor (opponent_at (9 / 5)) true
  = Done ([9 / 5 - 341 / 200; 1 / 2], after_sighting)
  /\ flag_can_see_opponent after_sighting = true && negb (see_opponent after_sighting)
  /\ (see_opponent after_sighting = true ->
      true = true /\ flag_can_see_opponent after_sighting = false).
Proof.
  split; [exact (corridor_scan_near 60 (9 / 5) true ltac:(lia) ltac:(lra)) |].
  exact (request_flag_after_scan 60 (corridor 1) after_sighting sensor (opponent_at (9 / 5))
           true _ (corridor_scan_near 60 (9 / 5) true ltac:(lia) ltac:(lra))).
Defined.

(** ** Noise on top of the readings *)

Lemma with_noise_new (uninit : ScanSimulator2D) (seed g : generator) (n : Z)
    (fov sd0 sd max_range cw eps : R) (disc : Z) :
  with_noise (ScanSimulator2D_new uninit seed n fov sd0 max_range cw eps disc) sd g
  = ScanSimulator2D_new uninit g n fov sd max_range cw eps disc.
Proof. reflexivity. Qed.

Lemma with_noise_back_off (sim : ScanSimulator2D) (sd : R) (g : generator)
    (fuel : nat) (c s x y e : R) :
  back_off fuel (with_noise sim sd g) c s x y e = back_off fuel sim c s x y e.
Proof.
  revert x y e. induction fuel as [| fuel IH]; intros x y e; [reflexivity |].
  simpl. change (distance_transform (with_noise sim sd g)) with (distance_transform sim).
  destruct (distance_transform sim _ _) as [d |]; [simpl | reflexivity].
  destruct (Reqb d 0); [apply IH | reflexivity].
Qed.

Lemma with_noise_march (sim : ScanSimulator2D) (sd : R) (g : generator)
    (fuel : nat) (c s x y d t : R) :
  march fuel (with_noise sim sd g) c s x y d t = march fuel sim c s x y d t.
Proof.
  revert x y d t. induction fuel as [| fuel IH]; intros x y d t; [reflexivity |].
  simpl. destruct (Reqb d 0); [reflexivity |].
  change (distance_transform (with_noise sim sd g)) with (distance_transform sim).
  destruct (distance_transform sim _ _) as [d' |]; [simpl | reflexivity].
  destruct (Reqb d' 0); [| apply IH].
  now rewrite with_noise_back_off.
Qed.

Lemma with_noise_ray_march (sim : ScanSimulator2D) (sd : R) (g : generator)
    (fuel : nat) (c s x y : R) :
  ray_march fuel (with_noise sim sd g) c s x y = ray_march fuel sim c s x y.
Proof.
  unfold ray_march.
  change (distance_transform (with_noise sim sd g)) with (distance_transform sim).
  destruct (distance_transform sim x y) as [d |]; [simpl | reflexivity].
  apply with_noise_march.
Qed.

Lemma with_noise_note_opponent (sim : ScanSimulator2D) (sd : R) (g : generator) (d : R) :
  note_opponent (with_noise sim sd g) d = with_noise (note_opponent sim d) sd g.
Proof.
  unfold note_opponent.
  change (flag_can_see_opponent (with_noise sim sd g)) with (flag_can_see_opponent sim).
  change (threshold (with_noise sim sd g)) with (threshold sim).
  destruct (_ && _); reflexivity.
Qed.

Lemma with_noise_opponent_collision (sim : ScanSimulator2D) (sd : R) (g : generator)
    (x0 y0 : R) (i : Z) (k x y t oX oY oth : R) :
  opponent_collision (with_noise sim sd g) x0 y0 i k x y t oX oY oth
  = (fst (opponent_collision sim x0 y0 i k x y t oX oY oth),
     with_noise (snd (opponent_collision sim x0 y0 i k x y t oX oY oth)) sd g).
Proof.
  unfold opponent_collision.
  change (same_side (with_noise sim sd g)) with (same_side sim).
  change (axis_index (with_noise sim sd g)) with (axis_index sim).
  change (scan_to_square (with_noise sim sd g)) with (scan_to_square sim).
  change (scan_max_range (with_noise sim sd g)) with (scan_max_range sim).
  change (cube_width (with_noise sim sd g)) with (cube_width sim).
  rewrite with_noise_note_opponent.
  destruct (same_side _ _ _ _ _ _ _ _); [reflexivity |].
  destruct (Rltb _ _); [| reflexivity].
  destruct (Rltb _ _); [| reflexivity].
  destruct (axis_index _ _); reflexivity.
Qed.

Lemma with_noise_trace_ray (sim : ScanSimulator2D) (sd : R) (g : generator)
    (fuel : nat) (x y t oX oY oth : R) :
  trace_ray fuel (with_noise sim sd g) x y t oX oY oth
  = ('(r, sim') <- trace_ray fuel sim x y t oX oY oth ;; Done (r, with_noise sim' sd g)).
Proof.
  unfold trace_ray.
  change (sines (with_noise sim sd g)) with (sines sim).
  change (cosines (with_noise sim sd g)) with (cosines sim).
  change (arctanes (with_noise sim sd g)) with (arctanes sim).
  destruct (lookup _ (sines sim) _) as [s |]; [simpl | reflexivity].
  destruct (lookup _ (cosines sim) _) as [c |]; [simpl | reflexivity].
  destruct (lookup _ (arctanes sim) _) as [k |]; [simpl | reflexivity].
  rewrite with_noise_ray_march.
  destruct (ray_march fuel sim c s x y) as [[[xe ye] total] |]; [simpl | reflexivity].
  rewrite with_noise_opponent_collision.
  destruct (opponent_collision sim _ _ _ _ _ _ _ _ _ _) as [r1 s1]. reflexivity.
Qed.

Lemma with_noise_scan_loop (fuel n : nat) :
  forall (sim : ScanSimulator2D) (sd : R) (g : generator) (pose opp : Pose2D.t) (t : R),
    scan_std_dev sim <= 0 -> 0 < sd ->
    scan_loop fuel n (with_noise sim sd g) pose opp t
    = ('(out, sim') <- scan_loop fuel n sim pose opp t ;;
       Done (add_samples g out, with_noise sim' sd (draws n g))).
Proof.
  induction n as [| n IH]; intros sim sd g pose opp t Hq Hsd.
  - reflexivity.
  - rewrite !scan_loop_S, with_noise_trace_ray.
    destruct (trace_ray fuel sim _ _ _ _ _ _) as [[r sim1] |] eqn:T; [| reflexivity].
    cbn [bind].
    assert (Hq1 : scan_std_dev sim1 <= 0).
    { rewrite (same_setup_scan_std_dev sim sim1); [assumption |].
      exact (trace_ray_same_setup _ _ _ _ _ _ _ _ _ _ T). }
    rewrite (add_noise_disabled sim1 r Hq1).
    unfold add_noise at 1.
    change (scan_std_dev (with_noise sim1 sd g)) with sd.
    rewrite (Rltb_true _ _ Hsd).
    change (noise_generator (with_noise sim1 sd g)) with g.
    cbn [noise_dist].
    change (set_noise_generator (with_noise sim1 sd g) (mkGen (samples g) (S (drawn g))))
      with (with_noise sim1 sd (mkGen (samples g) (S (drawn g)))).
    change (next_index fuel (with_noise sim1 sd (mkGen (samples g) (S (drawn g)))) t)
      with (next_index fuel sim1 t).
    destruct (next_index fuel sim1 t) as [t' |]; [| reflexivity].
    cbn [bind]. rewrite (IH sim1 sd _ pose opp t' Hq1 Hsd).
    destruct (scan_loop fuel n sim1 pose opp t') as [[rest sim2] |]; reflexivity.
Qed.

Lemma add_samples_nth (l : list R) :
  forall (g : generator) (i : nat), (i < length l)%nat ->
    nth i (add_samples g l) 0 = nth i l 0 + samples g (drawn g + i).
Proof.
  induction l as [| r l IH]; intros g i Hi; [simpl in Hi; lia |].
  destruct i as [| i]; cbn [add_samples noise_dist nth].
  - now rewrite Nat.add_0_r.
  - rewrite IH by (simpl in Hi; lia). cbn [samples drawn].
    now rewrite Nat.add_succ_r.
Qed.

Lemma add_samples_length (l : list R) :
  forall g : generator, length (add_samples g l) = length l.
Proof. induction l as [| r l IH]; intros g; simpl; [| rewrite IH]; reflexivity. Qed.

Lemma draws_eq (n : nat) :
  forall g : generator, draws n g = mkGen (samples g) (drawn g + n).
Proof.
  induction n as [| n IH]; intros g; simpl.
  - rewrite Nat.add_0_r. now destruct g.
  - rewrite IH. simpl. now rewrite Nat.add_succ_r.
Qed.

(** X15. Noise is laid over the readings and touches nothing else.  Let
    [sim] be a simulator without noise and [with_noise sim sd g] the same
    simulator with a standard deviation [sd > 0] and its generator in state
    [g].  A scan of the second fails exactly when the scan of the first
    does, and otherwise returns the readings of the first with one draw
    added to each, beam [i] getting draw [drawn g + i]; the simulator it
    leaves is the one the first scan leaves (so the visibility flags are
    the same), with these readings in the buffer and the generator
    [num_beams] draws further. *)
Theorem noise_is_laid_over_the_readings (fuel : nat) (sim : ScanSimulator2D)
    (sd : R) (g : generator) (pose opp : Pose2D.t) (flag : bool) :
  scan_std_dev sim <= 0 -> 0 < sd ->
  match scan fuel sim pose opp flag with
  | Done (out, sim') =>
      exists noisy,
        scan fuel (with_noise sim sd g) pose opp flag
        = Done (noisy,
                set_scan_output
                  (with_noise sim' sd (mkGen (samples g) (drawn g + Z.to_nat (num_beams sim))))
                  noisy)
        /\ length noisy = length out
        /\ forall i, (i < length out)%nat ->
             nth i noisy 0 = nth i out 0 + samples g (drawn g + i)
  | Fail e => scan fuel (with_noise sim sd g) pose opp flag = Fail e
  end.
Proof.
  intros Hq Hsd. unfold scan, scan_data.
  change (set_flags (with_noise sim sd g) flag false)
    with (with_noise (set_flags sim flag false) sd g).
  change (num_beams (with_noise (set_flags sim flag false) sd g)) with (num_beams sim).
  change (num_beams (set_flags sim flag false)) with (num_beams sim).
  change (start_index (with_noise (set_flags sim flag false) sd g) pose)
    with (start_index (set_flags sim flag false) pose).
  rewrite (with_noise_scan_loop fuel _ (set_flags sim flag false) sd g pose opp _ Hq Hsd).
  destruct (scan_loop fuel _ (set_flags sim flag false) pose opp _) as [[out sim1] |];
    [| reflexivity].
  cbn [bind]. exists (add_samples g out). rewrite draws_eq.
  split; [reflexivity |]. split; [apply add_samples_length | apply add_samples_nth].
Qed.

Lemma noise_is_laid_over_the_readings_witness :
  scan_std_dev (corridor 1) <= 0 /\ 0 < 1 / 10
  /\ exists noisy,
       scan 60 (with_noise (corridor 1) (1 / 10) (mkGen (fun n => INR n / 100) 5))
         sensor (opponent_at (9 / 5)) true
       = Done (noisy,
               set_scan_output
                 (with_noise after_sighting (1 / 10) (mkGen (fun n => INR n / 100) 7)) noisy)
       /\ nth 0 noisy 0 = 9 / 5 - 341 / 200 + 5 / 100
       /\ nth 1 noisy 0 = 1 / 2 + 6 / 100.
Proof.
  assert (Hq : scan_std_dev (corridor 1) <= 0) by (cbn; lra).
  assert (Hsd : 0 < 1 / 10) by lra.
  split; [exact Hq |]. split; [exact Hsd |].
  pose proof (noise_is_laid_over_the_readings 60 (corridor 1) (1 / 10)
                (mkGen (fun n => INR n / 100) 5) sensor (opponent_at (9 / 5)) true Hq Hsd) as H.
  rewrite (corridor_sighting true) in H. destruct H as (noisy & E & _ & N).
  exists noisy. split; [exact E |].
  split.
  - rewrite (N 0%nat) by (simpl; lia). cbn [nth samples drawn Nat.add].
    rewrite INR_IZR_INZ. cbn [Z.of_nat Pos.of_succ_nat Pos.succ]. lra.
  - rewrite (N 1%nat) by (simpl; lia). cbn [nth samples drawn Nat.add].
    rewrite INR_IZR_INZ. cbn [Z.of_nat Pos.of_succ_nat Pos.succ]. lra.
Defined.
